(* ===== verification/_CoqProject ===== *)
-Q . S2P
Prelude.v
Async.v
Rtc.v
Peer.v
Room.v
Lobby.v
Relay.v
Negotiation.v
System.v
Wire.v
Chain.v
