(* ===== verification/Prelude.v ===== *)
(** * Verification of RADXIshan/socketIo: a two-party WebRTC call over a
      Socket.IO signaling relay

    ** The program

    The repository's client ([src/client/src]) is a React page pair:
    - [pages/Lobby.jsx] sends [room:join] with an e-mail and a room number
      and navigates to the room page when the relay acknowledges;
    - [pages/Room.jsx] keeps the remote participant's socket id and the
      local and remote streams, and reacts to the relay's messages
      ([user:joined], [incoming:call], [call:accepted], [peer:nego:needed],
      [peer:nego:final]) and to the connection's events ([track],
      [negotiationneeded]) by calling the media service and emitting the
      next message ([user:call], [call:accepted], [peer:nego:needed],
      [peer:nego:done]);
    - [service/peer.js] is the media service: one module-level
      [PeerService] wrapping one browser [RTCPeerConnection], with
      [getOffer], [getAnswer], [setRemoteDescription],
      [setLocalDescription] and [addLocalTracks].
    The relay server (room directory and message forwarding) is not under
    [src/]; it is modelled from the spec (section 4.1, 4.2, 6).

    ** Files and what they model

    - [Prelude] (this file): exceptions ([exn]), call outcomes ([res]), the
      [rtc] hint database, tactics, and the keyed deduplication [fresh_by]
      with its lemmas.
    - [Async]: JavaScript [async]/[await] as a monad of finite trees
      ([Done]/[Sync]/[Await]) with [run] (total, structural: no fuel),
      [catch] ([try]/[catch]), [zoom] (running a component's body in a
      larger world), [preserves] (invariants of every step of a body),
      [safe] (an invariant together with a postcondition on the value
      returned, a Hoare triple checked step by step), and [awaits_le]
      (how many [await]s a body passes on any path).
    - [Rtc]: the browser's [RTCPeerConnection] (an external collaborator of
      the spec, modelled from the W3C/JSEP contract the code relies on):
      signaling states, pending and current descriptions, created-
      description bookkeeping, senders and receivers, the operations
      chain ([pc_ops], the length of [[Operations]]: [begin_op] when a
      description operation is called, [chained] runs it and [end_op]
      removes it, updating the negotiation-needed flag when the chain
      empties with an update deferred), the negotiation-needed flag and
      the queued [track] and [negotiationneeded] events; its
      well-formedness [Rtc.wf] and that every operation preserves it.
    - [Peer] ([service/peer.js]): [Peer.PeerService] is [this.peer];
      [Peer.constructor]/[Peer.instance] the constructor and the exported
      singleton; [Peer.addLocalTracks] (with its loop [add_tracks_loop]),
      [Peer.getOffer], [Peer.getAnswer], [Peer.setRemoteDescription],
      [Peer.setLocalDescription] translated line by line, each
      [await this.peer.m(...)] a [Peer.chain_op]: the operation joins the
      chain when called and runs at the [Await] node.
    - [Room] ([pages/Room.jsx], [pages/Lobby.jsx]): [Room.client] is the
      page's world (the service, [remoteSocketId], [mystream],
      [remoteStream], stopped tracks, emitted messages, the page shown,
      and the lobby form's [email] and [room] state, [Room.lobby_form],
      edited by the inputs' [onChange] setters [setEmail], [setRoom]);
      every handler ([handleUserJoined], [handleCallUser],
      [handleIncomingCall], [handleCallAccepted], [handleNegotiationNeeded],
      [handleNegotiationIncoming], [handleNegotiationFinal], [handleTrack],
      [handleSubmitForm], [handleJoinRoom]) is an [async] body over it, the
      service reached through [zoom] ([Room.svc]); [room_on_message],
      [room_on_event] and [lobby_on_message] are the registered listeners;
      [setMystream] carries the effect that stops the previous stream.
    - [Lobby] ([pages/Lobby.jsx], lines 32-47): the rendered form
      ([lobby_render]: the inputs' values) and what clicking Join does:
      the browser's constraint validation of the [type='email'] input
      ([valid_email], the HTML standard's "valid e-mail address", a
      structural [Fixpoint] over the characters) lets the [submit] event
      reach [handleSubmitForm] only when the e-mail is empty or valid
      ([form_submits]).
    - [Relay] (the server, from the spec): [Relay.server] holds the room
      directory (rooms to occupants in join order, the reverse index, the
      e-mails) and the connected ids; [join], [leave], [lookupRoom],
      [connect], [disconnect] are the directory's operations and
      [handle_c2s] the server's reaction to one client message, built from
      [route] and [deliver]. The messages are the client's own [Room.c2s]
      and [Room.s2c], so the relay and the pages speak one vocabulary.
    - [Negotiation]: the spec's call state machine (section 4.4): its
      states, its table [spec_edge], the abstraction [call_state_of] that
      reads a state off a connection (signaling state and whether a remote
      description was ever applied), the transitions the engine operations
      make ([code_edge]), and that every listener body of the pages moves
      the state along [code_edge] only ([good_body]).
    - [System]: both pages and the relay together as a step relation
      ([System.exec], [System.step]): the relay takes an endpoint's next
      emitted message, an endpoint dispatches a received message or an
      engine event to its mounted page, a suspended task resumes, the
      user types in a lobby input, submits the lobby form or clicks Call
      (shown only when [remoteSocketId] is set), or an endpoint goes
      away. Tasks run to their next [await] ([Async.settle],
      [Async.resume]); each direction of a socket is FIFO.
    - [Wire]: the typing of the protocol's messages ([c2s_typed],
      [s2c_typed]: offers in [user:call] and [peer:nego:needed], answers
      in [call:accepted] and [peer:nego:done]), the service's methods and
      the pages' listeners proved [safe] for it, and the system invariant
      [wire_inv] over every queue of both directions.
    - [Chain]: how many chained operations a body holds ([Chain.holds]:
      zero, or one between an operation's call and its caller's
      resumption), that every listener and handler starts holding none,
      and the system invariant [chain_inv]: each endpoint's chain is
      exactly what its suspended tasks hold.

    ** What is proved (Peer)

    - functional behaviour of every method on its success and error paths
      ([getOffer_ok], [getOffer_err], [getAnswer_ok],
      [setRemoteDescription_answer_stable]);
    - track deduplication: [addLocalTracks_senders] (exactly the new
      tracks, in order, with their stream), and that the engine's own
      refusal of a second sender makes the pre-check and the engine agree
      (lemma [add_tracks_loop_senders]);
    - the round trip of one offer/answer exchange between two services
      ([offer_answer_exchange]): both sides stable, each receiving the
      other's tracks, nothing left to negotiate and nothing left chained;
    - the methods' results are stated for a connection with nothing
      chained and no deferred update ([Rtc.quiet]), where a chained
      operation behaves as the operation alone ([Rtc.chained_createOffer]
      and its siblings); [Chain] shows every idle endpoint is [quiet];
    - a divergence from the spec: an answer to a superseded offer is not
      discarded ([stale_answer_applied]).

    ** What is proved (Room)

    - the page's inline [addTrack] loop is equivalent to
      [PeerService.addLocalTracks] ([room_add_tracks_equiv]);
    - functional behaviour of the call handlers on success and error paths
      ([handleCallUser_ok], [handleCallUser_denied], [handleIncomingCall_ok],
      [answer_handlers_never_reject], [duplicate_answer_ignored]);
    - a renegotiation round through [handleNegotiationNeeded],
      [handleNegotiationIncoming] and [handleNegotiationFinal] leaves both
      connections [stable], each receiving the other's tracks
      ([negotiation_round]); tracks arriving without a stream accumulate
      into one composite remote stream ([handleTrack_accumulates]);
    - a bug: calling again stops tracks that are still sent and offered
      ([recall_stops_sent_tracks]);
    - a divergence from spec section 5: negotiation actions are not
      serialised. On any page able to call, two clicks on Call put two
      [handleCallUser] tasks in flight; run in the order the browser runs
      them, the first task's [setLocalDescription] rejects with
      [InvalidModificationError] (an unhandled rejection) and only the
      second offer is sent ([double_call_race]);
    - bounds: a message listener suspends at most four times on any path,
      an engine event listener at most twice, the Call handler at most
      three times, and the bound four is reached ([listener_await_bounds]).

    ** What is proved (Relay)

    - the occupancy invariant [relay_wf] (one or two distinct occupants per
      room, reverse index consistent) holds for every handled message
      (lemma [handle_c2s_wf], used by [System]);
    - a join to a full room is refused with nothing changed or delivered
      ([join_full_rejected]); a successful one is acknowledged and
      announced to the previous occupant ([join_announces]);
    - forwarding refines the relay contract [relayed] of spec 4.2
      ([relay_forwards]); witnesses replay the join scenario of spec 8 and
      relay the [user:call] the caller's page actually emits.

    ** What is proved (System)

    - the relay's occupancy invariant holds in every reachable system
      ([reachable_invariant]);
    - the transition from [Offering] to [Answering], which the spec's
      table does not have, is reachable with the real button guard
      ([offer_replaced_reachable]): [handleIncomingCall] applies any
      offer, also over the endpoint's own pending one;
    - the lobby's round trip: from any reachable system, typing an e-mail
      and a room that is not full and submitting brings the endpoint to
      the room's page, appended to its occupants, with every earlier
      occupant told [user:joined] ([lobby_join_roundtrip]);
    - clicking Join sends the inputs' values, empty ones included, when
      the e-mail is empty or valid, and does nothing otherwise
      ([lobby_submit]).

    ** What the supporting lemmas give

    - [Chain.reachable_chain_held]: in every reachable system an
      endpoint's chain is no longer than its list of suspended tasks, and
      an endpoint with no suspended task is [quiet];
    - [System.reachable_ok]: every connection stays well formed and every
      endpoint's call state moves along [Negotiation.code_edge] only.

    ** What is proved (Wire)

    - in every reachable system every page keeps its connection and every
      description on the wire, emitted or delivered, has the type its
      event names ([reachable_wire_typed]): nothing in the code checks
      it, the pages only forward what [getOffer] and [getAnswer] return.

    ** Modelling choices and bounds

    - Identities of tracks and streams are pairs (endpoint, counter), the
      browser's UUIDs; track identity is the id.
    - Each [await] is an interleaving point; the engine operation awaited
      runs atomically when the task resumes. The operations chain is
      counted ([pc_ops]) and defers the negotiation-needed update and the
      [negotiationneeded] event while it is not empty, as in the W3C
      algorithms. The order in which chained operations run is the order
      in which the schedule resumes their callers: the browser's order
      (call order, per connection) is one of the schedules, so theorems
      over all reachable systems hold for it, and the scenarios resume
      each endpoint's operations in call order.
    - An operation leaves the chain when its caller resumes, just before
      the caller's synchronous continuation, where the browser removes it
      just after. In this code the only continuation that chains another
      operation is inside [getOffer] and [getAnswer]; there the model may
      raise the flag and queue [negotiationneeded] between [createOffer]
      and [setLocalDescription], and that event is dropped at dispatch
      unless negotiation is needed again once the connection is back in
      [stable].
    - [run] is structural on the body, so no fuel is needed; bodies are
      finite trees. In [System] a task advances one [await] per step, and
      the schedules of the scenarios are explicit lists of steps evaluated
      by [vm_compute]. The bound four of [System.good_task] is the largest
      number of [await]s of a listener ([Room.listener_await_bounds]):
      [handleIncomingCall] awaits [getUserMedia] and the three engine
      operations of [getAnswer].
    - The negotiation-needed flag is raised when the update runs, and the
      [negotiationneeded] event queued with it; the current W3C text
      raises the flag inside the queued task, just before firing. Both
      check the chain, the signaling state and the flag again when the
      event is dispatched, so the page sees the same events; the model's
      flag may be set earlier than the browser's.
    - [RTCPeerConnection.close()] is not modelled: the code never calls
      it (the singleton lives as long as the page), so [closed] is never
      reached; the engine's [closed] branches follow the contract only.
    - [handleSubmitForm]'s [e.preventDefault()] is not modelled: the model
      has no page reload for it to prevent.
    - Not modelled: ICE, DTLS, codecs and the matching of m-lines between an
      offer and its answer (the transport the spec keeps opaque, which the
      code neither calls nor observes) (the engine accepts any answer in
      [have-local-offer]); [console] output; the lobby's JSX layout
      (headings, labels, styles: only the inputs' state and handlers are
      modelled); the router that mounts one page at a time is the
      [cl_page] field. The room page's rendering is modelled as
      [Room.render] (status line, Call button, video sources).
    - The lobby's e-mail check follows the HTML standard; the value
      sanitisation of an e-mail input (newlines and surrounding
      whitespace stripped) is not modelled: the model's value is what
      the user typed.
    - A handler reads the state its closure captured when it is invoked:
      React re-renders between events. The effect of lines 160-164 runs
      with the [mystream] update.

    ** Plan of the next files

    - an operation's removal from the chain after its caller's
      synchronous continuation (a pending-removal count flushed at the
      next [await] and at the end of each step), and a system that runs
      chained operations only in call order;
    - liveness under fair schedules (every relayed message is eventually
      dispatched), beyond the existence of a finishing schedule.

    This file: the vocabulary shared by every component. *)

From stdpp Require Import base list gmap strings.

Declare Scope rtc_scope.
Delimit Scope rtc_scope with rtc.

(** ** Exceptions *)

(** The names of the exceptions the code raises or catches: the WebRTC
    engine rejects with [InvalidStateError], [InvalidAccessError] and
    [InvalidModificationError]; [new RTCSessionDescription(undefined)] and
    a malformed description throw [TypeError]; [getUserMedia] rejects with
    [NotAllowedError] (permission denied) or [NotFoundError] (no device). *)
Inductive exn :=
  | InvalidStateError
  | InvalidAccessError
  | InvalidModificationError
  | TypeError
  | NotAllowedError
  | NotFoundError.

#[export] Instance exn_eq_dec : EqDecision exn.
Proof. solve_decision. Defined.

(** ** Outcomes *)

(** The outcome of a call: it returns a value or throws. A rejected promise
    is a thrown exception at the [await] that consumes it. *)
Inductive res (A : Type) : Type :=
  | Ok (a : A)
  | Thrown (e : exn).
Arguments Ok {A} a.
Arguments Thrown {A} e.

Definition res_map {A B} (f : A -> B) (r : res A) : res B :=
  match r with Ok a => Ok (f a) | Thrown e => Thrown e end.

Definition is_ok {A} (r : res A) : bool :=
  match r with Ok _ => true | Thrown _ => false end.

Notation "'throw' e" := (Thrown e, _) (at level 10, only parsing) : rtc_scope.

(** ** Tactics *)

Create HintDb rtc.
Create Rewrite HintDb rtc_run.
(** The steps that keep the pages' messages well typed ([Wire]). *)
Create HintDb wire.

(** Invert a hypothesis and clean up. *)
Ltac invc H := inversion H; subst; clear H.

(** Case analysis on every [if decide]/[bool_decide] and [match] in the goal,
    then close what [simplify_eq]/[done] can close. *)
Ltac rtc_cases :=
  repeat (first [ case_decide | case_bool_decide | case_match ]);
  simplify_eq/=; try done.

(** ** Lists *)

Section lists.
Context {A K : Type} `{EqDecision K} (key : A -> K).
Implicit Types (seen : list K) (k : list A) (x : A).

(** The elements of [k] whose key is not yet [seen], keys seen earlier in
    [k] included: the shape of every "add unless already present" loop of
    the code (track deduplication, new remote tracks). *)
Fixpoint fresh_by seen k : list A :=
  match k with
  | [] => []
  | x :: k' =>
      if bool_decide (key x ∈ seen) then fresh_by seen k'
      else x :: fresh_by (key x :: seen) k'
  end.

Lemma elem_of_fresh_by seen k x :
  x ∈ fresh_by seen k → x ∈ k ∧ key x ∉ seen.
Proof.
  revert seen; induction k as [|y k IH]; intros seen; simpl; [set_solver|].
  case_bool_decide; [intros []%IH; set_solver|].
  rewrite elem_of_cons. intros [->|[? ?]%IH]; set_solver.
Qed.

(** Every element of [k] has its key seen before or kept. *)
Lemma fresh_by_covers seen k x :
  x ∈ k → key x ∈ seen ∨ key x ∈ key <$> fresh_by seen k.
Proof.
  revert seen; induction k as [|y k IH]; intros seen; simpl; [set_solver|].
  rewrite elem_of_cons. intros [->|Hx]; case_bool_decide; try set_solver.
  destruct (IH (key y :: seen) Hx); set_solver.
Qed.

Lemma NoDup_fresh_by seen k :
  NoDup seen → NoDup (seen ++ (key <$> fresh_by seen k)).
Proof.
  revert seen; induction k as [|y k IH]; intros seen Hs; simpl.
  - by rewrite app_nil_r.
  - case_bool_decide; [by apply IH|].
    rewrite fmap_cons, <- Permutation_middle.
    apply (IH (key y :: seen)). by constructor.
Qed.

Lemma fresh_by_all_seen seen k :
  Forall (λ x, key x ∈ seen) k → fresh_by seen k = [].
Proof.
  revert seen; induction k as [|y k IH]; intros seen Hk; simpl; [done|].
  apply Forall_cons in Hk as [Hy Hk]. rewrite bool_decide_true by done. by apply IH.
Qed.

Lemma fresh_by_mono seen seen' k :
  (∀ z, z ∈ seen' ↔ z ∈ seen) → fresh_by seen' k = fresh_by seen k.
Proof.
  revert seen seen'; induction k as [|y k IH]; intros seen seen' Heq; simpl; [done|].
  rewrite (bool_decide_ext _ _ (Heq (key y))).
  case_bool_decide; [by apply IH|]. f_equal. apply IH. set_solver.
Qed.
End lists.

#[export] Hint Resolve NoDup_fresh_by : rtc.
