(* ===== verification/Async.v ===== *)
(** * Async: the [async]/[await] monad of the modelled JavaScript.

    An [async W A] is the body of a JavaScript [async] function over a world
    [W] (the state it reads and mutates), as a finite tree:
    - [Done r]: the function has returned ([Ok]) or thrown ([Thrown]);
    - [Sync f k]: a synchronous step [f] (no other code can run in between),
      whose value is passed to the rest [k];
    - [Await f k]: an [await] on an operation [f]: the task suspends here,
      other tasks and events may run, and when it resumes [f] runs against
      the world as it then is.

    [run] executes a body to completion without interleaving (structural
    recursion on the tree, so it is total and needs no fuel). [settle] and
    [resume] run a body one [await] at a time, which [System] uses to
    interleave tasks with messages and events. [catch] is JavaScript's [try]/[catch]: an exception thrown by any
    step of the body is passed to the handler; the world changes made before
    the throw are kept. [zoom] runs a body written against one component's
    state inside a larger world (the way [Room.jsx] calls the [PeerService]
    singleton). [preserves] and [safe] are the invariants of every step of
    a body, [safe] with a postcondition on the value returned; [awaits_le]
    bounds the [await]s on every path. *)

From stdpp Require Import base list.
From S2P Require Import Prelude.

Inductive async (W A : Type) : Type :=
  | Done (r : res A)
  | Sync {X : Type} (f : W -> res X * W) (k : X -> async W A)
  | Await {X : Type} (f : W -> res X * W) (k : X -> async W A).
Arguments Done {W A} r.
Arguments Sync {W A X} f k.
Arguments Await {W A X} f k.

Section async.
Context {W : Type}.

Fixpoint abind {A B} (m : async W A) (g : A -> async W B) : async W B :=
  match m with
  | Done (Ok a) => g a
  | Done (Thrown e) => Done (Thrown e)
  | Sync f k => Sync f (fun x => abind (k x) g)
  | Await f k => Await f (fun x => abind (k x) g)
  end.

#[export] Instance async_ret : MRet (async W) := fun A a => Done (Ok a).
#[export] Instance async_bind : MBind (async W) := fun A B g m => abind m g.

(** Primitive steps. *)
Definition sync {X} (f : W -> res X * W) : async W X := Sync f (fun x => Done (Ok x)).
Definition await {X} (f : W -> res X * W) : async W X := Await f (fun x => Done (Ok x)).
Definition raise {A} (e : exn) : async W A := Done (Thrown e).
Definition modify (g : W -> W) : async W unit := sync (fun w => (Ok tt, g w)).
Definition gets {X} (g : W -> X) : async W X := sync (fun w => (Ok (g w), w)).

(** Sequential execution to completion. *)
Fixpoint run {A} (m : async W A) (w : W) : res A * W :=
  match m with
  | Done r => (r, w)
  | Sync f k | Await f k =>
      let (r, w') := f w in
      match r with
      | Ok x => run (k x) w'
      | Thrown e => (Thrown e, w')
      end
  end.

(** Interleaved execution. [settle] runs the synchronous part of a body:
    every [Sync] step up to the first [Await] (where the task suspends) or
    to the end. [resume] continues a suspended task: the awaited operation
    runs against the world as it is now, then the synchronous part up to
    the next [Await]. *)
Fixpoint settle {A} (m : async W A) (w : W) : async W A * W :=
  match m with
  | Sync f k =>
      let (r, w') := f w in
      match r with Ok x => settle (k x) w' | Thrown e => (Done (Thrown e), w') end
  | _ => (m, w)
  end.

Definition resume {A} (m : async W A) (w : W) : async W A * W :=
  match m with
  | Await f k =>
      let (r, w') := f w in
      match r with Ok x => settle (k x) w' | Thrown e => (Done (Thrown e), w') end
  | _ => settle m w
  end.

Definition suspended {A} (m : async W A) : bool :=
  match m with Await _ _ => true | _ => false end.

(** [try { m } catch (e) { h(e) }]. *)
Definition trap {X} (f : W -> res X * W) : W -> res (exn + X) * W :=
  fun w => let (r, w') := f w in
    match r with Ok x => (Ok (inr x), w') | Thrown e => (Ok (inl e), w') end.

Fixpoint catch {A} (m : async W A) (h : exn -> async W A) : async W A :=
  match m with
  | Done (Ok a) => Done (Ok a)
  | Done (Thrown e) => h e
  | Sync f k => Sync (trap f) (fun s => match s with inl e => h e | inr x => catch (k x) h end)
  | Await f k => Await (trap f) (fun s => match s with inl e => h e | inr x => catch (k x) h end)
  end.

(** ** Laws *)

Lemma run_ret {A} (a : A) w : run (mret a) w = (Ok a, w).
Proof. reflexivity. Qed.

Lemma run_raise {A} e w : run (raise (A:=A) e) w = (Thrown e, w).
Proof. reflexivity. Qed.

Lemma run_bind {A B} (m : async W A) (g : A -> async W B) w :
  run (m ≫= g) w =
    let (r, w') := run m w in
    match r with Ok a => run (g a) w' | Thrown e => (Thrown e, w') end.
Proof.
  unfold mbind, async_bind. revert w.
  induction m as [[a|e]|X f k IH|X f k IH]; intros w; simpl; try done;
    destruct (f w) as [[x|e] w']; simpl; auto.
Qed.

Lemma run_abind {A B} (m : async W A) (g : A -> async W B) w :
  run (abind m g) w =
    let (r, w') := run m w in
    match r with Ok a => run (g a) w' | Thrown e => (Thrown e, w') end.
Proof. apply run_bind. Qed.

Lemma run_sync {X} (f : W -> res X * W) w : run (sync f) w = f w.
Proof. simpl. by destruct (f w) as [[] ?]. Qed.

Lemma run_await {X} (f : W -> res X * W) w : run (await f) w = f w.
Proof. simpl. by destruct (f w) as [[] ?]. Qed.

Lemma run_catch {A} (m : async W A) (h : exn -> async W A) w :
  run (catch m h) w =
    let (r, w') := run m w in
    match r with Ok a => (Ok a, w') | Thrown e => run (h e) w' end.
Proof.
  revert w.
  induction m as [[a|e]|X f k IH|X f k IH]; intros w; simpl; try done;
    unfold trap; destruct (f w) as [[x|e] w']; simpl; auto.
Qed.

End async.

#[export] Hint Rewrite @run_bind @run_sync @run_await @run_catch @run_ret @run_raise : rtc_run.

(** ** Running a component's body inside a larger world *)

Section zoom.
Context {V W : Type} (get : W -> V) (put : V -> W -> W).

Definition lift_step {X} (f : V -> res X * V) : W -> res X * W :=
  fun w => let (r, v') := f (get w) in (r, put v' w).

Fixpoint zoom {A} (m : async V A) : async W A :=
  match m with
  | Done r => Done r
  | Sync f k => Sync (lift_step f) (fun x => zoom (k x))
  | Await f k => Await (lift_step f) (fun x => zoom (k x))
  end.

Hypothesis get_put : forall w, put (get w) w = w.
Hypothesis put_get : forall v w, get (put v w) = v.
Hypothesis put_put : forall v v' w, put v' (put v w) = put v' w.

(** Running the zoomed body is running the body on the component. *)
Lemma run_zoom {A} (m : async V A) w :
  run (zoom m) w = let (r, v') := run m (get w) in (r, put v' w).
Proof.
  revert w. induction m as [r|X f k IH|X f k IH]; intros w; simpl;
    [by rewrite get_put| |];
    unfold lift_step; destruct (f (get w)) as [[x|e] v0]; simpl; try done;
    rewrite IH, put_get; destruct (run (k x) v0); by rewrite put_put.
Qed.
End zoom.

(** ** Invariants of bodies *)

(** Every step of the body, on every path, preserves [P]. *)
Inductive preserves {W A} (P : W -> Prop) : async W A -> Prop :=
  | pres_done r : preserves P (Done r)
  | pres_sync {X} (f : W -> res X * W) k :
      (forall w, P w -> P (f w).2) -> (forall x, preserves P (k x)) -> preserves P (Sync f k)
  | pres_await {X} (f : W -> res X * W) k :
      (forall w, P w -> P (f w).2) -> (forall x, preserves P (k x)) -> preserves P (Await f k).

Section preserves.
Context {W : Type} (P : W -> Prop).

Lemma run_preserves {A} (m : async W A) w : preserves P m -> P w -> P (run m w).2.
Proof.
  intros Hm. revert w. induction Hm as [r|X f k Hf Hk IH|X f k Hf Hk IH]; intros w Hw;
    simpl; [done| |]; specialize (Hf w Hw); destruct (f w) as [[x|e] w']; simpl in *; auto.
Qed.

Lemma preserves_bind {A B} (m : async W A) (g : A -> async W B) :
  preserves P m -> (forall a, preserves P (g a)) -> preserves P (m ≫= g).
Proof.
  intros Hm Hg. unfold mbind, async_bind.
  induction Hm as [[a|e]|X f k Hf Hk IH|X f k Hf Hk IH]; simpl; try constructor; auto.
Qed.

Lemma preserves_sync {X} (f : W -> res X * W) :
  (forall w, P w -> P (f w).2) -> preserves P (sync f).
Proof. intros Hf. constructor; [done|constructor]. Qed.

Lemma preserves_await {X} (f : W -> res X * W) :
  (forall w, P w -> P (f w).2) -> preserves P (await f).
Proof. intros Hf. constructor; [done|constructor]. Qed.

Lemma preserves_ret {A} (a : A) : preserves P (mret a).
Proof. constructor. Qed.

Lemma preserves_catch {A} (m : async W A) h :
  preserves P m -> (forall e, preserves P (h e)) -> preserves P (catch m h).
Proof.
  intros Hm Hh.
  induction Hm as [[a|e]|X f k Hf Hk IH|X f k Hf Hk IH]; simpl; [constructor|auto| |];
    constructor; try (intros [e|x]; auto);
    intros w Hw; unfold trap; specialize (Hf w Hw); by destruct (f w) as [[] ?].
Qed.
End preserves.

Section interleaving.
Context {W : Type}.

Context (P : W → Prop).

Lemma preserves_settle_body {A} (m : async W A) w :
  preserves P m → preserves P (settle m w).1.
Proof.
  intros Hm. revert w. induction Hm as [r|X f k Hf Hk IH|X f k Hf Hk IH]; intros w;
    simpl; try by constructor.
  destruct (f w) as [[x|e] w']; simpl; [apply IH|constructor].
Qed.

Lemma preserves_settle {A} (m : async W A) w :
  preserves P m → P w → P (settle m w).2.
Proof.
  intros Hm. revert w. induction Hm as [r|X f k Hf Hk IH|X f k Hf Hk IH]; intros w Hw;
    simpl; try done.
  specialize (Hf w Hw). destruct (f w) as [[x|e] w']; simpl in *; auto.
Qed.

Lemma preserves_resume_body {A} (m : async W A) w :
  preserves P m → preserves P (resume m w).1.
Proof.
  intros Hm. destruct Hm as [r|X f k Hf Hk|X f k Hf Hk];
    [constructor|by apply preserves_settle_body; constructor|simpl].
  destruct (f w) as [[x|e] w']; [by apply preserves_settle_body|constructor].
Qed.

Lemma preserves_resume {A} (m : async W A) w :
  preserves P m → P w → P (resume m w).2.
Proof.
  intros Hm Hw. destruct Hm as [r|X f k Hf Hk|X f k Hf Hk];
    [done|by apply preserves_settle; [constructor|]|simpl].
  specialize (Hf w Hw). destruct (f w) as [[x|e] w']; simpl in *; [|done].
  by apply preserves_settle.
Qed.
End interleaving.

Section zoom_preserves.
Context {V W : Type} (get : W -> V) (put : V -> W -> W).
Hypothesis put_get : forall v w, get (put v w) = v.

(** An invariant of a component's state is an invariant of the world
    read through [get]. *)
Lemma preserves_zoom {A} (Q : V → Prop) (m : async V A) :
  preserves Q m → preserves (λ w, Q (get w)) (zoom get put m).
Proof.
  induction 1 as [r|X f k Hf Hk IH|X f k Hf Hk IH]; simpl; constructor; auto;
    intros w Hw; unfold lift_step; specialize (Hf _ Hw);
    destruct (f (get w)); simpl; by rewrite put_get.
Qed.
End zoom_preserves.

#[export] Hint Resolve preserves_bind preserves_sync preserves_await preserves_ret
  preserves_catch : rtc.

(** Prove [preserves P m] by walking the body: the [rtc] hints first
    (a component's bodies already known to preserve [P]), then binds,
    primitive steps, and a case split on every [match] of a continuation. *)
Ltac solve_preserves :=
  repeat (match goal with
          | |- preserves _ _ => solve [eauto with rtc]
          | |- preserves _ (_ ≫= _) => apply preserves_bind; [|intros ?]
          | |- preserves _ (catch _ _) => apply preserves_catch; [|intros ?]
          | |- preserves _ (sync _) => apply preserves_sync; intros ??
          | |- preserves _ (await _) => apply preserves_await; intros ??
          | |- preserves _ (mret _) => apply preserves_ret
          | |- preserves _ (match ?x with _ => _ end) => destruct x
          end); simpl in *.

(** ** How many times a body awaits *)

(** Every path of the body passes at most [n] [await]s. *)
Fixpoint awaits_le {W A} (n : nat) (m : async W A) : Prop :=
  match m with
  | Done _ => True
  | Sync f k => ∀ x, awaits_le n (k x)
  | Await f k => match n with 0 => False | S n' => ∀ x, awaits_le n' (k x) end
  end.

Section awaits.
Context {W : Type}.

Lemma awaits_le_mono {A} (m : async W A) n n' : n ≤ n' → awaits_le n m → awaits_le n' m.
Proof.
  revert n n'. induction m as [r|X f k IH|X f k IH]; intros n n' Hn; simpl; [done|eauto|].
  destruct n as [|n], n' as [|n']; [done|done|lia|]. intros Hk x. apply (IH x n); [lia|done].
Qed.

Lemma awaits_le_settle {A} n (m : async W A) w : awaits_le n m → awaits_le n (settle m w).1.
Proof.
  revert w. induction m as [r|X f k IH|X f k IH]; intros w; simpl; [done| |done].
  intros Hk. destruct (f w) as [[x|e] w']; simpl; [by apply IH|done].
Qed.

(** Resuming a suspended task uses up one of its [await]s. *)
Lemma awaits_le_resume {A} n (m : async W A) w :
  suspended m = true → awaits_le (S n) m → awaits_le n (resume m w).1.
Proof.
  destruct m as [r|X f k|X f k]; simpl; [done|done|]. intros _ Hk.
  destruct (f w) as [[x|e] w']; simpl; [by apply awaits_le_settle|done].
Qed.
End awaits.

(** Bounds of concrete bodies: unfold the tree and follow every branch. *)
Ltac awaits_bound :=
  repeat (cbn; intros; repeat case_match); trivial.

(** ** Safety with a postcondition *)

(** [safe P Q m]: from a world satisfying [P], every step of [m] keeps [P],
    and a normal return yields a value satisfying [Q]. Unlike [preserves],
    the continuation of a step is only constrained at the values the step
    returns from a world satisfying [P], so a later step may rely on what
    an earlier one returned (a Hoare triple whose precondition and
    invariant coincide). *)
Inductive safe {W A} (P : W → Prop) (Q : A → Prop) : async W A → Prop :=
  | sf_ok a : Q a → safe P Q (Done (Ok a))
  | sf_thrown e : safe P Q (Done (Thrown e))
  | sf_sync {X} (f : W → res X * W) k :
      (∀ w, P w → P (f w).2) → (∀ w x, P w → (f w).1 = Ok x → safe P Q (k x)) →
      safe P Q (Sync f k)
  | sf_await {X} (f : W → res X * W) k :
      (∀ w, P w → P (f w).2) → (∀ w x, P w → (f w).1 = Ok x → safe P Q (k x)) →
      safe P Q (Await f k).

Section safe.
Context {W : Type} (P : W → Prop).

Lemma safe_mono {A} (Q Q' : A → Prop) (m : async W A) :
  (∀ a, Q a → Q' a) → safe P Q m → safe P Q' m.
Proof. intros HQ. induction 1; constructor; eauto. Qed.

Lemma safe_bind {A B} (Q : A → Prop) (R : B → Prop) (m : async W A) (g : A → async W B) :
  safe P Q m → (∀ a, Q a → safe P R (g a)) → safe P R (m ≫= g).
Proof. intros Hm Hg. induction Hm; simpl; try constructor; eauto. Qed.

Lemma safe_sync {X} (Q : X → Prop) (f : W → res X * W) :
  (∀ w, P w → P (f w).2) → (∀ w x, P w → (f w).1 = Ok x → Q x) → safe P Q (sync f).
Proof. intros Hf HQ. constructor; [done|]. intros w x Hw Hx. constructor. eauto. Qed.

Lemma safe_await {X} (Q : X → Prop) (f : W → res X * W) :
  (∀ w, P w → P (f w).2) → (∀ w x, P w → (f w).1 = Ok x → Q x) → safe P Q (await f).
Proof. intros Hf HQ. constructor; [done|]. intros w x Hw Hx. constructor. eauto. Qed.

Lemma safe_ret {A} (Q : A → Prop) (a : A) : Q a → safe P Q (mret a).
Proof. by constructor. Qed.

Lemma trap_cases {X} (f : W → res X * W) w s :
  (trap f w).1 = Ok s → (trap f w).2 = (f w).2 ∧ ∀ x, s = inr x → (f w).1 = Ok x.
Proof. unfold trap. destruct (f w) as [[x|e] w']; simpl; intros [= <-]; split; congruence. Qed.

Lemma safe_catch {A} (Q : A → Prop) (m : async W A) h :
  safe P Q m → (∀ e, safe P Q (h e)) → safe P Q (catch m h).
Proof.
  intros Hm Hh. induction Hm as [a|e|X f k Hf Hk IH|X f k Hf Hk IH]; simpl; [by constructor|done| |].
  all: constructor; [intros w Hw; rewrite (surjective_pairing (trap f w)) in *;
                     unfold trap; specialize (Hf w Hw); by destruct (f w) as [[]]|].
  all: intros w [e|x] Hw Hs; [done|]; apply (IH w); [done|].
  all: unfold trap in Hs; destruct (f w) as [[x'|e'] w']; simpl in *; congruence.
Qed.

(** A task runs its synchronous part, or is resumed, from a world
    satisfying [P]: the world still satisfies it, and so does the rest. *)
Lemma safe_settle {A} (Q : A → Prop) (m : async W A) w :
  safe P Q m → P w → P (settle m w).2 ∧ safe P Q (settle m w).1.
Proof.
  intros Hm. revert w. induction Hm as [a|e|X f k Hf Hk IH|X f k Hf Hk IH]; intros w Hw;
    simpl; try by split; [|constructor].
  pose proof (Hf w Hw) as Hw'. destruct (f w) as [[x|e] w'] eqn:E; simpl in *; [|by split; [|constructor]].
  apply (IH w); [done|by rewrite E|done].
Qed.

Lemma safe_resume {A} (Q : A → Prop) (m : async W A) w :
  safe P Q m → P w → P (resume m w).2 ∧ safe P Q (resume m w).1.
Proof.
  intros Hm Hw. destruct Hm as [a|e|X f k Hf Hk|X f k Hf Hk]; unfold resume;
    [by apply safe_settle; [constructor|]..|].
  pose proof (Hf w Hw) as Hw'. destruct (f w) as [[x|e] w'] eqn:E; simpl in *; [|by split; [|constructor]].
  apply safe_settle; [apply (Hk w); [done|by rewrite E]|done].
Qed.
End safe.

Section zoom_safe.
Context {V W : Type} (get : W → V) (put : V → W → W).
Context (Pv : V → Prop) (Pw : W → Prop).
Hypothesis get_P : ∀ w, Pw w → Pv (get w).
Hypothesis put_P : ∀ v w, Pw w → Pv v → Pw (put v w).

(** A component's body safe for [Pv] is safe, run inside the larger
    world, for any [Pw] the component's steps cannot break. *)
Lemma safe_zoom {A} (Q : A → Prop) (m : async V A) : safe Pv Q m → safe Pw Q (zoom get put m).
Proof.
  induction 1 as [a|e|X f k Hf Hk IH|X f k Hf Hk IH]; simpl; [by constructor..| |];
    constructor; unfold lift_step.
  1,3: intros w Hw; pose proof (Hf _ (get_P w Hw)); destruct (f (get w)); simpl in *; auto.
  all: intros w x Hw; destruct (f (get w)) as [r v'] eqn:E; simpl; intros ->;
    apply (IH (get w)); [auto|by rewrite E].
Qed.
End zoom_safe.

#[export] Hint Resolve safe_bind safe_sync safe_await safe_ret safe_catch : wire.

(** Prove [safe P Q m] by walking the body, as [solve_preserves] does. *)
Ltac solve_safe :=
  repeat (match goal with
          | |- safe _ _ _ => solve [eauto with wire]
          | |- safe _ _ (_ ≫= _) => eapply safe_bind; [|intros ??]
          | |- safe _ _ (catch _ _) => apply safe_catch; [|intros ?]
          | |- safe _ _ (mret _) => apply safe_ret
          | |- safe _ _ (match ?x with _ => _ end) => destruct x
          end); simpl in *.
