(* ===== verification/Rtc.v ===== *)
(** * Rtc: the browser's [RTCPeerConnection], the engine [peer.js] wraps.

    The engine is not code of the repository: it is the media-transport
    session the spec treats as an external collaborator. This file models
    the part of its contract (W3C webrtc-pc, JSEP) that the repository's
    code relies on:
    - the signaling state machine ([stable], [have-local-offer],
      [have-remote-offer], [closed]) driven by [setLocalDescription] and
      [setRemoteDescription], with the implicit rollback of a local offer
      when a remote offer arrives, and [InvalidStateError] for a
      description that is not valid in the current state;
    - [createOffer]/[createAnswer], which describe the current senders and
      record the last created description ([setLocalDescription] of any
      other one is an [InvalidModificationError]);
    - [addTrack], which refuses a track that already has a sender
      ([InvalidAccessError]): the deduplication the spec asks of the
      negotiator is, in the browser, a property of the engine;
    - the operations chain ([[Operations]]): [begin_op] when the page
      calls a description operation, [chained] runs it and removes it
      ([end_op]); while the chain is not empty the negotiation-needed
      update is deferred ([pc_nn_on_empty]) and run when it empties, and
      [chain_wf] says an update is only deferred on a non-empty chain;
      on a [quiet] connection a chained operation is the operation alone;
    - the negotiation-needed flag and the queued [negotiationneeded] and
      [track] events.
    What the engine does with the bodies of descriptions beyond their type
    and their media lines (ICE, DTLS, codecs, m-line matching) is not
    modelled. *)

From stdpp Require Import base list gmap strings.
From S2P Require Import Prelude Async.

Module Rtc.

(** ** Identities and media *)

(** Track and stream identities ([MediaStreamTrack.id], [MediaStream.id]):
    globally unique, drawn as (endpoint, counter). *)
Abbreviation uid := (nat * nat)%type.

Inductive kind := Audio | Video.
#[export] Instance kind_eq_dec : EqDecision kind.
Proof. solve_decision. Defined.

Record track := mkTrack { track_id : uid; track_kind : kind }.
#[export] Instance track_eq_dec : EqDecision track.
Proof. solve_decision. Defined.

(** A media section of a description: a sent track and the ids of the
    streams it was added with (its [a=msid] lines). *)
Record media_line := mkMedia { ml_track : track; ml_streams : list uid }.
#[export] Instance media_line_eq_dec : EqDecision media_line.
Proof. solve_decision. Defined.

Inductive sdp_type := SdpOffer | SdpAnswer.
#[export] Instance sdp_type_eq_dec : EqDecision sdp_type.
Proof. solve_decision. Defined.

(** A session description: its type, the [o=] session id and version of the
    endpoint that generated it, and its media sections. *)
Record sdp := mkSdp {
  sdp_kind : sdp_type;
  sdp_session : nat;
  sdp_version : nat;
  sdp_media : list media_line }.
#[export] Instance sdp_eq_dec : EqDecision sdp.
Proof. solve_decision. Defined.

Inductive signaling_state := Stable | HaveLocalOffer | HaveRemoteOffer | Closed.
#[export] Instance signaling_state_eq_dec : EqDecision signaling_state.
Proof. solve_decision. Defined.

(** An [RTCRtpSender]: its track (null after [replaceTrack(null)]) and the
    ids of the streams given to [addTrack]. *)
Record sender := mkSender { snd_track : option track; snd_streams : list uid }.

(** A [MediaStream] as a value: its id and its tracks at the time it is read. *)
Record media_stream := mkStream { ms_id : uid; ms_tracks : list track }.
#[export] Instance media_stream_eq_dec : EqDecision media_stream.
Proof. solve_decision. Defined.

Inductive rtc_event :=
  | EvNegotiationNeeded
  | EvTrack (t : track) (streams : list uid).

Record pc := mkPc {
  pc_config : list string;          (** the [iceServers] urls *)
  pc_session : nat;
  pc_signaling : signaling_state;
  pc_pending_local : option sdp;
  pc_pending_remote : option sdp;
  pc_current_local : option sdp;
  pc_current_remote : option sdp;
  pc_last_offer : option sdp;       (** [[LastCreatedOffer]] *)
  pc_last_answer : option sdp;      (** [[LastCreatedAnswer]] *)
  pc_version : nat;                 (** next [o=] version *)
  pc_senders : list sender;
  pc_receivers : list media_line;   (** remote tracks received so far *)
  pc_nego_needed : bool;            (** [[NegotiationNeeded]] *)
  pc_events : list rtc_event;       (** queued events, oldest first *)
  pc_ops : nat;                     (** length of [[Operations]], the chain *)
  pc_nn_on_empty : bool }.          (** [[UpdateNegotiationNeededFlagOnEmptyChain]] *)

(** [new RTCPeerConnection(config)]. *)
Definition new_pc (config : list string) (session : nat) : pc :=
  mkPc config session Stable None None None None None None 0 [] [] false [] 0 false.

(** ** Field updates *)

Definition with_descs (s : signaling_state) (pl pr cl cr : option sdp) (p : pc) : pc :=
  mkPc p.(pc_config) p.(pc_session) s pl pr cl cr p.(pc_last_offer) p.(pc_last_answer)
    p.(pc_version) p.(pc_senders) p.(pc_receivers) p.(pc_nego_needed) p.(pc_events)
    p.(pc_ops) p.(pc_nn_on_empty).

Definition with_created (lo la : option sdp) (p : pc) : pc :=
  mkPc p.(pc_config) p.(pc_session) p.(pc_signaling) p.(pc_pending_local)
    p.(pc_pending_remote) p.(pc_current_local) p.(pc_current_remote) lo la
    (S p.(pc_version)) p.(pc_senders) p.(pc_receivers) p.(pc_nego_needed) p.(pc_events)
    p.(pc_ops) p.(pc_nn_on_empty).

Definition with_media (ss : list sender) (rs : list media_line) (p : pc) : pc :=
  mkPc p.(pc_config) p.(pc_session) p.(pc_signaling) p.(pc_pending_local)
    p.(pc_pending_remote) p.(pc_current_local) p.(pc_current_remote) p.(pc_last_offer)
    p.(pc_last_answer) p.(pc_version) ss rs p.(pc_nego_needed) p.(pc_events)
    p.(pc_ops) p.(pc_nn_on_empty).

Definition with_flag (b : bool) (evs : list rtc_event) (p : pc) : pc :=
  mkPc p.(pc_config) p.(pc_session) p.(pc_signaling) p.(pc_pending_local)
    p.(pc_pending_remote) p.(pc_current_local) p.(pc_current_remote) p.(pc_last_offer)
    p.(pc_last_answer) p.(pc_version) p.(pc_senders) p.(pc_receivers) b evs
    p.(pc_ops) p.(pc_nn_on_empty).

Definition with_chain (n : nat) (b : bool) (p : pc) : pc :=
  mkPc p.(pc_config) p.(pc_session) p.(pc_signaling) p.(pc_pending_local)
    p.(pc_pending_remote) p.(pc_current_local) p.(pc_current_remote) p.(pc_last_offer)
    p.(pc_last_answer) p.(pc_version) p.(pc_senders) p.(pc_receivers) p.(pc_nego_needed)
    p.(pc_events) n b.

(** ** Derived views *)

(** The tracks currently sent ([getSenders().map(s => s.track)], nulls
    dropped). *)
Definition sent_tracks (p : pc) : list track := omap snd_track p.(pc_senders).

(** Track identity is the track's [id]. *)
Definition sent_ids (p : pc) : list uid := track_id <$> sent_tracks p.

Definition line_id (ml : media_line) : uid := track_id (ml_track ml).

Definition received_ids (p : pc) : list uid := line_id <$> p.(pc_receivers).

(** The media sections a new description lists: one per sender with a track. *)
Definition local_media (p : pc) : list media_line :=
  omap (fun s => (fun t => mkMedia t s.(snd_streams)) <$> s.(snd_track)) p.(pc_senders).

Definition described (d : option sdp) : list uid :=
  match d with Some d => line_id <$> d.(sdp_media) | None => [] end.

(** JSEP "check if negotiation is needed": a sent track that the current
    local description does not describe. *)
Definition check_needed (p : pc) : bool :=
  bool_decide (Exists (fun i => i ∉ described p.(pc_current_local)) (sent_ids p)).

(** "Update the negotiation-needed flag": deferred while an operation is
    chained (the chain re-runs it when it empties), and only acts in
    [stable]. *)
Definition update_nego (p : pc) : pc :=
  if decide (p.(pc_ops) ≠ 0) then with_chain p.(pc_ops) true p else
  if decide (p.(pc_signaling) = Stable) then
    if check_needed p then
      if p.(pc_nego_needed) then p
      else with_flag true (p.(pc_events) ++ [EvNegotiationNeeded]) p
    else with_flag false p.(pc_events) p
  else p.

(** The remote tracks a description adds: new receivers, each announced by
    a queued [track] event carrying its streams. *)
Definition receive_tracks (d : sdp) (p : pc) : pc :=
  let fresh := fresh_by line_id (received_ids p) d.(sdp_media) in
  let p1 := with_media p.(pc_senders) (p.(pc_receivers) ++ fresh) p in
  with_flag p.(pc_nego_needed)
    (p.(pc_events) ++ ((fun ml => EvTrack (ml_track ml) (ml_streams ml)) <$> fresh)) p1.

(** ** The operations chain *)

(** "Chain an operation": calling [createOffer], [createAnswer],
    [setLocalDescription] or [setRemoteDescription] appends the operation
    to [[Operations]] synchronously, before the caller's [await]. *)
Definition begin_op (p : pc) : pc := with_chain (S p.(pc_ops)) p.(pc_nn_on_empty) p.

(** When the operation's promise settles it is removed from the chain; a
    chain left empty re-runs the negotiation-needed update that was
    deferred while it was not. *)
Definition end_op (p : pc) : pc :=
  if decide (pred p.(pc_ops) = 0 ∧ p.(pc_nn_on_empty) = true)
  then update_nego (with_chain 0 false p)
  else with_chain (pred p.(pc_ops)) p.(pc_nn_on_empty) p.

(** A chained operation: it runs when its caller resumes, then leaves the
    chain. *)
Definition chained {X} (op : pc → res X * pc) (p : pc) : res X * pc :=
  let (r, p1) := op p in (r, end_op p1).

(** ** Operations *)

(** The description [createOffer]/[createAnswer] generate. *)
Definition describe (k : sdp_type) (p : pc) : sdp :=
  mkSdp k p.(pc_session) p.(pc_version) (local_media p).

Definition createOffer (p : pc) : res sdp * pc :=
  if decide (p.(pc_signaling) = Stable ∨ p.(pc_signaling) = HaveLocalOffer) then
    (Ok (describe SdpOffer p), with_created (Some (describe SdpOffer p)) p.(pc_last_answer) p)
  else (Thrown InvalidStateError, p).

Definition createAnswer (p : pc) : res sdp * pc :=
  if decide (p.(pc_signaling) = HaveRemoteOffer) then
    (Ok (describe SdpAnswer p), with_created p.(pc_last_offer) (Some (describe SdpAnswer p)) p)
  else (Thrown InvalidStateError, p).

Definition setLocalDescription (d : sdp) (p : pc) : res unit * pc :=
  if decide (p.(pc_signaling) = Closed) then (Thrown InvalidStateError, p) else
  match d.(sdp_kind) with
  | SdpOffer =>
      if decide (Some d ≠ p.(pc_last_offer)) then (Thrown InvalidModificationError, p)
      else if decide (p.(pc_signaling) = HaveRemoteOffer) then (Thrown InvalidStateError, p)
      else (Ok tt, with_descs HaveLocalOffer (Some d) None
                     p.(pc_current_local) p.(pc_current_remote) p)
  | SdpAnswer =>
      if decide (Some d ≠ p.(pc_last_answer)) then (Thrown InvalidModificationError, p)
      else if decide (p.(pc_signaling) ≠ HaveRemoteOffer) then (Thrown InvalidStateError, p)
      else (Ok tt, update_nego
                     (with_descs Stable None None (Some d) p.(pc_pending_remote) p))
  end.

Definition setRemoteDescription (d : sdp) (p : pc) : res unit * pc :=
  match p.(pc_signaling), d.(sdp_kind) with
  | Closed, _ => (Thrown InvalidStateError, p)
  | _, SdpOffer =>
      (* from have-local-offer: implicit rollback of the local offer *)
      (Ok tt, receive_tracks d
                (with_descs HaveRemoteOffer None (Some d)
                   p.(pc_current_local) p.(pc_current_remote) p))
  | HaveLocalOffer, SdpAnswer =>
      (Ok tt, update_nego (receive_tracks d
                (with_descs Stable None None p.(pc_pending_local) (Some d) p)))
  | _, SdpAnswer => (Thrown InvalidStateError, p)
  end.

Definition addTrack (t : track) (streams : list uid) (p : pc) : res unit * pc :=
  if decide (p.(pc_signaling) = Closed) then (Thrown InvalidStateError, p)
  else if decide (track_id t ∈ sent_ids p) then (Thrown InvalidAccessError, p)
  else (Ok tt, update_nego
                 (with_media (p.(pc_senders) ++ [mkSender (Some t) streams]) p.(pc_receivers) p)).

Definition getSenders (p : pc) : list sender := p.(pc_senders).

(** The event loop takes the oldest queued event. A [negotiationneeded]
    event is dropped when, at dispatch time, an operation is chained (the
    update is deferred to the chain's end, and the flag cleared so that it
    raises the event again), the connection is not [stable], or the flag
    has been cleared (the checks of the queued task). *)
Definition take_event (p : pc) : option (option rtc_event * pc) :=
  match p.(pc_events) with
  | [] => None
  | EvNegotiationNeeded :: evs =>
      if decide (p.(pc_ops) ≠ 0) then Some (None, with_chain p.(pc_ops) true (with_flag false evs p)) else
      let p' := with_flag p.(pc_nego_needed) evs p in
      if decide (p.(pc_signaling) = Stable ∧ p.(pc_nego_needed) = true)
      then Some (Some EvNegotiationNeeded, p') else Some (None, p')
  | ev :: evs => Some (Some ev, with_flag p.(pc_nego_needed) evs p)
  end.

(** ** Well-formedness of a connection *)

(** The signaling state agrees with the pending descriptions (JSEP's state
    table), and no track is sent or received twice. *)
Definition wf_signaling (p : pc) : Prop :=
  match p.(pc_signaling) with
  | Stable => p.(pc_pending_local) = None ∧ p.(pc_pending_remote) = None
  | HaveLocalOffer =>
      (∃ o, p.(pc_pending_local) = Some o ∧ o.(sdp_kind) = SdpOffer)
      ∧ p.(pc_pending_remote) = None
  | HaveRemoteOffer =>
      p.(pc_pending_local) = None
      ∧ ∃ o, p.(pc_pending_remote) = Some o ∧ o.(sdp_kind) = SdpOffer
  | Closed => True
  end.

Definition wf (p : pc) : Prop :=
  NoDup (sent_ids p) ∧ NoDup (received_ids p) ∧ wf_signaling p.

(** Two connections that agree on everything but the negotiation flag, the
    event queue and the created-description bookkeeping. *)
Definition same_core (p q : pc) : Prop :=
  q.(pc_signaling) = p.(pc_signaling) ∧ q.(pc_pending_local) = p.(pc_pending_local)
  ∧ q.(pc_pending_remote) = p.(pc_pending_remote)
  ∧ q.(pc_current_local) = p.(pc_current_local)
  ∧ q.(pc_current_remote) = p.(pc_current_remote)
  ∧ q.(pc_senders) = p.(pc_senders) ∧ q.(pc_receivers) = p.(pc_receivers).

Lemma wf_same_core p q : same_core p q → wf p → wf q.
Proof.
  intros (Hs & Hpl & Hpr & _ & _ & Hse & Hre) (H1 & H2 & H3).
  unfold wf, wf_signaling, sent_ids, sent_tracks, received_ids in *.
  rewrite Hs, Hpl, Hpr, Hse, Hre. done.
Qed.

Lemma with_flag_core b evs p : same_core p (with_flag b evs p).
Proof. done. Qed.

Lemma with_created_core lo la p : same_core p (with_created lo la p).
Proof. done. Qed.

Lemma with_chain_core n b p : same_core p (with_chain n b p).
Proof. done. Qed.

Lemma update_nego_core p : same_core p (update_nego p).
Proof. unfold update_nego. by rtc_cases. Qed.

Lemma update_nego_wf p : wf p → wf (update_nego p).
Proof. apply wf_same_core, update_nego_core. Qed.

#[export] Hint Resolve update_nego_wf : rtc.

(** [receive_tracks] only extends the receivers, with fresh ones. *)
Lemma receive_tracks_received d p :
  received_ids (receive_tracks d p)
  = received_ids p ++ (line_id <$> fresh_by line_id (received_ids p) d.(sdp_media)).
Proof. unfold receive_tracks, received_ids. simpl. by rewrite fmap_app. Qed.

Lemma receive_tracks_wf d p : wf p → wf (receive_tracks d p).
Proof.
  intros (H1 & H2 & H3). split_and!; [done| |done].
  rewrite receive_tracks_received. by apply NoDup_fresh_by.
Qed.

#[export] Hint Resolve receive_tracks_wf : rtc.

Lemma createOffer_wf p : wf p → wf (createOffer p).2.
Proof. unfold createOffer. case_decide; [|done]. apply wf_same_core, with_created_core. Qed.

Lemma createAnswer_wf p : wf p → wf (createAnswer p).2.
Proof. unfold createAnswer. case_decide; [|done]. apply wf_same_core, with_created_core. Qed.

Lemma setLocalDescription_wf d p : wf p → wf (setLocalDescription d p).2.
Proof.
  intros Hp. unfold setLocalDescription.
  case_decide; [done|]. destruct (sdp_kind d) eqn:Hk; rtc_cases.
  - destruct Hp as (Hs & Hr & _). split_and!; try done.
    unfold wf_signaling; simpl. split; [by exists d|done].
  - apply update_nego_wf. destruct Hp as (Hs & Hr & _). by split_and!.
Qed.

Lemma setRemoteDescription_wf d p : wf p → wf (setRemoteDescription d p).2.
Proof.
  intros Hp. unfold setRemoteDescription.
  destruct (pc_signaling p) eqn:Hs, (sdp_kind d) eqn:Hk; simpl; try done;
    try (apply receive_tracks_wf; destruct Hp as (Hs' & Hr & _);
         split_and!; try done; unfold wf_signaling; simpl; split; [done|by exists d]).
  apply update_nego_wf, receive_tracks_wf. destruct Hp as (Hs' & Hr & _). by split_and!.
Qed.

Lemma addTrack_wf t ss p : wf p → wf (addTrack t ss p).2.
Proof.
  intros (Hs & Hr & Hg). unfold addTrack. rtc_cases.
  apply update_nego_wf. split_and!; try done.
  unfold sent_ids, sent_tracks in *; simpl.
  rewrite omap_app, fmap_app. simpl.
  apply NoDup_app; split_and!; [done| |by apply NoDup_singleton].
  set_solver.
Qed.

Lemma take_event_wf p ev p' : take_event p = Some (ev, p') → wf p → wf p'.
Proof.
  unfold take_event. intros Ht Hp.
  destruct (pc_events p) as [|[] evs]; simplify_eq; repeat case_decide; simplify_eq;
    (eapply wf_same_core; [|exact Hp]); split_and!; reflexivity.
Qed.

#[export] Hint Resolve createOffer_wf createAnswer_wf setLocalDescription_wf
  setRemoteDescription_wf addTrack_wf : rtc.

Lemma new_pc_wf cfg s : wf (new_pc cfg s).
Proof. split_and!; try constructor; done. Qed.

(** ** The operations, branch by branch *)

Lemma createOffer_ok p :
  p.(pc_signaling) = Stable ∨ p.(pc_signaling) = HaveLocalOffer →
  createOffer p = (Ok (describe SdpOffer p),
                   with_created (Some (describe SdpOffer p)) p.(pc_last_answer) p).
Proof. intros H. unfold createOffer. by rewrite decide_True. Qed.

Lemma createOffer_err p :
  p.(pc_signaling) = HaveRemoteOffer ∨ p.(pc_signaling) = Closed →
  createOffer p = (Thrown InvalidStateError, p).
Proof. intros H. unfold createOffer. rewrite decide_False; [done|]. destruct H as [-> | ->]; naive_solver. Qed.

Lemma createAnswer_ok p :
  p.(pc_signaling) = HaveRemoteOffer →
  createAnswer p = (Ok (describe SdpAnswer p),
                    with_created p.(pc_last_offer) (Some (describe SdpAnswer p)) p).
Proof. intros H. unfold createAnswer. by rewrite decide_True. Qed.

(** Setting the offer just created moves to [have-local-offer]. *)
Lemma setLocal_offer_ok d p :
  d.(sdp_kind) = SdpOffer → p.(pc_last_offer) = Some d →
  p.(pc_signaling) = Stable ∨ p.(pc_signaling) = HaveLocalOffer →
  setLocalDescription d p
  = (Ok tt, with_descs HaveLocalOffer (Some d) None p.(pc_current_local) p.(pc_current_remote) p).
Proof.
  intros Hk Hl Hs. unfold setLocalDescription. rewrite Hk, Hl.
  rewrite decide_False by (destruct Hs as [-> | ->]; done).
  rewrite decide_False by naive_solver.
  rewrite decide_False by (destruct Hs as [-> | ->]; done). done.
Qed.

(** Setting the answer just created completes the exchange. *)
Lemma setLocal_answer_ok d p :
  d.(sdp_kind) = SdpAnswer → p.(pc_last_answer) = Some d →
  p.(pc_signaling) = HaveRemoteOffer →
  setLocalDescription d p
  = (Ok tt, update_nego (with_descs Stable None None (Some d) p.(pc_pending_remote) p)).
Proof.
  intros Hk Hl Hs. unfold setLocalDescription. rewrite Hk, Hl, Hs.
  rewrite decide_False by done. rewrite decide_False by naive_solver.
  rewrite decide_False by naive_solver. done.
Qed.

(** A remote offer is accepted in every open state (from
    [have-local-offer] through the implicit rollback of the local offer). *)
Lemma setRemote_offer_ok d p :
  d.(sdp_kind) = SdpOffer → p.(pc_signaling) ≠ Closed →
  setRemoteDescription d p
  = (Ok tt, receive_tracks d (with_descs HaveRemoteOffer None (Some d)
                               p.(pc_current_local) p.(pc_current_remote) p)).
Proof. intros Hk Hs. unfold setRemoteDescription. rewrite Hk. by destruct (pc_signaling p). Qed.

(** A remote answer is accepted in [have-local-offer], whatever offer it
    answers. *)
Lemma setRemote_answer_ok d p :
  d.(sdp_kind) = SdpAnswer → p.(pc_signaling) = HaveLocalOffer →
  setRemoteDescription d p
  = (Ok tt, update_nego (receive_tracks d
              (with_descs Stable None None p.(pc_pending_local) (Some d) p))).
Proof. intros Hk Hs. unfold setRemoteDescription. by rewrite Hk, Hs. Qed.

Lemma setRemote_answer_err d p :
  d.(sdp_kind) = SdpAnswer → p.(pc_signaling) ≠ HaveLocalOffer →
  setRemoteDescription d p = (Thrown InvalidStateError, p).
Proof. intros Hk Hs. unfold setRemoteDescription. rewrite Hk. by destruct (pc_signaling p). Qed.

Lemma addTrack_ok t ss p :
  p.(pc_signaling) ≠ Closed → track_id t ∉ sent_ids p →
  addTrack t ss p
  = (Ok tt, update_nego (with_media (p.(pc_senders) ++ [mkSender (Some t) ss]) p.(pc_receivers) p)).
Proof. intros Hs Hi. unfold addTrack. by rewrite !decide_False. Qed.

Lemma addTrack_dup t ss p :
  p.(pc_signaling) ≠ Closed → track_id t ∈ sent_ids p →
  addTrack t ss p = (Thrown InvalidAccessError, p).
Proof. intros Hs Hi. unfold addTrack. rewrite decide_False by done. by rewrite decide_True. Qed.

Lemma addTrack_closed t ss p :
  p.(pc_signaling) = Closed → addTrack t ss p = (Thrown InvalidStateError, p).
Proof. intros Hs. unfold addTrack. by rewrite decide_True. Qed.

Lemma sent_ids_app ss s p :
  sent_ids (with_media (p.(pc_senders) ++ [s]) ss p)
  = sent_ids p ++ (track_id <$> option_list s.(snd_track)).
Proof. unfold sent_ids, sent_tracks. simpl. rewrite omap_app, fmap_app. by destruct s as [[]]. Qed.

Lemma addTrack_signaling t ss p : pc_signaling (addTrack t ss p).2 = pc_signaling p.
Proof. unfold addTrack. rtc_cases. by destruct (update_nego_core (with_media (pc_senders p ++ [mkSender (Some t) ss]) (pc_receivers p) p)) as [-> _]. Qed.

Lemma addTrack_senders t ss p :
  pc_senders (addTrack t ss p).2
  = if decide (p.(pc_signaling) ≠ Closed ∧ track_id t ∉ sent_ids p)
    then pc_senders p ++ [mkSender (Some t) ss] else pc_senders p.
Proof.
  unfold addTrack. rtc_cases; try naive_solver.
  by destruct (update_nego_core (with_media (pc_senders p ++ [mkSender (Some t) ss]) (pc_receivers p) p))
    as (_ & _ & _ & _ & _ & -> & _).
Qed.

(** The media sections of a generated description are the sent tracks. *)
Lemma local_media_ids p : line_id <$> local_media p = sent_ids p.
Proof.
  unfold local_media, sent_ids, sent_tracks.
  induction (pc_senders p) as [|[[t|] ss] l IH]; simpl in *; [done| |done]. by f_equal.
Qed.

Lemma describe_ids k p : line_id <$> (describe k p).(sdp_media) = sent_ids p.
Proof. apply local_media_ids. Qed.

(** Once the current local description lists every sent track, there is
    nothing to negotiate. *)
Lemma check_needed_described p d :
  pc_current_local p = Some d → line_id <$> sdp_media d = sent_ids p → check_needed p = false.
Proof.
  intros Hc Hd. unfold check_needed. apply bool_decide_eq_false_2.
  rewrite Hc; simpl; rewrite Hd. intros (i & Hi & Hn)%Exists_exists. done.
Qed.

Lemma update_nego_settled p :
  pc_ops p = 0 → pc_signaling p = Stable → check_needed p = false →
  pc_nego_needed (update_nego p) = false.
Proof.
  intros Ho Hs Hc. unfold update_nego. rewrite decide_False by lia.
  rewrite decide_True, Hc by done. done.
Qed.

#[export] Hint Resolve local_media_ids describe_ids : rtc.

(** After a remote description is applied, every track it lists is received. *)
Lemma receive_tracks_covers d p i :
  i ∈ line_id <$> sdp_media d → i ∈ received_ids (receive_tracks d p).
Proof.
  rewrite receive_tracks_received. intros (ml & -> & Hml)%list_elem_of_fmap.
  apply elem_of_app. by apply (fresh_by_covers line_id (received_ids p) (sdp_media d) ml).
Qed.

Lemma receive_tracks_sent d p : sent_ids (receive_tracks d p) = sent_ids p.
Proof. done. Qed.

Lemma sent_ids_update_nego p : sent_ids (update_nego p) = sent_ids p.
Proof. unfold sent_ids, sent_tracks. by destruct (update_nego_core p) as (_ & _ & _ & _ & _ & -> & _). Qed.

Lemma received_ids_update_nego p : received_ids (update_nego p) = received_ids p.
Proof. unfold received_ids. by destruct (update_nego_core p) as (_ & _ & _ & _ & _ & _ & ->). Qed.

(** [addTrack] of a track already sent changes nothing (it throws). *)
Lemma addTrack_present t ss p : track_id t ∈ sent_ids p → (addTrack t ss p).2 = p.
Proof. intros Hi. unfold addTrack. by rtc_cases. Qed.

Lemma addTrack_sent_mono t ss p i : i ∈ sent_ids p → i ∈ sent_ids (addTrack t ss p).2.
Proof.
  unfold sent_ids at 2, sent_tracks. rewrite addTrack_senders. case_decide; [|done].
  rewrite omap_app, fmap_app. set_solver.
Qed.

(** ** The operations chain, when nothing else is chained *)

(** No operation is chained on the connection. *)
Definition quiet (p : pc) : Prop := p.(pc_ops) = 0 ∧ p.(pc_nn_on_empty) = false.

Lemma update_nego_quiet p : quiet p → quiet (update_nego p).
Proof. intros [Ho Hb]. unfold update_nego. rewrite decide_False by lia. by rtc_cases. Qed.

Lemma update_nego_ops p : pc_ops (update_nego p) = pc_ops p.
Proof. unfold update_nego. by rtc_cases. Qed.

Lemma addTrack_quiet t ss p : quiet p → quiet (addTrack t ss p).2.
Proof.
  intros Hq. unfold addTrack. case_decide; [done|]. case_decide; [done|].
  apply update_nego_quiet. apply Hq.
Qed.

(** Begin and end of a chained operation on a connection with nothing
    else chained: the deferred negotiation-needed update runs when the
    operation leaves the chain, so the whole is the operation itself. *)
Lemma begin_op_wf p : wf p → wf (begin_op p).
Proof. apply wf_same_core, with_chain_core. Qed.

Lemma end_op_core p : same_core p (end_op p).
Proof.
  unfold end_op. case_decide; [|apply with_chain_core].
  destruct (update_nego_core (with_chain 0 false p)) as (? & ? & ? & ? & ? & ? & ?).
  by split_and!.
Qed.

Lemma chained_wf {X} (op : pc → res X * pc) p :
  (∀ q, wf q → wf (op q).2) → wf p → wf (chained op p).2.
Proof.
  intros Hop Hp. unfold chained. specialize (Hop p Hp). destruct (op p) as [r q]; simpl.
  by eapply wf_same_core; [apply end_op_core|].
Qed.

#[export] Hint Resolve begin_op_wf chained_wf : rtc.

Ltac chain_exact p :=
  intros [Ho Hb];
  unfold chained, begin_op, end_op, update_nego, check_needed, sent_ids, sent_tracks,
    describe, local_media, with_chain, with_descs, with_created, with_flag, with_media,
    receive_tracks; cbn;
  rewrite ?Ho, ?Hb; cbn;
  repeat (first [case_decide | case_bool_decide | case_match]; cbn in *; simplify_eq);
  cbn in *; destruct_and?; simplify_eq; try done; try lia; destruct p; cbn in *; subst; done.

Lemma chained_createOffer p : quiet p → chained createOffer (begin_op p) = createOffer p.
Proof. unfold createOffer. chain_exact p. Qed.

Lemma chained_createAnswer p : quiet p → chained createAnswer (begin_op p) = createAnswer p.
Proof. unfold createAnswer. chain_exact p. Qed.

Lemma chained_setLocalDescription d p :
  quiet p → chained (setLocalDescription d) (begin_op p) = setLocalDescription d p.
Proof. unfold setLocalDescription. chain_exact p. Qed.

Lemma chained_setRemoteDescription d p :
  quiet p → chained (setRemoteDescription d) (begin_op p) = setRemoteDescription d p.
Proof. unfold setRemoteDescription. chain_exact p. Qed.

(** ** The chain's own invariant *)

(** A deferred negotiation-needed update is only pending while the chain
    is not empty. *)
Definition chain_wf (p : pc) : Prop := pc_ops p = 0 → pc_nn_on_empty p = false.

Lemma update_nego_chain_wf p : chain_wf p → chain_wf (update_nego p).
Proof.
  unfold update_nego, chain_wf. intros Hp. case_decide as Ho; [cbn; lia|].
  repeat case_decide; repeat case_match; cbn; auto.
Qed.

Lemma begin_op_chain_wf p : chain_wf (begin_op p).
Proof. unfold chain_wf. cbn. lia. Qed.

Lemma end_op_chain_wf p : chain_wf (end_op p).
Proof.
  unfold end_op. case_decide as H.
  - apply update_nego_chain_wf. done.
  - unfold chain_wf; cbn. intros Ho. destruct (pc_nn_on_empty p); naive_solver.
Qed.

Lemma end_op_ops p : pc_ops (end_op p) = pred (pc_ops p).
Proof. unfold end_op. case_decide as H; [rewrite update_nego_ops; cbn; lia|done]. Qed.

Lemma chained_ops {X} (op : pc → res X * pc) p :
  pc_ops (chained op p).2 = pred (pc_ops (op p).2).
Proof. unfold chained. destruct (op p). apply end_op_ops. Qed.

Lemma chained_chain_wf {X} (op : pc → res X * pc) p : chain_wf (chained op p).2.
Proof. unfold chained. destruct (op p). apply end_op_chain_wf. Qed.

Lemma chained_result {X} (op : pc → res X * pc) p : (chained op p).1 = (op p).1.
Proof. unfold chained. by destruct (op p). Qed.

Lemma addTrack_ops t ss p : pc_ops (addTrack t ss p).2 = pc_ops p.
Proof. unfold addTrack. rtc_cases. by rewrite update_nego_ops. Qed.

Lemma addTrack_chain_wf t ss p : chain_wf p → chain_wf (addTrack t ss p).2.
Proof. intros Hp. unfold addTrack. rtc_cases. by apply update_nego_chain_wf. Qed.

(** The four description operations do not touch the chain themselves. *)
Lemma createOffer_ops p : pc_ops (createOffer p).2 = pc_ops p.
Proof. unfold createOffer. by rtc_cases. Qed.

Lemma createAnswer_ops p : pc_ops (createAnswer p).2 = pc_ops p.
Proof. unfold createAnswer. by rtc_cases. Qed.

Lemma setLocalDescription_ops d p : pc_ops (setLocalDescription d p).2 = pc_ops p.
Proof. unfold setLocalDescription. rtc_cases; by rewrite update_nego_ops. Qed.

Lemma setRemoteDescription_ops d p : pc_ops (setRemoteDescription d p).2 = pc_ops p.
Proof. unfold setRemoteDescription. repeat case_match; cbn; rewrite ?update_nego_ops; done. Qed.

Lemma take_event_chain p ev p' :
  take_event p = Some (ev, p') → pc_ops p' = pc_ops p ∧ (chain_wf p → chain_wf p').
Proof.
  unfold take_event, chain_wf. intros Ht.
  destruct (pc_events p) as [|[] evs]; simplify_eq; repeat case_decide; simplify_eq; cbn;
    split; auto; lia.
Qed.

(** ** A chained operation with other operations behind it *)

(** The operation leaves the chain, which stays non-empty: no deferred
    update runs. *)
Lemma chained_busy {X} (op : pc → res X * pc) p :
  2 ≤ pc_ops (op p).2 →
  chained op p = ((op p).1, with_chain (pred (pc_ops (op p).2)) (pc_nn_on_empty (op p).2) (op p).2).
Proof. intros H. unfold chained, end_op. destruct (op p) as [r q]. cbn in *. rewrite decide_False by lia. done. Qed.

(** The last operation of the chain, ending outside [stable]: the
    deferred update, if any, finds nothing to do. *)
Lemma chained_last {X} (op : pc → res X * pc) p :
  pc_ops (op p).2 = 1 → pc_signaling (op p).2 ≠ Stable →
  chained op p = ((op p).1, with_chain 0 false (op p).2).
Proof.
  intros H Hs. unfold chained, end_op. destruct (op p) as [r q]. cbn in *. rewrite H.
  case_decide as Hc; [|destruct (pc_nn_on_empty q); naive_solver].
  unfold update_nego; cbn. rewrite decide_False by lia. by rewrite decide_False.
Qed.

Lemma chained_createOffer_busy p :
  pc_signaling p = Stable ∨ pc_signaling p = HaveLocalOffer → 2 ≤ pc_ops p →
  chained createOffer p
  = (Ok (describe SdpOffer p), with_chain (pred (pc_ops p)) (pc_nn_on_empty p)
       (with_created (Some (describe SdpOffer p)) (pc_last_answer p) p)).
Proof. intros Hs Ho. rewrite chained_busy; rewrite createOffer_ok; done. Qed.

(** [setLocalDescription] of an offer that is not the last one created. *)
Lemma setLocal_offer_stale d p :
  d.(sdp_kind) = SdpOffer → p.(pc_signaling) ≠ Closed → p.(pc_last_offer) ≠ Some d →
  setLocalDescription d p = (Thrown InvalidModificationError, p).
Proof. intros Hk Hc Hl. unfold setLocalDescription. rewrite decide_False, Hk, decide_True by done. done. Qed.

End Rtc.
