(* ===== verification/Peer.v ===== *)
(** * Peer: the [PeerService] singleton of [src/client/src/service/peer.js].

    [PeerService] owns one [RTCPeerConnection] ([this.peer]) configured
    with two public STUN servers, and wraps the engine calls the page
    needs: [getOffer], [getAnswer], [setLocalDescription],
    [setRemoteDescription] ([async] methods, modelled in the [async] monad
    over the service's state) and [addLocalTracks] (synchronous).
    The module exports one instance ([export default new PeerService()]),
    shared by every call of the page and never closed or replaced.

    Every method starts with [if (this.peer)] and silently returns
    [undefined] when the connection is missing; [this.peer.m(...)] on a
    missing connection would throw a [TypeError] ([call_peer]).
    A description received from the wire is a plain object, converted by
    [new RTCSessionDescription(desc)], which throws a [TypeError] on
    [undefined] ([to_description]).

    [await this.peer.m(...)] for a description operation [m] is
    [chain_op m]: calling [m] chains the operation on the connection
    synchronously ([Rtc.begin_op]); the operation runs, and leaves the
    chain, when the method resumes ([Rtc.chained]). *)

From stdpp Require Import base list gmap strings.
From S2P Require Import Prelude Async Rtc.
Import Rtc.

Module Peer.

(** [this.peer]: the connection, once the constructor has run. *)
Record PeerService := mkPeerService { peer : option pc }.

Definition ice_servers : list string :=
  ["stun:stun.l.google.com:19302"; "stun:global.stun.twilio.com:3478"].

(** [constructor()]: create the connection unless one exists. [session] is
    the [o=] session id the browser draws for it. *)
Definition constructor (session : nat) (self : PeerService) : PeerService :=
  match self.(peer) with
  | None => mkPeerService (Some (new_pc ice_servers session))
  | Some _ => self
  end.

(** [export default new PeerService()]. *)
Definition instance (session : nat) : PeerService :=
  constructor session (mkPeerService None).

(** [this.peer.m(...)]. *)
Definition call_peer {X} (f : pc -> res X * pc) (s : PeerService) : res X * PeerService :=
  match s.(peer) with
  | Some p => let (r, p') := f p in (r, mkPeerService (Some p'))
  | None => (Thrown TypeError, s)
  end.

(** [await this.peer.m(...)] for [createOffer], [createAnswer],
    [setLocalDescription] and [setRemoteDescription]. *)
Definition chain_op {X} (op : pc -> res X * pc) : async PeerService X :=
  sync (call_peer (fun p => (Ok tt, begin_op p)));; await (call_peer (chained op)).

(** [(desc instanceof RTCSessionDescription) ? desc : new RTCSessionDescription(desc)]
    on a value received from the wire ([None] is [undefined]). *)
Definition to_description (desc : option sdp) : res sdp :=
  match desc with Some d => Ok d | None => Thrown TypeError end.

(** [addLocalTracks(stream)]: the loop over [stream.getTracks()], against
    the ids [existingTrackIds] read once before the loop; a failing
    [addTrack] is caught and only logged. *)
Fixpoint add_tracks_loop (existing : list uid) (stream : media_stream)
    (ts : list track) (p : pc) : pc :=
  match ts with
  | [] => p
  | t :: ts' =>
      if bool_decide (track_id t ∈ existing) then add_tracks_loop existing stream ts' p
      else add_tracks_loop existing stream ts' (addTrack t [stream.(ms_id)] p).2
  end.

Definition addLocalTracks (stream : option media_stream) (s : PeerService) : PeerService :=
  match s.(peer), stream with
  | Some p, Some st =>
      mkPeerService (Some (add_tracks_loop (sent_ids p) st st.(ms_tracks) p))
  | _, _ => s
  end.

(** [async getAnswer(offer)]. *)
Definition getAnswer (offer : option sdp) : async PeerService (option sdp) :=
  s ← gets id;
  match s.(peer) with
  | None => mret None
  | Some _ =>
      remoteDesc ← sync (fun w => (to_description offer, w));
      chain_op (setRemoteDescription remoteDesc);;
      ans ← chain_op createAnswer;
      chain_op (Rtc.setLocalDescription ans);;
      mret (Some ans)
  end.

(** [async setRemoteDescription(desc)]. *)
Definition setRemoteDescription (desc : option sdp) : async PeerService unit :=
  s ← gets id;
  match s.(peer) with
  | None => mret tt
  | Some _ =>
      remoteDesc ← sync (fun w => (to_description desc, w));
      chain_op (Rtc.setRemoteDescription remoteDesc)
  end.

(** [async setLocalDescription(desc)]. *)
Definition setLocalDescription (desc : option sdp) : async PeerService unit :=
  s ← gets id;
  match s.(peer) with
  | None => mret tt
  | Some _ =>
      localDesc ← sync (fun w => (to_description desc, w));
      chain_op (Rtc.setLocalDescription localDesc)
  end.

(** [async getOffer()]. *)
Definition getOffer : async PeerService (option sdp) :=
  s ← gets id;
  match s.(peer) with
  | None => mret None
  | Some _ =>
      offer ← chain_op createOffer;
      chain_op (Rtc.setLocalDescription offer);;
      mret (Some offer)
  end.

(** ** The track loop *)

Definition track_sender (st : media_stream) (t : track) : sender :=
  mkSender (Some t) [st.(ms_id)].

Lemma add_tracks_loop_signaling e st ts p :
  pc_signaling (add_tracks_loop e st ts p) = pc_signaling p.
Proof.
  revert p; induction ts as [|t ts IH]; intros p; simpl; [done|].
  case_bool_decide; rewrite IH; [done|]. apply addTrack_signaling.
Qed.

Lemma add_tracks_loop_wf e st ts p : wf p → wf (add_tracks_loop e st ts p).
Proof.
  revert p; induction ts as [|t ts IH]; intros p Hp; simpl; [done|].
  case_bool_decide; apply IH; [done|]. by apply addTrack_wf.
Qed.

Lemma add_tracks_loop_closed e st ts p :
  pc_signaling p = Closed → add_tracks_loop e st ts p = p.
Proof.
  revert p; induction ts as [|t ts IH]; intros p Hp; simpl; [done|].
  case_bool_decide; [by apply IH|]. rewrite addTrack_closed by done. by apply IH.
Qed.

Lemma add_tracks_loop_skip e st ts p :
  Forall (λ t, track_id t ∈ e) ts → add_tracks_loop e st ts p = p.
Proof.
  revert p; induction ts as [|t ts IH]; intros p Hts; simpl; [done|].
  apply Forall_cons in Hts as [Ht Hts]. rewrite bool_decide_true by done. by apply IH.
Qed.

(** With the ids read before the loop among the sent ones, the loop adds a
    sender for exactly the tracks whose id is not yet sent, in order, each
    once: the tracks skipped by the pre-check and the ones the engine
    refuses are the same. *)
Lemma add_tracks_loop_senders e st ts p :
  pc_signaling p ≠ Closed → (∀ i, i ∈ e → i ∈ sent_ids p) →
  pc_senders (add_tracks_loop e st ts p)
  = pc_senders p ++ (track_sender st <$> fresh_by track_id (sent_ids p) ts).
Proof.
  revert p; induction ts as [|t ts IH]; intros p Hs He; simpl; [by rewrite app_nil_r|].
  case_bool_decide as Hin.
  - rewrite bool_decide_true by auto. by apply IH.
  - destruct (decide (track_id t ∈ sent_ids p)) as [Hsent|Hnew].
    + rewrite bool_decide_true by done. rewrite addTrack_dup by done. by apply IH.
    + rewrite bool_decide_false by done.
      pose proof (addTrack_senders t [ms_id st] p) as Hsnd.
      rewrite decide_True in Hsnd by done.
      assert (sent_ids (addTrack t [ms_id st] p).2 = sent_ids p ++ [track_id t]) as Hids.
      { unfold sent_ids, sent_tracks. rewrite Hsnd, omap_app, fmap_app. done. }
      rewrite IH; [|by rewrite addTrack_signaling|].
      * rewrite Hsnd, Hids, <- app_assoc. simpl. do 3 f_equal.
        apply fresh_by_mono. set_solver.
      * intros i Hi. rewrite Hids. set_solver.
Qed.

(** Every track of [ts] is sent after the loop (or the connection is closed). *)
Lemma add_tracks_loop_covers e st ts p :
  pc_signaling p ≠ Closed → (∀ i, i ∈ e → i ∈ sent_ids p) →
  Forall (λ t, track_id t ∈ sent_ids (add_tracks_loop e st ts p)) ts.
Proof.
  intros Hs He. apply Forall_forall. intros t Ht.
  unfold sent_ids at 1, sent_tracks at 1. rewrite add_tracks_loop_senders by done.
  rewrite omap_app, fmap_app. apply elem_of_app.
  destruct (fresh_by_covers track_id (sent_ids p) ts t Ht) as [H|H]; [by left|right].
  revert H. generalize (fresh_by track_id (sent_ids p) ts). clear.
  induction l as [|u l IH]; simpl; [set_solver|]. set_solver.
Qed.

(** ** [addLocalTracks] *)

(** C2: with a live connection, [addLocalTracks] appends one sender per
    track of the stream whose id is not already sent, in the stream's
    order; senders already present are left as they are. *)
Theorem addLocalTracks_senders (st : media_stream) (p : pc) :
  pc_signaling p ≠ Closed →
  ∃ p', addLocalTracks (Some st) (mkPeerService (Some p)) = mkPeerService (Some p')
      ∧ pc_senders p' = pc_senders p ++ (track_sender st <$> fresh_by track_id (sent_ids p) st.(ms_tracks)).
Proof.
  intros Hs. eexists; split; [done|]. by apply add_tracks_loop_senders.
Qed.

(** ** The [async] methods *)

(** Reduce a [run] of a method while keeping the engine operations folded,
    so that their branch lemmas apply. *)
Ltac peer_cbn :=
  cbn -[createOffer createAnswer Rtc.setLocalDescription Rtc.setRemoteDescription
        addTrack update_nego fresh_by chained begin_op].

(** The connection a chained operation runs on has nothing else chained. *)
Ltac quiet_tac :=
  repeat apply update_nego_quiet;
  match goal with
  | Hq : quiet ?p |- quiet _ =>
      let Ho := fresh in let Hb := fresh in pose proof Hq as [Ho Hb]; split; cbn; assumption
  end.

(** A chained operation on a connection with nothing else chained is the
    operation itself. *)
Ltac chain_rw :=
  repeat (rewrite ?chained_createOffer, ?chained_createAnswer, ?chained_setLocalDescription,
            ?chained_setRemoteDescription by quiet_tac).

Ltac peer_run := peer_cbn; chain_rw; peer_cbn.

(** Record what [update_nego] keeps of the connection it is applied to. *)
Ltac update_nego_facts :=
  match goal with
  | |- context [update_nego ?q] =>
      destruct (update_nego_core q) as (Hsig & Hpl & Hpr & Hcl & Hcr & Hsnd & Hrcv); simpl in *
  end.

(** The outcome of [getOffer] from [stable] or [have-local-offer]. *)
Lemma getOffer_spec (p : pc) :
  quiet p → pc_signaling p = Stable ∨ pc_signaling p = HaveLocalOffer →
  ∃ o p', run getOffer (mkPeerService (Some p)) = (Ok (Some o), mkPeerService (Some p'))
    ∧ sdp_kind o = SdpOffer ∧ line_id <$> sdp_media o = sent_ids p
    ∧ pc_signaling p' = HaveLocalOffer ∧ pc_pending_local p' = Some o
    ∧ pc_senders p' = pc_senders p ∧ pc_current_local p' = pc_current_local p
    ∧ quiet p'.
Proof.
  intros Hq Hs. peer_run. rewrite createOffer_ok by done. peer_run.
  rewrite setLocal_offer_ok; [|done|done|done]. peer_run.
  eexists _, _; split_and!; try done; try quiet_tac. apply describe_ids.
Qed.

(** C3: on a connection with no operation chained, from [stable] or
    [have-local-offer], [getOffer] returns an offer that lists every sent
    track, and leaves the connection in [have-local-offer] with that offer
    pending and its two operations off the chain. *)
Theorem getOffer_ok (p : pc) :
  quiet p → pc_signaling p = Stable ∨ pc_signaling p = HaveLocalOffer →
  ∃ o p', run getOffer (mkPeerService (Some p)) = (Ok (Some o), mkPeerService (Some p'))
    ∧ sdp_kind o = SdpOffer ∧ line_id <$> sdp_media o = sent_ids p
    ∧ pc_signaling p' = HaveLocalOffer ∧ pc_pending_local p' = Some o
    ∧ pc_senders p' = pc_senders p ∧ pc_current_local p' = pc_current_local p
    ∧ quiet p'.
Proof. apply getOffer_spec. Qed.

(** C4: on a connection with no operation chained, in
    [have-remote-offer] or [closed], [getOffer] rejects with
    [InvalidStateError] and changes nothing. *)
Theorem getOffer_err (p : pc) :
  quiet p → pc_signaling p = HaveRemoteOffer ∨ pc_signaling p = Closed →
  run getOffer (mkPeerService (Some p)) = (Thrown InvalidStateError, mkPeerService (Some p)).
Proof. intros Hq Hs. peer_run. by rewrite createOffer_err. Qed.

(** The outcome of [getAnswer] of an offer on an open connection. *)
Lemma getAnswer_spec (p : pc) (d : sdp) :
  quiet p → sdp_kind d = SdpOffer → pc_signaling p ≠ Closed →
  ∃ a p', run (getAnswer (Some d)) (mkPeerService (Some p)) = (Ok (Some a), mkPeerService (Some p'))
    ∧ sdp_kind a = SdpAnswer ∧ line_id <$> sdp_media a = sent_ids p
    ∧ pc_signaling p' = Stable ∧ pc_current_remote p' = Some d ∧ pc_current_local p' = Some a
    ∧ received_ids p' = received_ids p ++ (line_id <$> fresh_by line_id (received_ids p) (sdp_media d))
    ∧ pc_nego_needed p' = false
    ∧ quiet p'.
Proof.
  intros Hq Hk Hs. peer_run. rewrite setRemote_offer_ok by done. peer_run.
  rewrite createAnswer_ok by done. peer_run.
  rewrite setLocal_answer_ok; [|done|done|done]. peer_run.
  update_nego_facts.
  eexists _, _; split_and!; try done.
  - by rewrite describe_ids.
  - unfold received_ids at 1. rewrite Hrcv. cbn. by rewrite fmap_app.
  - apply update_nego_settled; [cbn; by destruct Hq|done|]. eapply check_needed_described; [done|].
    by rewrite describe_ids.
  - quiet_tac.
Qed.

(** C5: on an open connection with no operation chained, [getAnswer] of
    a received offer applies it
    (rolling back a local offer of its own), answers with every sent track,
    completes the exchange in [stable] with both descriptions current,
    receives the offer's new tracks, and leaves nothing to negotiate. *)
Theorem getAnswer_ok (p : pc) (d : sdp) :
  quiet p → sdp_kind d = SdpOffer → pc_signaling p ≠ Closed →
  ∃ a p', run (getAnswer (Some d)) (mkPeerService (Some p)) = (Ok (Some a), mkPeerService (Some p'))
    ∧ sdp_kind a = SdpAnswer ∧ line_id <$> sdp_media a = sent_ids p
    ∧ pc_signaling p' = Stable ∧ pc_current_remote p' = Some d ∧ pc_current_local p' = Some a
    ∧ received_ids p' = received_ids p ++ (line_id <$> fresh_by line_id (received_ids p) (sdp_media d))
    ∧ pc_nego_needed p' = false
    ∧ quiet p'.
Proof. apply getAnswer_spec. Qed.

(** Every track a remote description lists is received after it. *)
Lemma fresh_received_covers (r : list uid) (ms : list media_line) i :
  i ∈ line_id <$> ms → i ∈ r ++ (line_id <$> fresh_by line_id r ms).
Proof.
  intros (ml & -> & Hml)%list_elem_of_fmap. apply elem_of_app.
  by apply (fresh_by_covers line_id r ms ml).
Qed.

(** The outcome of [setRemoteDescription] of an answer while the offer
    describing every sent track is pending. *)
Lemma setRemote_answer_spec (p : pc) (o a : sdp) :
  quiet p → pc_signaling p = HaveLocalOffer → pc_pending_local p = Some o → sdp_kind a = SdpAnswer →
  line_id <$> sdp_media o = sent_ids p →
  ∃ p', run (setRemoteDescription (Some a)) (mkPeerService (Some p)) = (Ok tt, mkPeerService (Some p'))
    ∧ pc_signaling p' = Stable ∧ pc_current_local p' = Some o ∧ pc_current_remote p' = Some a
    ∧ (∀ i, i ∈ line_id <$> sdp_media a → i ∈ received_ids p')
    ∧ pc_nego_needed p' = false ∧ quiet p'.
Proof.
  intros Hq Hs Hpo Hk Hmo. peer_run. rewrite setRemote_answer_ok by done. peer_run.
  update_nego_facts. eexists; split_and!; try done; try by rewrite Hcl, Hpo.
  - intros i Hi. rewrite received_ids_update_nego. by apply receive_tracks_covers.
  - apply update_nego_settled; [cbn; by destruct Hq|done|].
    eapply check_needed_described; [simpl; by rewrite Hpo|]. by rewrite Hmo, receive_tracks_sent.
  - quiet_tac.
Qed.

(** An answer in [stable] is refused by the service's [setRemoteDescription]. *)
Lemma setRemote_answer_in_stable (p : pc) (d : sdp) :
  quiet p → sdp_kind d = SdpAnswer → pc_signaling p = Stable →
  run (setRemoteDescription (Some d)) (mkPeerService (Some p))
  = (Thrown InvalidStateError, mkPeerService (Some p)).
Proof. intros Hq Hk Hs. peer_run. rewrite setRemote_answer_err; [done|done|]. by rewrite Hs. Qed.

(** C6: on a connection with no operation chained, [setRemoteDescription]
    of an answer in [stable] (a second answer to an offer already answered)
    rejects with [InvalidStateError] and changes nothing. *)
Theorem setRemoteDescription_answer_stable (p : pc) (d : sdp) :
  quiet p → sdp_kind d = SdpAnswer → pc_signaling p = Stable →
  run (setRemoteDescription (Some d)) (mkPeerService (Some p))
  = (Thrown InvalidStateError, mkPeerService (Some p)).
Proof. apply setRemote_answer_in_stable. Qed.

(** C7: the service does not discard a stale answer. After two offers
    [o1] and [o2] (two calls of [getOffer]), any answer, in particular the
    answer to [o1], is applied against [o2]: the connection becomes
    [stable] with [o2] and that answer as current descriptions, where the
    spec requires the answer to a superseded offer to be discarded and
    [o2] to stay pending. *)
Theorem stale_answer_applied (p : pc) (o1 o2 a1 : sdp) (s1 s2 : PeerService) :
  quiet p → pc_signaling p = Stable →
  run getOffer (mkPeerService (Some p)) = (Ok (Some o1), s1) →
  run getOffer s1 = (Ok (Some o2), s2) →
  sdp_kind a1 = SdpAnswer →
  o1 ≠ o2 ∧
  ∃ p3, run (setRemoteDescription (Some a1)) s2 = (Ok tt, mkPeerService (Some p3))
    ∧ pc_signaling p3 = Stable ∧ pc_current_local p3 = Some o2 ∧ pc_current_remote p3 = Some a1.
Proof.
  intros Hq Hs H1 H2 Hk.
  revert H1. peer_run. rewrite createOffer_ok by auto. peer_run.
  rewrite setLocal_offer_ok; [|done|done|auto]. peer_run. intros [= <- <-].
  revert H2. peer_run. rewrite createOffer_ok by (simpl; auto). peer_run.
  rewrite setLocal_offer_ok; [|done|done|simpl; auto]. peer_run. intros [= <- <-].
  split; [intros [=]; lia|].
  peer_run. rewrite setRemote_answer_ok by done. peer_run.
  update_nego_facts.
  eexists; split_and!; try done.
Qed.

(** ** Invariant *)

Definition ps_wf (s : PeerService) : Prop :=
  match s.(peer) with Some p => wf p | None => True end.

Lemma call_peer_wf {X} (f : pc → res X * pc) :
  (∀ p, wf p → wf (f p).2) → ∀ s, ps_wf s → ps_wf (call_peer f s).2.
Proof.
  intros Hf [[p|]] Hs; unfold ps_wf, call_peer in *; simpl in *; [|done].
  specialize (Hf p Hs). by destruct (f p).
Qed.

#[export] Hint Resolve call_peer_wf : rtc.

Lemma chain_op_preserves {X} (op : pc → res X * pc) :
  (∀ p, wf p → wf (op p).2) → preserves ps_wf (chain_op op).
Proof.
  intros Hop. unfold chain_op. apply preserves_bind; [apply preserves_sync|intros _].
  - apply call_peer_wf. intros p. apply begin_op_wf.
  - apply preserves_await, call_peer_wf. intros p. by apply chained_wf.
Qed.

#[export] Hint Resolve chain_op_preserves : rtc.

Lemma getOffer_preserves : preserves ps_wf getOffer.
Proof. unfold getOffer. solve_preserves; eauto with rtc. Qed.

Lemma getAnswer_preserves d : preserves ps_wf (getAnswer d).
Proof. unfold getAnswer. solve_preserves; eauto with rtc. Qed.

Lemma setRemoteDescription_preserves d : preserves ps_wf (setRemoteDescription d).
Proof. unfold setRemoteDescription. solve_preserves; eauto with rtc. Qed.

Lemma setLocalDescription_preserves d : preserves ps_wf (setLocalDescription d).
Proof. unfold setLocalDescription. solve_preserves; eauto with rtc. Qed.

#[export] Hint Resolve getOffer_preserves getAnswer_preserves
  setRemoteDescription_preserves setLocalDescription_preserves : rtc.

(** C1: one offer/answer exchange between two services connects them both
    ways. From a caller in [stable] and a callee on an open connection, the
    caller's [getOffer], the callee's [getAnswer] of that offer and the
    caller's [setRemoteDescription] of the answer all succeed; both end in
    [stable], each receives every track the other sends, and neither has
    anything left to negotiate (both connections start and end with no
    operation chained). *)
Theorem offer_answer_exchange (p q : pc) :
  quiet p → quiet q → pc_signaling p = Stable → pc_signaling q ≠ Closed →
  ∃ o a p1 p' q',
    run getOffer (mkPeerService (Some p)) = (Ok (Some o), mkPeerService (Some p1))
    ∧ run (getAnswer (Some o)) (mkPeerService (Some q)) = (Ok (Some a), mkPeerService (Some q'))
    ∧ run (setRemoteDescription (Some a)) (mkPeerService (Some p1)) = (Ok tt, mkPeerService (Some p'))
    ∧ pc_signaling p' = Stable ∧ pc_signaling q' = Stable
    ∧ (∀ i, i ∈ sent_ids p → i ∈ received_ids q')
    ∧ (∀ i, i ∈ sent_ids q → i ∈ received_ids p')
    ∧ pc_nego_needed p' = false ∧ pc_nego_needed q' = false
    ∧ quiet p' ∧ quiet q'.
Proof.
  intros Hqp Hqq Hp Hq.
  destruct (getOffer_spec p Hqp) as (o & p1 & Ho & Hko & Hmo & Hs1 & Hpl1 & Hsnd1 & _ & Hq1);
    [by left|].
  destruct (getAnswer_spec q o Hqq Hko Hq) as (a & q' & Ha & Hka & Hma & Hsq & _ & _ & Hrq & Hnq & Hqq').
  assert (Hmo1 : line_id <$> sdp_media o = sent_ids p1)
    by (rewrite Hmo; unfold sent_ids, sent_tracks; by rewrite Hsnd1).
  destruct (setRemote_answer_spec p1 o a Hq1 Hs1 Hpl1 Hka Hmo1) as (p' & Hp' & Hsp & _ & _ & Hrp & Hnp & Hqp').
  exists o, a, p1, p', q'. split_and!; try done.
  - intros i Hi. rewrite Hrq. apply fresh_received_covers. by rewrite Hmo.
  - intros i Hi. apply Hrp. by rewrite Hma.
Qed.

(** ** Witnesses: the theorems at a concrete caller and callee *)

(** A camera stream of endpoint [e]: one audio and one video track. *)
Definition demo_stream (e : nat) : media_stream :=
  mkStream (e, 0) [mkTrack (e, 1) Audio; mkTrack (e, 2) Video].

(** The service of endpoint [e] after [addLocalTracks] of its stream. *)
Definition demo_service (e : nat) : PeerService :=
  addLocalTracks (Some (demo_stream e)) (instance e).

Definition demo_pc (e : nat) : pc :=
  match (demo_service e).(peer) with Some p => p | None => new_pc ice_servers e end.

Definition demo_offer1 : sdp := describe SdpOffer (demo_pc 1).
Definition demo_after1 : PeerService := (run getOffer (demo_service 1)).2.
Definition demo_offer2 : sdp :=
  describe SdpOffer (match demo_after1.(peer) with Some p => p | None => demo_pc 1 end).
Definition demo_after2 : PeerService := (run getOffer demo_after1).2.
Definition demo_answer1 : sdp := describe SdpAnswer (demo_pc 2).

(** The callee after receiving the caller's offer, in [have-remote-offer]. *)
Definition demo_answering : pc := (Rtc.setRemoteDescription demo_offer1 (demo_pc 2)).2.

Lemma offer_answer_exchange_witness :
  pc_signaling (demo_pc 1) = Stable ∧ pc_signaling (demo_pc 2) ≠ Closed ∧
  ∃ o a p1 p' q',
    run getOffer (mkPeerService (Some (demo_pc 1))) = (Ok (Some o), mkPeerService (Some p1))
    ∧ run (getAnswer (Some o)) (mkPeerService (Some (demo_pc 2))) = (Ok (Some a), mkPeerService (Some q'))
    ∧ run (setRemoteDescription (Some a)) (mkPeerService (Some p1)) = (Ok tt, mkPeerService (Some p'))
    ∧ pc_signaling p' = Stable ∧ pc_signaling q' = Stable.
Proof.
  assert (H1 : pc_signaling (demo_pc 1) = Stable) by reflexivity.
  assert (H2 : pc_signaling (demo_pc 2) ≠ Closed) by (vm_compute; discriminate).
  assert (Q1 : quiet (demo_pc 1)) by (split; vm_compute; reflexivity).
  assert (Q2 : quiet (demo_pc 2)) by (split; vm_compute; reflexivity).
  split_and!; [exact H1|exact H2|].
  destruct (offer_answer_exchange (demo_pc 1) (demo_pc 2) Q1 Q2 H1 H2)
    as (o & a & p1 & p' & q' & Ho & Ha & Hr & Hs1 & Hs2 & _).
  exists o, a, p1, p', q'. split_and!; assumption.
Defined.

Lemma addLocalTracks_senders_witness :
  pc_signaling (new_pc ice_servers 1) ≠ Closed ∧
  ∃ p', addLocalTracks (Some (demo_stream 1)) (mkPeerService (Some (new_pc ice_servers 1)))
        = mkPeerService (Some p') ∧ length (pc_senders p') = 2.
Proof.
  assert (H : pc_signaling (new_pc ice_servers 1) ≠ Closed) by discriminate.
  split; [exact H|].
  destruct (addLocalTracks_senders (demo_stream 1) (new_pc ice_servers 1) H) as (p' & Hp & Hs).
  exists p'. split; [exact Hp|]. rewrite Hs. reflexivity.
Defined.

Lemma getOffer_ok_witness :
  (pc_signaling (demo_pc 1) = Stable ∨ pc_signaling (demo_pc 1) = HaveLocalOffer) ∧
  ∃ o p', run getOffer (mkPeerService (Some (demo_pc 1))) = (Ok (Some o), mkPeerService (Some p'))
    ∧ pc_signaling p' = HaveLocalOffer.
Proof.
  assert (H : pc_signaling (demo_pc 1) = Stable ∨ pc_signaling (demo_pc 1) = HaveLocalOffer)
    by (left; reflexivity).
  assert (Q : quiet (demo_pc 1)) by (split; vm_compute; reflexivity).
  split; [exact H|].
  destruct (getOffer_ok (demo_pc 1) Q H) as (o & p' & Ho & _ & _ & Hs & _).
  exists o, p'. split; assumption.
Defined.

Lemma getOffer_err_witness :
  (pc_signaling demo_answering = HaveRemoteOffer ∨ pc_signaling demo_answering = Closed) ∧
  run getOffer (mkPeerService (Some demo_answering))
  = (Thrown InvalidStateError, mkPeerService (Some demo_answering)).
Proof.
  assert (H : pc_signaling demo_answering = HaveRemoteOffer ∨ pc_signaling demo_answering = Closed)
    by (left; vm_compute; reflexivity).
  assert (Q : quiet demo_answering) by (split; vm_compute; reflexivity).
  split; [exact H|]. exact (getOffer_err demo_answering Q H).
Defined.

Lemma getAnswer_ok_witness :
  sdp_kind demo_offer1 = SdpOffer ∧ pc_signaling (demo_pc 2) ≠ Closed ∧
  ∃ a p', run (getAnswer (Some demo_offer1)) (mkPeerService (Some (demo_pc 2)))
          = (Ok (Some a), mkPeerService (Some p')) ∧ pc_signaling p' = Stable.
Proof.
  assert (H1 : sdp_kind demo_offer1 = SdpOffer) by reflexivity.
  assert (H2 : pc_signaling (demo_pc 2) ≠ Closed) by (vm_compute; discriminate).
  assert (Q : quiet (demo_pc 2)) by (split; vm_compute; reflexivity).
  split_and!; [exact H1|exact H2|].
  destruct (getAnswer_ok (demo_pc 2) demo_offer1 Q H1 H2) as (a & p' & Ha & _ & _ & Hs & _).
  exists a, p'. split; assumption.
Defined.

Lemma setRemoteDescription_answer_stable_witness :
  sdp_kind demo_answer1 = SdpAnswer ∧ pc_signaling (demo_pc 1) = Stable ∧
  run (setRemoteDescription (Some demo_answer1)) (mkPeerService (Some (demo_pc 1)))
  = (Thrown InvalidStateError, mkPeerService (Some (demo_pc 1))).
Proof.
  assert (H1 : sdp_kind demo_answer1 = SdpAnswer) by reflexivity.
  assert (H2 : pc_signaling (demo_pc 1) = Stable) by reflexivity.
  assert (Q : quiet (demo_pc 1)) by (split; vm_compute; reflexivity).
  split_and!; [exact H1|exact H2|].
  exact (setRemoteDescription_answer_stable (demo_pc 1) demo_answer1 Q H1 H2).
Defined.

Lemma stale_answer_applied_witness :
  pc_signaling (demo_pc 1) = Stable
  ∧ run getOffer (mkPeerService (Some (demo_pc 1))) = (Ok (Some demo_offer1), demo_after1)
  ∧ run getOffer demo_after1 = (Ok (Some demo_offer2), demo_after2)
  ∧ sdp_kind demo_answer1 = SdpAnswer
  ∧ demo_offer1 ≠ demo_offer2.
Proof.
  assert (H1 : pc_signaling (demo_pc 1) = Stable) by reflexivity.
  assert (H2 : run getOffer (mkPeerService (Some (demo_pc 1))) = (Ok (Some demo_offer1), demo_after1))
    by (vm_compute; reflexivity).
  assert (H3 : run getOffer demo_after1 = (Ok (Some demo_offer2), demo_after2))
    by (vm_compute; reflexivity).
  assert (H4 : sdp_kind demo_answer1 = SdpAnswer) by reflexivity.
  assert (Q : quiet (demo_pc 1)) by (split; vm_compute; reflexivity).
  split_and!; [exact H1|exact H2|exact H3|exact H4|].
  exact (proj1 (stale_answer_applied (demo_pc 1) demo_offer1 demo_offer2 demo_answer1
                  demo_after1 demo_after2 Q H1 H2 H3 H4)).
Defined.

End Peer.
