(* ===== verification/Room.v ===== *)
(** * Room: the pages of [src/client/src/pages] ([Room.jsx], [Lobby.jsx]).

    The client's world ([client]) is what the page's code reads and writes:
    the [PeerService] singleton, the React state of the room page
    ([remoteSocketId], [mystream], [remoteStream]), the media the page
    captured (its streams and which tracks were stopped), the messages
    emitted on the socket (in order), the page shown, and the lobby
    form's state ([lobby_form], the two [useState]s of [Lobby.jsx]).

    Every handler of [Room.jsx] is an [async] body over this world, written
    as the source is: the service's methods are run through [zoom], the
    page's [setState] calls are [Sync] steps, and each [await] is an
    [Await] step. A handler reads the state its closure captured when it is
    invoked (React re-renders before the next event); the effect that stops
    the previous stream's tracks when [mystream] changes is applied with the
    state update ([setMystream]). The section on two clicks on Call runs
    two [handleCallUser] tasks interleaved as the browser runs them
    ([double_call]). *)

From stdpp Require Import base list gmap strings.
From S2P Require Import Prelude Async Rtc Peer.
Import Rtc Peer.

Module Room.

(** Socket ids are opaque; the relay issues them. *)
Abbreviation sid := nat.

(** Messages the client emits ([socket.emit]). *)
Inductive c2s :=
  | RoomJoin (email room : string)
  | UserCall (to : option sid) (offer : option sdp)
  | CallAccepted (to : option sid) (ans : option sdp)
  | NegoNeeded (to : option sid) (offer : option sdp)
  | NegoDone (to : option sid) (ans : option sdp).

(** Messages the client receives ([socket.on]). *)
Inductive s2c :=
  | RoomJoined (email room : string)
  | UserJoined (email : string) (id : sid)
  | IncomingCall (from : sid) (offer : option sdp)
  | CallAcceptedIn (from : sid) (ans : option sdp)
  | NegoNeededIn (from : sid) (offer : option sdp)
  | NegoFinal (from : sid) (ans : option sdp).

(** The remote stream state: the engine's stream object for the first
    stream of a [track] event (a live view of the tracks received with
    that stream id), or a stream the page composed itself. *)
Inductive remote_stream :=
  | EngineStream (id : uid)
  | Composite (ts : list track).

Inductive page := LobbyPage | RoomPage (room : string).

(** The lobby's form state ([useState("")] for [email] and [room]). *)
Record lobby_form := mkForm { lf_email : string; lf_room : string }.

Record client := mkClient {
  cl_id : sid;                           (** this endpoint; track ids are drawn under it *)
  cl_service : PeerService;              (** the [peer] module singleton *)
  cl_remoteSocketId : option sid;
  cl_mystream : option media_stream;
  cl_remoteStream : option remote_stream;
  cl_stopped : list uid;                 (** tracks stopped by [track.stop()] *)
  cl_outbox : list c2s;                  (** [socket.emit], oldest first *)
  cl_next : nat;                         (** counter for the ids of captured media *)
  cl_devices : bool;                     (** camera and microphone granted *)
  cl_page : page;
  cl_form : lobby_form }.                (** the lobby's inputs *)

(** ** Field updates *)

Definition set_service (s : PeerService) (c : client) : client :=
  mkClient c.(cl_id) s c.(cl_remoteSocketId) c.(cl_mystream) c.(cl_remoteStream)
    c.(cl_stopped) c.(cl_outbox) c.(cl_next) c.(cl_devices) c.(cl_page) c.(cl_form).

Definition setRemoteSocketId (r : option sid) (c : client) : client :=
  mkClient c.(cl_id) c.(cl_service) r c.(cl_mystream) c.(cl_remoteStream)
    c.(cl_stopped) c.(cl_outbox) c.(cl_next) c.(cl_devices) c.(cl_page) c.(cl_form).

Definition setRemoteStream (r : option remote_stream) (c : client) : client :=
  mkClient c.(cl_id) c.(cl_service) c.(cl_remoteSocketId) c.(cl_mystream) r
    c.(cl_stopped) c.(cl_outbox) c.(cl_next) c.(cl_devices) c.(cl_page) c.(cl_form).

Definition emit (m : c2s) (c : client) : client :=
  mkClient c.(cl_id) c.(cl_service) c.(cl_remoteSocketId) c.(cl_mystream) c.(cl_remoteStream)
    c.(cl_stopped) (c.(cl_outbox) ++ [m]) c.(cl_next) c.(cl_devices) c.(cl_page) c.(cl_form).

Definition navigate (pg : page) (c : client) : client :=
  mkClient c.(cl_id) c.(cl_service) c.(cl_remoteSocketId) c.(cl_mystream) c.(cl_remoteStream)
    c.(cl_stopped) c.(cl_outbox) c.(cl_next) c.(cl_devices) pg c.(cl_form).

(** [setMystream(s)] with the effect of lines 160-164: when [mystream]
    changes, the cleanup of the previous effect stops every track of the
    previous stream. *)
Definition setMystream (s : option media_stream) (c : client) : client :=
  let stopped :=
    match c.(cl_mystream) with
    | Some old => if decide (Some old = s) then [] else track_id <$> old.(ms_tracks)
    | None => []
    end in
  mkClient c.(cl_id) c.(cl_service) c.(cl_remoteSocketId) s c.(cl_remoteStream)
    (c.(cl_stopped) ++ stopped) c.(cl_outbox) c.(cl_next) c.(cl_devices) c.(cl_page) c.(cl_form).

(** ** Browser calls *)

(** [navigator.mediaDevices.getUserMedia({audio: true, video: true})]: a
    new stream with a new audio and a new video track, or a rejection when
    the devices are denied or missing. *)
Definition getUserMedia (c : client) : res media_stream * client :=
  if c.(cl_devices) then
    let n := c.(cl_next) in
    let st := mkStream (c.(cl_id), n) [mkTrack (c.(cl_id), S n) Audio; mkTrack (c.(cl_id), S (S n)) Video] in
    (Ok st, mkClient c.(cl_id) c.(cl_service) c.(cl_remoteSocketId) c.(cl_mystream)
              c.(cl_remoteStream) c.(cl_stopped) c.(cl_outbox) (3 + n) c.(cl_devices) c.(cl_page) c.(cl_form))
  else (Thrown NotAllowedError, c).

(** Run a method of the service against the client's world. *)
Definition svc {A} (m : async PeerService A) : async client A :=
  zoom cl_service set_service m.

(** [if (peer?.peer && stream) for (const track of stream.getTracks())
    try { peer.peer.addTrack(track, stream) } catch (_) {}]: the inline
    loop of [handleCallUser] and [handleIncomingCall], without the
    pre-check of [addLocalTracks]. *)
Fixpoint room_tracks_loop (st : media_stream) (ts : list track) (p : pc) : pc :=
  match ts with
  | [] => p
  | t :: ts' => room_tracks_loop st ts' (addTrack t [st.(ms_id)] p).2
  end.

Definition room_add_tracks (st : media_stream) (s : PeerService) : PeerService :=
  match s.(peer) with
  | Some p => mkPeerService (Some (room_tracks_loop st st.(ms_tracks) p))
  | None => s
  end.

(** ** Handlers of [Room.jsx] *)

(** [handleUserJoined({ email, id })]. *)
Definition handleUserJoined (email : string) (id : sid) : async client unit :=
  modify (setRemoteSocketId (Some id)).

(** [handleCallUser()], with the [remoteSocketId] of its closure. *)
Definition handleCallUser : async client unit :=
  remote ← gets cl_remoteSocketId;
  stream ← await getUserMedia;
  modify (setMystream (Some stream));;
  modify (fun c => set_service (room_add_tracks stream c.(cl_service)) c);;
  offer ← svc getOffer;
  modify (emit (UserCall remote offer)).

(** [handleIncomingCall({ from, offer })]. *)
Definition handleIncomingCall (from : sid) (offer : option sdp) : async client unit :=
  modify (setRemoteSocketId (Some from));;
  stream ← await getUserMedia;
  modify (setMystream (Some stream));;
  modify (fun c => set_service (room_add_tracks stream c.(cl_service)) c);;
  ans ← svc (getAnswer offer);
  modify (emit (CallAccepted (Some from) ans)).

(** [handleCallAccepted({ ans })]: errors are caught and logged. *)
Definition handleCallAccepted (ans : option sdp) : async client unit :=
  catch (svc (Peer.setRemoteDescription ans)) (fun _ => mret tt).

(** [handleNegotiationNeeded()], with the [remoteSocketId] of its closure. *)
Definition handleNegotiationNeeded : async client unit :=
  remote ← gets cl_remoteSocketId;
  offer ← svc getOffer;
  modify (emit (NegoNeeded remote offer)).

(** [handleNegotiationIncoming({ from, offer })]. *)
Definition handleNegotiationIncoming (from : sid) (offer : option sdp) : async client unit :=
  ans ← svc (getAnswer offer);
  modify (emit (NegoDone (Some from) ans)).

(** [handleNegotiationFinal({ ans })]: errors are caught and logged. *)
Definition handleNegotiationFinal (ans : option sdp) : async client unit :=
  catch (svc (Peer.setRemoteDescription ans)) (fun _ => mret tt).

(** [handleTrack(ev)]: the event's first stream, or the previous stream's
    tracks with the new one in a new stream. *)
Definition handleTrack (t : track) (streams : list uid) (c : client) : client :=
  match streams with
  | s0 :: _ => setRemoteStream (Some (EngineStream s0)) c
  | [] =>
      let prev :=
        match c.(cl_remoteStream) with
        | Some (Composite ts) => ts
        | Some (EngineStream s) =>
            match c.(cl_service).(peer) with
            | Some p => ml_track <$> filter (fun ml => s ∈ ml_streams ml) p.(pc_receivers)
            | None => []
            end
        | None => []
        end in
      setRemoteStream (Some (Composite (prev ++ [t]))) c
  end.

(** The listeners the room page registers ([socket.on] in lines 115-120,
    [peer.peer.addEventListener] in lines 105 and 110). *)
Definition room_on_message (m : s2c) : async client unit :=
  match m with
  | UserJoined email id => handleUserJoined email id
  | IncomingCall from offer => handleIncomingCall from offer
  | CallAcceptedIn _ ans => handleCallAccepted ans
  | NegoNeededIn from offer => handleNegotiationIncoming from offer
  | NegoFinal _ ans => handleNegotiationFinal ans
  | RoomJoined _ _ => mret tt
  end.

Definition room_on_event (ev : rtc_event) : async client unit :=
  match ev with
  | EvTrack t streams => modify (handleTrack t streams)
  | EvNegotiationNeeded => handleNegotiationNeeded
  end.

(** ** [Lobby.jsx] *)

(** The inputs' [onChange]: [setEmail(e.target.value)] and
    [setRoom(e.target.value)]. *)
Definition setEmail (v : string) (c : client) : client :=
  mkClient c.(cl_id) c.(cl_service) c.(cl_remoteSocketId) c.(cl_mystream) c.(cl_remoteStream)
    c.(cl_stopped) c.(cl_outbox) c.(cl_next) c.(cl_devices) c.(cl_page) (mkForm v c.(cl_form).(lf_room)).

Definition setRoom (v : string) (c : client) : client :=
  mkClient c.(cl_id) c.(cl_service) c.(cl_remoteSocketId) c.(cl_mystream) c.(cl_remoteStream)
    c.(cl_stopped) c.(cl_outbox) c.(cl_next) c.(cl_devices) c.(cl_page) (mkForm c.(cl_form).(lf_email) v).

(** [handleSubmitForm]: [socket.emit("room:join", { email, room })] with the
    form's state when the form is submitted. *)
Definition handleSubmitForm : async client unit :=
  f ← gets cl_form;
  modify (emit (RoomJoin f.(lf_email) f.(lf_room))).

(** [handleJoinRoom({ email, room })]: [navigate(`/room/${room}`)]. *)
Definition handleJoinRoom (email room : string) : async client unit :=
  modify (navigate (RoomPage room)).

Definition lobby_on_message (m : s2c) : async client unit :=
  match m with
  | RoomJoined email room => handleJoinRoom email room
  | _ => mret tt
  end.

(** The page mounted decides which listeners run. *)
Definition on_message (m : s2c) (c : client) : async client unit :=
  match c.(cl_page) with
  | LobbyPage => lobby_on_message m
  | RoomPage _ => room_on_message m
  end.

(** The client at start: the module's singleton constructed, the lobby shown. *)
Definition init_client (id : sid) (devices : bool) : client :=
  mkClient id (instance id) None None None [] [] 0 devices LobbyPage (mkForm "" "").

(** ** What the room page shows *)

(** The rendered room page (lines 166-213) with the video elements'
    sources set by the effects of lines 138-158: the status line, the Call
    button, and the streams the two video elements play. *)
Record view := mkView {
  v_status : string;
  v_call_button : bool;
  v_my_video : option media_stream;
  v_remote_video : option remote_stream }.

Definition render (c : client) : view :=
  mkView (if c.(cl_remoteSocketId) then "Connected" else "No one in room")
    (if c.(cl_remoteSocketId) then true else false)
    c.(cl_mystream) c.(cl_remoteStream).

(** ** The service inside the client *)

Lemma set_service_get c : set_service c.(cl_service) c = c.
Proof. by destruct c. Qed.

Lemma get_set_service s c : (set_service s c).(cl_service) = s.
Proof. done. Qed.

Lemma set_service_twice s s' c : set_service s' (set_service s c) = set_service s' c.
Proof. done. Qed.

Lemma run_svc {A} (m : async PeerService A) c :
  run (svc m) c = let (r, s') := run m c.(cl_service) in (r, set_service s' c).
Proof. apply run_zoom; [apply set_service_get|done|done]. Qed.

#[export] Hint Rewrite @run_svc : rtc_run.

(** ** The inline track loop *)

(** Without its pre-check, the loop does what [addLocalTracks] does: the
    tracks the pre-check skips are the ones the engine refuses. *)
Lemma room_tracks_loop_eq e st ts p :
  (∀ i, i ∈ e → i ∈ sent_ids p) →
  room_tracks_loop st ts p = add_tracks_loop e st ts p.
Proof.
  revert p; induction ts as [|t ts IH]; intros p He; simpl; [done|].
  case_bool_decide as Hin.
  - rewrite addTrack_present by auto. by apply IH.
  - apply IH. intros i Hi. by apply addTrack_sent_mono, He.
Qed.

(** C8: the track loop of [handleCallUser] and [handleIncomingCall] (no
    pre-check, engine errors swallowed) is equivalent to
    [PeerService.addLocalTracks], which the page never calls: the
    deduplication the spec asks for holds on the page's path because the
    engine refuses a second sender for a track. *)
Theorem room_add_tracks_equiv (st : media_stream) (s : PeerService) :
  room_add_tracks st s = addLocalTracks (Some st) s.
Proof.
  destruct s as [[p|]]; unfold room_add_tracks, addLocalTracks; simpl; [|done].
  f_equal. f_equal. by apply room_tracks_loop_eq.
Qed.

Lemma room_tracks_loop_signaling st ts p :
  pc_signaling (room_tracks_loop st ts p) = pc_signaling p.
Proof. rewrite (room_tracks_loop_eq (sent_ids p)) by done. apply add_tracks_loop_signaling. Qed.

Lemma room_tracks_loop_covers st p :
  pc_signaling p ≠ Closed →
  ∀ t, t ∈ ms_tracks st → track_id t ∈ sent_ids (room_tracks_loop st (ms_tracks st) p).
Proof.
  intros Hs t Ht. rewrite (room_tracks_loop_eq (sent_ids p)) by done.
  apply Forall_forall with (x := t) (l := ms_tracks st); [|done].
  by apply add_tracks_loop_covers.
Qed.

Lemma room_tracks_loop_wf st ts p : wf p → wf (room_tracks_loop st ts p).
Proof. rewrite (room_tracks_loop_eq (sent_ids p)) by done. apply add_tracks_loop_wf. Qed.

(** ** Handlers *)

(** The stream [getUserMedia] captures next. *)
Definition next_stream (c : client) : media_stream :=
  mkStream (c.(cl_id), c.(cl_next))
    [mkTrack (c.(cl_id), S c.(cl_next)) Audio; mkTrack (c.(cl_id), S (S c.(cl_next))) Video].

(** The world after [getUserMedia] succeeded: three ids drawn. *)
Definition after_capture (c : client) : client :=
  mkClient c.(cl_id) c.(cl_service) c.(cl_remoteSocketId) c.(cl_mystream)
    c.(cl_remoteStream) c.(cl_stopped) c.(cl_outbox) (3 + c.(cl_next)) c.(cl_devices) c.(cl_page) c.(cl_form).

Lemma getUserMedia_ok c :
  cl_devices c = true → getUserMedia c = (Ok (next_stream c), after_capture c).
Proof. intros Hd. unfold getUserMedia, after_capture, next_stream. by rewrite Hd. Qed.

Lemma room_tracks_loop_sent_mono st ts p i :
  i ∈ sent_ids p → i ∈ sent_ids (room_tracks_loop st ts p).
Proof.
  revert p; induction ts as [|t ts IH]; intros p Hi; simpl; [done|].
  by apply IH, addTrack_sent_mono.
Qed.

Lemma room_tracks_loop_quiet st ts p : quiet p → quiet (room_tracks_loop st ts p).
Proof. revert p. induction ts as [|t ts IH]; intros p Hq; simpl; [done|]. by apply IH, addTrack_quiet. Qed.

Ltac room_cbn :=
  cbn -[createOffer createAnswer Rtc.setLocalDescription Rtc.setRemoteDescription
        addTrack update_nego fresh_by getUserMedia room_tracks_loop chained begin_op].

Ltac room_run := room_cbn; try unfold lift_step, call_peer; room_cbn; chain_rw; room_cbn.

(** The outcome of [handleCallUser] with the devices granted and a
    connection that may offer. *)
Lemma handleCallUser_run (c : client) (p : pc) :
  quiet p → cl_devices c = true → cl_service c = mkPeerService (Some p) →
  pc_signaling p = Stable ∨ pc_signaling p = HaveLocalOffer →
  let q := room_tracks_loop (next_stream c) (ms_tracks (next_stream c)) p in
  let o := describe SdpOffer q in
  run handleCallUser c =
    (Ok tt, emit (UserCall (cl_remoteSocketId c) (Some o))
      (set_service
         (mkPeerService (Some (with_descs HaveLocalOffer (Some o) None
            (pc_current_local q) (pc_current_remote q) (with_created (Some o) (pc_last_answer q) q))))
         (setMystream (Some (next_stream c)) (after_capture c)))).
Proof.
  intros Hq0 Hd Hs Hsig. cbv zeta. room_run. rewrite getUserMedia_ok by done. room_run. rewrite Hs. room_run.
  remember (room_tracks_loop _ _ p) as q eqn:Eq.
  assert (Hq : pc_signaling q = pc_signaling p) by (rewrite Eq; apply room_tracks_loop_signaling).
  assert (Qq : quiet q) by (rewrite Eq; by apply room_tracks_loop_quiet).
  room_run. rewrite createOffer_ok by (by rewrite Hq). room_run.
  rewrite setLocal_offer_ok; [|done|done|cbn; by rewrite Hq]. done.
Qed.

(** C9: with the devices granted and a connection in [stable] (or with an
    offer of its own pending), [handleCallUser] captures a new audio and
    video stream, makes it [mystream], and emits [user:call] to the
    remote id of its closure with an offer that lists the stream's tracks;
    the connection is left in [have-local-offer]. *)
Theorem handleCallUser_ok (c : client) (p : pc) :
  quiet p → cl_devices c = true → cl_service c = mkPeerService (Some p) →
  pc_signaling p = Stable ∨ pc_signaling p = HaveLocalOffer →
  ∃ o p' c', run handleCallUser c = (Ok tt, c')
    ∧ cl_outbox c' = cl_outbox c ++ [UserCall (cl_remoteSocketId c) (Some o)]
    ∧ cl_mystream c' = Some (next_stream c)
    ∧ sdp_kind o = SdpOffer
    ∧ (∀ t, t ∈ ms_tracks (next_stream c) → track_id t ∈ line_id <$> sdp_media o)
    ∧ cl_service c' = mkPeerService (Some p') ∧ pc_signaling p' = HaveLocalOffer.
Proof.
  intros Hq Hd Hs Hsig. rewrite (handleCallUser_run c p) by done.
  eexists _, _, _; split_and!; try done.
  intros t Ht. rewrite describe_ids. apply room_tracks_loop_covers; [|done].
  destruct Hsig as [-> | ->]; done.
Qed.

(** C10: when the camera or microphone is denied, [handleCallUser] rejects
    with [NotAllowedError] before anything else: no message is emitted and
    neither the page nor the connection changes. *)
Theorem handleCallUser_denied (c : client) :
  cl_devices c = false → run handleCallUser c = (Thrown NotAllowedError, c).
Proof. intros Hd. room_run. unfold getUserMedia. by rewrite Hd. Qed.

(** C11: with the devices granted and an open connection, [handleIncomingCall]
    of an offer records the caller as the remote id, captures a new stream,
    answers with its tracks, emits [call:accepted] to the caller with that
    answer, and leaves the connection [stable] with the offer applied. *)
Theorem handleIncomingCall_ok (c : client) (p : pc) (from : sid) (d : sdp) :
  quiet p → cl_devices c = true → cl_service c = mkPeerService (Some p) →
  pc_signaling p ≠ Closed → sdp_kind d = SdpOffer →
  ∃ a p' c', run (handleIncomingCall from (Some d)) c = (Ok tt, c')
    ∧ cl_remoteSocketId c' = Some from
    ∧ cl_outbox c' = cl_outbox c ++ [CallAccepted (Some from) (Some a)]
    ∧ cl_mystream c' = Some (next_stream c)
    ∧ sdp_kind a = SdpAnswer
    ∧ (∀ t, t ∈ ms_tracks (next_stream c) → track_id t ∈ line_id <$> sdp_media a)
    ∧ cl_service c' = mkPeerService (Some p') ∧ pc_signaling p' = Stable
    ∧ pc_current_remote p' = Some d.
Proof.
  intros Hq0 Hd Hs Hsig Hk. unfold handleIncomingCall.
  cbn -[svc getAnswer getUserMedia room_tracks_loop]. rewrite getUserMedia_ok by done.
  cbn -[svc getAnswer getUserMedia room_tracks_loop]. rewrite run_bind, run_svc, Hs.
  cbn -[getAnswer room_tracks_loop].
  remember (room_tracks_loop _ _ p) as q eqn:Eq.
  assert (Hq : pc_signaling q = pc_signaling p) by (rewrite Eq; apply room_tracks_loop_signaling).
  assert (Qq : quiet q) by (rewrite Eq; by apply room_tracks_loop_quiet).
  destruct (getAnswer_spec q d Qq Hk) as (a & p' & Ha & Hka & Hma & Hs' & Hcr & _); [by rewrite Hq|].
  rewrite Ha. cbn.
  eexists _, _, _; split_and!; try done.
  intros t Ht. rewrite Hma, Eq. by apply room_tracks_loop_covers.
Qed.

(** C12: [handleCallAccepted] and [handleNegotiationFinal] never reject:
    whatever description arrives, an engine error is caught and logged. *)
Theorem answer_handlers_never_reject (ans : option sdp) (c : client) :
  (run (handleCallAccepted ans) c).1 = Ok tt ∧ (run (handleNegotiationFinal ans) c).1 = Ok tt.
Proof.
  unfold handleCallAccepted, handleNegotiationFinal. rewrite run_catch.
  destruct (run (svc (Peer.setRemoteDescription ans)) c) as [[[]|e] c']; done.
Qed.

(** C13: an answer that arrives when the connection is already [stable]
    (the second of two answers, or an answer to an offer already answered)
    is silently ignored: the page and the connection are unchanged. *)
Theorem duplicate_answer_ignored (c : client) (p : pc) (d : sdp) :
  quiet p → cl_service c = mkPeerService (Some p) → pc_signaling p = Stable → sdp_kind d = SdpAnswer →
  run (handleCallAccepted (Some d)) c = (Ok tt, c).
Proof.
  intros Hq Hs Hsig Hk. unfold handleCallAccepted. rewrite run_catch, run_svc, Hs.
  rewrite setRemote_answer_in_stable by done. simpl. by rewrite <- Hs, set_service_get.
Qed.

(** C14: calling again stops tracks that are still being sent. When
    [mystream] already holds a stream whose tracks the connection sends,
    [handleCallUser] captures a new stream; the effect on [mystream]
    stops every track of the previous stream, yet those tracks keep their
    senders and are listed again in the offer it emits. *)
Theorem recall_stops_sent_tracks (c : client) (p : pc) (st1 : media_stream) :
  quiet p → cl_devices c = true → cl_service c = mkPeerService (Some p) →
  pc_signaling p = Stable ∨ pc_signaling p = HaveLocalOffer →
  cl_mystream c = Some st1 → st1 ≠ next_stream c →
  (∀ t, t ∈ ms_tracks st1 → track_id t ∈ sent_ids p) →
  ∃ o p' c', run handleCallUser c = (Ok tt, c')
    ∧ cl_outbox c' = cl_outbox c ++ [UserCall (cl_remoteSocketId c) (Some o)]
    ∧ cl_service c' = mkPeerService (Some p')
    ∧ ∀ t, t ∈ ms_tracks st1 →
        track_id t ∈ cl_stopped c' ∧ track_id t ∈ sent_ids p' ∧ track_id t ∈ line_id <$> sdp_media o.
Proof.
  intros Hq Hd Hs Hsig Hm Hne Hsent. rewrite (handleCallUser_run c p) by done.
  eexists _, _, _; split_and!; try done.
  intros t Ht. split_and!.
  - unfold setMystream; cbn -[room_tracks_loop]. rewrite Hm, decide_False by congruence.
    apply elem_of_app. right. by apply list_elem_of_fmap_2.
  - by apply room_tracks_loop_sent_mono, Hsent.
  - rewrite describe_ids. by apply room_tracks_loop_sent_mono, Hsent.
Qed.

(** ** Two clicks on Call *)

(** How a task ended, if it has. *)
Definition outcome (m : async client unit) : option (res unit) :=
  match m with Done r => Some r | _ => None end.

(** Two clicks on Call before either capture resolves, the two
    [handleCallUser] tasks then resumed in turn, as the browser runs them:
    the captures resolve in order, and the connection's chain runs the
    description operations in the order they were called (the first
    task's [createOffer], the second's, the first task's
    [setLocalDescription], the second's). The outcome of each task and
    the page at the end. *)
Definition double_call (c : client) : option (res unit) * option (res unit) * client :=
  let '(m1, c1) := settle handleCallUser c in
  let '(m2, c2) := settle handleCallUser c1 in
  let '(m1, c3) := resume m1 c2 in
  let '(m2, c4) := resume m2 c3 in
  let '(m1, c5) := resume m1 c4 in
  let '(m2, c6) := resume m2 c5 in
  let '(m1, c7) := resume m1 c6 in
  let '(m2, c8) := resume m2 c7 in
  (outcome m1, outcome m2, c8).

(** What the inline [addTrack] loop leaves of a connection's descriptions
    and chain. *)
Lemma room_tracks_loop_fields st ts p :
  let q := room_tracks_loop st ts p in
  pc_config q = pc_config p ∧ pc_session q = pc_session p ∧ pc_signaling q = pc_signaling p
  ∧ pc_pending_local q = pc_pending_local p ∧ pc_pending_remote q = pc_pending_remote p
  ∧ pc_current_local q = pc_current_local p ∧ pc_current_remote q = pc_current_remote p
  ∧ pc_last_offer q = pc_last_offer p ∧ pc_last_answer q = pc_last_answer p
  ∧ pc_version q = pc_version p ∧ pc_ops q = pc_ops p.
Proof.
  revert p. induction ts as [|t ts IH]; intros p; [done|]. cbn -[addTrack].
  destruct (IH (addTrack t [ms_id st] p).2) as (-> & -> & -> & -> & -> & -> & -> & -> & -> & -> & ->).
  unfold addTrack. repeat case_decide; cbn; try done.
  unfold update_nego. repeat (case_decide || case_match); cbn; done.
Qed.

Lemma rtl_cfg st ts p : pc_config (room_tracks_loop st ts p) = pc_config p.
Proof. apply room_tracks_loop_fields. Qed.
Lemma rtl_ses st ts p : pc_session (room_tracks_loop st ts p) = pc_session p.
Proof. apply room_tracks_loop_fields. Qed.
Lemma rtl_sig st ts p : pc_signaling (room_tracks_loop st ts p) = pc_signaling p.
Proof. apply room_tracks_loop_fields. Qed.
Lemma rtl_pl st ts p : pc_pending_local (room_tracks_loop st ts p) = pc_pending_local p.
Proof. apply room_tracks_loop_fields. Qed.
Lemma rtl_pr st ts p : pc_pending_remote (room_tracks_loop st ts p) = pc_pending_remote p.
Proof. apply room_tracks_loop_fields. Qed.
Lemma rtl_cl st ts p : pc_current_local (room_tracks_loop st ts p) = pc_current_local p.
Proof. apply room_tracks_loop_fields. Qed.
Lemma rtl_cr st ts p : pc_current_remote (room_tracks_loop st ts p) = pc_current_remote p.
Proof. apply room_tracks_loop_fields. Qed.
Lemma rtl_lo st ts p : pc_last_offer (room_tracks_loop st ts p) = pc_last_offer p.
Proof. apply room_tracks_loop_fields. Qed.
Lemma rtl_la st ts p : pc_last_answer (room_tracks_loop st ts p) = pc_last_answer p.
Proof. apply room_tracks_loop_fields. Qed.
Lemma rtl_ver st ts p : pc_version (room_tracks_loop st ts p) = pc_version p.
Proof. apply room_tracks_loop_fields. Qed.
Lemma rtl_ops st ts p : pc_ops (room_tracks_loop st ts p) = pc_ops p.
Proof. apply room_tracks_loop_fields. Qed.
Ltac rtl := rewrite ?rtl_cfg, ?rtl_ses, ?rtl_sig, ?rtl_pl, ?rtl_pr, ?rtl_cl, ?rtl_cr, ?rtl_lo, ?rtl_la, ?rtl_ver, ?rtl_ops.

Lemma svc_call {X} (f : pc → res X * pc) c :
  lift_step cl_service set_service (call_peer f) c
  = match peer (cl_service c) with
    | Some q => ((f q).1, set_service (mkPeerService (Some (f q).2)) c)
    | None => (Thrown TypeError, set_service (cl_service c) c)
    end.
Proof. unfold lift_step, call_peer. destruct (peer (cl_service c)) as [q|]; [|done]. by destruct (f q). Qed.


Ltac race_cbn := cbn -[room_tracks_loop chained begin_op createOffer Rtc.setLocalDescription describe].

(** C15: the code does not serialise negotiation actions (spec section
    5: a new negotiation action must not begin while a prior one for the
    same call is in flight). On any page able to call (devices granted, a
    connection in [stable] or with its own offer pending, nothing
    chained), two clicks on Call run two [handleCallUser] tasks whose
    offers are both created before either is set: the first task's
    [setLocalDescription] rejects with [InvalidModificationError] (its
    offer is no longer the last created), a rejection nobody handles, and
    the page emits one [user:call] only, carrying the second offer, which
    is pending on a connection left with nothing chained. *)
Theorem double_call_race (c : client) (p : pc) :
  quiet p → cl_devices c = true → cl_service c = mkPeerService (Some p) →
  pc_signaling p = Stable ∨ pc_signaling p = HaveLocalOffer →
  ∃ o p' c', double_call c = (Some (Thrown InvalidModificationError), Some (Ok tt), c')
    ∧ cl_outbox c' = cl_outbox c ++ [UserCall (cl_remoteSocketId c) (Some o)]
    ∧ cl_service c' = mkPeerService (Some p')
    ∧ pc_signaling p' = HaveLocalOffer ∧ pc_pending_local p' = Some o ∧ quiet p'.
Proof.
  intros [Ho Hb] Hd Hs Hsig. unfold double_call, handleCallUser, getOffer, room_add_tracks, chain_op, svc.
  do 4 (race_cbn; rewrite ?Hs; try rewrite getUserMedia_ok by (race_cbn; done)).
  remember (setMystream (Some (next_stream c)) (after_capture c)) as Cl1 eqn:EC1.
  assert (HC1 : cl_outbox Cl1 = cl_outbox c) by (subst Cl1; reflexivity). clear EC1.
  match goal with |- context [room_tracks_loop (next_stream c) ?ts p] =>
    remember (room_tracks_loop (next_stream c) ts p) as Q1 eqn:EQ1 end.
  assert (pc_signaling Q1 = pc_signaling p ∧ pc_ops Q1 = 0) as [SQ1 OQ1]
    by (subst Q1; rtl; auto). clear EQ1.
  match goal with |- context [begin_op (room_tracks_loop ?a ?b (begin_op Q1))] =>
    remember (begin_op (room_tracks_loop a b (begin_op Q1))) as X2 eqn:EX2 end.
  assert (pc_signaling X2 = pc_signaling p ∧ pc_ops X2 = 2) as [S2 O2]
    by (subst X2; cbn -[room_tracks_loop]; rtl; cbn -[room_tracks_loop]; by rewrite SQ1, OQ1).
  clear EX2.
  match goal with |- context [setMystream (Some (next_stream ?a)) (after_capture ?a)] =>
    remember (setMystream (Some (next_stream a)) (after_capture a)) as Cl2 eqn:EC2 end.
  assert (HC2 : cl_outbox Cl2 = cl_outbox c) by (subst Cl2; cbn; exact HC1). clear EC2.
  rewrite svc_call. race_cbn. rewrite ?set_service_twice.
  rewrite chained_createOffer_busy by (rewrite ?S2; auto; lia).
  remember (describe SdpOffer X2) as o1 eqn:Eo1.
  assert (sdp_kind o1 = SdpOffer ∧ sdp_version o1 = pc_version X2) as [K1 V1] by (by subst o1).
  clear Eo1. race_cbn.
  match goal with |- context [begin_op (with_chain ?n ?b (with_created (Some o1) ?la X2))] =>
    remember (begin_op (with_chain n b (with_created (Some o1) la X2))) as X4 eqn:EX4 end.
  assert (pc_signaling X4 = pc_signaling p ∧ pc_ops X4 = 2 ∧ pc_version X4 = S (pc_version X2))
    as (S4 & O4 & V4) by (subst X4; cbn; rewrite O2; auto).
  clear EX4.
  rewrite svc_call. race_cbn. rewrite ?set_service_twice.
  rewrite chained_createOffer_busy by (rewrite ?S4; auto; lia).
  remember (describe SdpOffer X4) as o2 eqn:Eo2.
  assert (sdp_kind o2 = SdpOffer ∧ sdp_version o2 = pc_version X4) as [K2 V2] by (by subst o2).
  clear Eo2. race_cbn.
  match goal with |- context [begin_op (with_chain ?n ?b (with_created (Some o2) ?la X4))] =>
    remember (begin_op (with_chain n b (with_created (Some o2) la X4))) as X6 eqn:EX6 end.
  assert (pc_signaling X6 = pc_signaling p ∧ pc_ops X6 = 2 ∧ pc_last_offer X6 = Some o2)
    as (S6 & O6 & L6) by (subst X6; cbn; rewrite O4; auto).
  clear EX6.
  rewrite svc_call. race_cbn. rewrite ?set_service_twice.
  rewrite chained_busy by (rewrite setLocalDescription_ops; lia).
  rewrite setLocal_offer_stale; [|done|rewrite S6; destruct Hsig as [-> | ->]; done|].
  2:{ rewrite L6. intros [= E]. apply (f_equal sdp_version) in E. lia. }
  race_cbn.
  remember (with_chain (pred (pc_ops X6)) (pc_nn_on_empty X6) X6) as X7 eqn:EX7.
  assert (pc_signaling X7 = pc_signaling p ∧ pc_ops X7 = 1 ∧ pc_last_offer X7 = Some o2)
    as (S7 & O7 & L7) by (subst X7; cbn; rewrite O6; auto).
  clear EX7.
  assert (Hok : Rtc.setLocalDescription o2 X7
    = (Ok tt, with_descs HaveLocalOffer (Some o2) None (pc_current_local X7) (pc_current_remote X7) X7))
    by (apply setLocal_offer_ok; [done|done|by rewrite S7]).
  rewrite svc_call. race_cbn.
  rewrite chained_last; rewrite Hok; [|cbn; by rewrite O7|done].
  race_cbn. eexists o2, _, _. split; [reflexivity|].
  race_cbn. rewrite HC2. split_and!; [reflexivity..|split; reflexivity].
Qed.

(** C22: one renegotiation round through the pages' handlers. On a
    connection in [stable], [handleNegotiationNeeded] offers and emits
    [peer:nego:needed] to the remote id; the peer's
    [handleNegotiationIncoming] of that offer answers and emits
    [peer:nego:done] back; [handleNegotiationFinal] of the answer applies
    it. Both connections (with no operation chained at the start) end
    [stable], each receiving every track the other sends. *)
Theorem negotiation_round (c d : client) (p q : pc) :
  quiet p → quiet q →
  cl_service c = mkPeerService (Some p) → pc_signaling p = Stable →
  cl_service d = mkPeerService (Some q) → pc_signaling q ≠ Closed →
  ∃ o a c1 d1 p' q',
    run handleNegotiationNeeded c = (Ok tt, c1)
    ∧ cl_outbox c1 = cl_outbox c ++ [NegoNeeded (cl_remoteSocketId c) (Some o)]
    ∧ run (handleNegotiationIncoming (cl_id c) (Some o)) d = (Ok tt, d1)
    ∧ cl_outbox d1 = cl_outbox d ++ [NegoDone (Some (cl_id c)) (Some a)]
    ∧ run (handleNegotiationFinal (Some a)) c1 = (Ok tt, set_service (mkPeerService (Some p')) c1)
    ∧ cl_service d1 = mkPeerService (Some q')
    ∧ pc_signaling p' = Stable ∧ pc_signaling q' = Stable
    ∧ (∀ i, i ∈ sent_ids p → i ∈ received_ids q')
    ∧ (∀ i, i ∈ sent_ids q → i ∈ received_ids p').
Proof.
  intros Qp Qq Hc Hp Hd Hq.
  destruct (getOffer_spec p Qp) as (o & p1 & Ho & Hko & Hmo & Hs1 & Hpl1 & Hsnd1 & _ & Q1); [by left|].
  destruct (getAnswer_spec q o Qq Hko Hq) as (a & q' & Ha & Hka & Hma & Hsq & _ & _ & Hrq & _).
  assert (Hmo1 : line_id <$> sdp_media o = sent_ids p1)
    by (rewrite Hmo; unfold sent_ids, sent_tracks; by rewrite Hsnd1).
  destruct (setRemote_answer_spec p1 o a Q1 Hs1 Hpl1 Hka Hmo1) as (p' & Hp' & Hsp & _ & _ & Hrp & _).
  set (c1 := emit (NegoNeeded (cl_remoteSocketId c) (Some o)) (set_service (mkPeerService (Some p1)) c)).
  set (d1 := emit (NegoDone (Some (cl_id c)) (Some a)) (set_service (mkPeerService (Some q')) d)).
  assert (E1 : run handleNegotiationNeeded c = (Ok tt, c1)).
  { unfold handleNegotiationNeeded. rewrite run_bind. cbn -[svc getOffer].
    by rewrite run_bind, run_svc, Hc, Ho. }
  assert (E2 : run (handleNegotiationIncoming (cl_id c) (Some o)) d = (Ok tt, d1)).
  { unfold handleNegotiationIncoming. by rewrite run_bind, run_svc, Hd, Ha. }
  assert (E3 : run (handleNegotiationFinal (Some a)) c1 = (Ok tt, set_service (mkPeerService (Some p')) c1)).
  { unfold handleNegotiationFinal. rewrite run_catch, run_svc.
    replace (cl_service c1) with (mkPeerService (Some p1)) by reflexivity. by rewrite Hp'. }
  exists o, a, c1, d1, p', q'. split_and!; try done.
  - intros i Hi. rewrite Hrq. apply fresh_received_covers. by rewrite Hmo.
  - intros i Hi. apply Hrp. by rewrite Hma.
Qed.

(** ** How long a listener runs *)

Lemma on_message_awaits m c : awaits_le 4 (on_message m c).
Proof.
  destruct (cl_page c), m; unfold on_message, room_on_message, lobby_on_message,
    handleUserJoined, handleIncomingCall, handleCallAccepted, handleNegotiationIncoming,
    handleNegotiationFinal, handleJoinRoom; awaits_bound.
Qed.

Lemma room_on_event_awaits ev : awaits_le 2 (room_on_event ev).
Proof. destruct ev; unfold room_on_event, handleNegotiationNeeded; awaits_bound. Qed.

Lemma handleCallUser_awaits : awaits_le 3 handleCallUser.
Proof. unfold handleCallUser. awaits_bound. Qed.

Lemma handleSubmitForm_awaits : awaits_le 0 handleSubmitForm.
Proof. unfold handleSubmitForm. awaits_bound. Qed.

(** C23: every listener of the pages suspends at most four times on any
    path (a message listener: [getUserMedia] and the three engine
    operations of [getAnswer]), an engine event listener at most twice,
    the Call button's handler at most three times; the bound four is
    reached by [incoming:call] on the room page. *)
Theorem listener_await_bounds :
  (∀ m c, awaits_le 4 (on_message m c))
  ∧ (∀ ev, awaits_le 2 (room_on_event ev))
  ∧ awaits_le 3 handleCallUser
  ∧ ∀ from d c r, cl_page c = RoomPage r → ¬ awaits_le 3 (on_message (IncomingCall from (Some d)) c).
Proof.
  split_and!; [apply on_message_awaits|apply room_on_event_awaits|apply handleCallUser_awaits|].
  intros from d c r Hp H. unfold on_message in H. rewrite Hp in H. cbn in H.
  repeat match type of H with
  | ∀ _ : unit, _ => specialize (H tt); cbn in H
  | ∀ _ : media_stream, _ => specialize (H (mkStream (0, 0) [])); cbn in H
  | ∀ _ : PeerService, _ => specialize (H (mkPeerService (Some (new_pc [] 0)))); cbn in H
  | ∀ _ : sdp, _ => specialize (H d); cbn in H
  end.
  exact H.
Qed.

(** ** The remote stream *)

Lemma handleTrack_composite t c prev :
  cl_remoteStream c = Some (Composite prev) ∨ cl_remoteStream c = None ∧ prev = [] →
  cl_remoteStream (handleTrack t [] c) = Some (Composite (prev ++ [t])).
Proof. intros [Hc|[Hc ->]]; unfold handleTrack; by rewrite Hc. Qed.

(** C21: tracks that arrive without a stream ([ev.streams] empty)
    accumulate, in arrival order, into one composite remote stream that
    keeps the tracks shown before (spec 4.3, [onRemoteTrack]). *)
Theorem handleTrack_accumulates (ts : list track) (c : client) (prev : list track) :
  cl_remoteStream c = Some (Composite prev) ∨ cl_remoteStream c = None ∧ prev = [] →
  ts ≠ [] →
  cl_remoteStream (foldl (fun c t => handleTrack t [] c) c ts) = Some (Composite (prev ++ ts)).
Proof.
  revert c prev. induction ts as [|t ts IH]; intros c prev Hc Hne; [done|]. simpl.
  pose proof (handleTrack_composite t c prev Hc) as Ht.
  destruct ts as [|t' ts']; [done|].
  rewrite (IH _ (prev ++ [t])); [by rewrite <- app_assoc|by left|done].
Qed.

(** ** Invariant *)

Definition client_wf (c : client) : Prop := ps_wf c.(cl_service).

Lemma svc_preserves {A} (m : async PeerService A) : preserves ps_wf m → preserves client_wf (svc m).
Proof.
  intros Hm. unfold svc. induction Hm as [r|X f k Hf Hk IH|X f k Hf Hk IH]; simpl; constructor; auto;
    intros w Hw; unfold lift_step, client_wf in *; specialize (Hf _ Hw); by destruct (f (cl_service w)).
Qed.

Lemma room_add_tracks_wf st s : ps_wf s → ps_wf (room_add_tracks st s).
Proof. destruct s as [[p|]]; unfold room_add_tracks, ps_wf; simpl; [apply room_tracks_loop_wf|done]. Qed.

Lemma client_wf_set_service s c : ps_wf s → client_wf (set_service s c).
Proof. done. Qed.

#[export] Hint Resolve svc_preserves room_add_tracks_wf client_wf_set_service : rtc.

(** ** Witnesses: a call between endpoints 1 and 2 in room "42" *)

Definition svc_pc (c : client) : pc :=
  match c.(cl_service).(peer) with Some p => p | None => new_pc ice_servers c.(cl_id) end.

(** Endpoint 1 on the room page, told that endpoint 2 joined. *)
Definition demo_caller : client :=
  setRemoteSocketId (Some 2) (navigate (RoomPage "42") (init_client 1 true)).
Definition demo_callee : client := navigate (RoomPage "42") (init_client 2 true).
Definition demo_called : client := (run handleCallUser demo_caller).2.
Definition demo_offer : option sdp :=
  match cl_outbox demo_called with [UserCall _ o] => o | _ => None end.
Definition demo_answered : client := (run (handleIncomingCall 1 demo_offer) demo_callee).2.
Definition demo_answer : option sdp :=
  match cl_outbox demo_answered with [CallAccepted _ a] => a | _ => None end.
(** The caller once the answer is applied: connected, [mystream] sent. *)
Definition demo_connected : client := (run (handleCallAccepted demo_answer) demo_called).2.

Lemma double_call_race_witness :
  quiet (svc_pc demo_caller) ∧ cl_devices demo_caller = true
  ∧ cl_service demo_caller = mkPeerService (Some (svc_pc demo_caller))
  ∧ ∃ o c', double_call demo_caller = (Some (Thrown InvalidModificationError), Some (Ok tt), c')
      ∧ cl_outbox c' = cl_outbox demo_caller ++ [UserCall (Some 2) (Some o)].
Proof.
  assert (Q : quiet (svc_pc demo_caller)) by (split; vm_compute; reflexivity).
  assert (H1 : cl_devices demo_caller = true) by (vm_compute; reflexivity).
  assert (H2 : cl_service demo_caller = mkPeerService (Some (svc_pc demo_caller))) by (vm_compute; reflexivity).
  assert (H3 : pc_signaling (svc_pc demo_caller) = Stable ∨ pc_signaling (svc_pc demo_caller) = HaveLocalOffer)
    by (left; vm_compute; reflexivity).
  split_and!; [exact Q|exact H1|exact H2|].
  destruct (double_call_race demo_caller (svc_pc demo_caller) Q H1 H2 H3)
    as (o & p' & c' & Hr & Ho & _).
  exists o, c'. split; [exact Hr|exact Ho].
Defined.

Lemma handleCallUser_ok_witness :
  cl_devices demo_caller = true ∧ cl_service demo_caller = mkPeerService (Some (svc_pc demo_caller))
  ∧ (pc_signaling (svc_pc demo_caller) = Stable ∨ pc_signaling (svc_pc demo_caller) = HaveLocalOffer)
  ∧ ∃ o p' c', run handleCallUser demo_caller = (Ok tt, c') ∧ cl_mystream c' = Some (next_stream demo_caller)
      ∧ cl_service c' = mkPeerService (Some p') ∧ sdp_kind o = SdpOffer.
Proof.
  assert (H1 : cl_devices demo_caller = true) by (vm_compute; reflexivity).
  assert (H2 : cl_service demo_caller = mkPeerService (Some (svc_pc demo_caller))) by (vm_compute; reflexivity).
  assert (H3 : pc_signaling (svc_pc demo_caller) = Stable ∨ pc_signaling (svc_pc demo_caller) = HaveLocalOffer)
    by (left; vm_compute; reflexivity).
  split_and!; [exact H1|exact H2|exact H3|].
  assert (Q : quiet (svc_pc demo_caller)) by (split; vm_compute; reflexivity).
  destruct (handleCallUser_ok demo_caller (svc_pc demo_caller) Q H1 H2 H3)
    as (o & p' & c' & Hr & _ & Hm & Hk & _ & Hs & _).
  exists o, p', c'. split_and!; assumption.
Defined.

Lemma handleCallUser_denied_witness :
  cl_devices (init_client 1 false) = false
  ∧ run handleCallUser (init_client 1 false) = (Thrown NotAllowedError, init_client 1 false).
Proof.
  assert (H : cl_devices (init_client 1 false) = false) by (vm_compute; reflexivity).
  split; [exact H|]. exact (handleCallUser_denied (init_client 1 false) H).
Defined.

Lemma handleIncomingCall_ok_witness :
  ∃ d, demo_offer = Some d ∧ cl_devices demo_callee = true
  ∧ cl_service demo_callee = mkPeerService (Some (svc_pc demo_callee))
  ∧ pc_signaling (svc_pc demo_callee) ≠ Closed ∧ sdp_kind d = SdpOffer
  ∧ ∃ a p' c', run (handleIncomingCall 1 (Some d)) demo_callee = (Ok tt, c')
      ∧ cl_remoteSocketId c' = Some 1 ∧ sdp_kind a = SdpAnswer ∧ cl_service c' = mkPeerService (Some p').
Proof.
  assert (Hd : demo_offer = Some (describe SdpOffer (room_tracks_loop (next_stream demo_caller)
                 (ms_tracks (next_stream demo_caller)) (svc_pc demo_caller)))) by (vm_compute; reflexivity).
  eexists; split; [exact Hd|].
  assert (H1 : cl_devices demo_callee = true) by (vm_compute; reflexivity).
  assert (H2 : cl_service demo_callee = mkPeerService (Some (svc_pc demo_callee))) by (vm_compute; reflexivity).
  assert (H3 : pc_signaling (svc_pc demo_callee) ≠ Closed) by (vm_compute; discriminate).
  assert (H4 : sdp_kind (describe SdpOffer (room_tracks_loop (next_stream demo_caller)
                 (ms_tracks (next_stream demo_caller)) (svc_pc demo_caller))) = SdpOffer) by (vm_compute; reflexivity).
  split_and!; [exact H1|exact H2|exact H3|exact H4|].
  assert (Q : quiet (svc_pc demo_callee)) by (split; vm_compute; reflexivity).
  destruct (handleIncomingCall_ok demo_callee (svc_pc demo_callee) 1 _ Q H1 H2 H3 H4)
    as (a & p' & c' & Hr & Hid & _ & _ & Hk & _ & Hs & _).
  exists a, p', c'. split_and!; assumption.
Defined.

Lemma duplicate_answer_ignored_witness :
  ∃ d, demo_answer = Some d
  ∧ cl_service demo_connected = mkPeerService (Some (svc_pc demo_connected))
  ∧ pc_signaling (svc_pc demo_connected) = Stable ∧ sdp_kind d = SdpAnswer
  ∧ run (handleCallAccepted (Some d)) demo_connected = (Ok tt, demo_connected).
Proof.
  destruct demo_answer as [d|] eqn:Ha; [|discriminate].
  exists d. split; [vm_compute; reflexivity|].
  assert (H1 : cl_service demo_connected = mkPeerService (Some (svc_pc demo_connected))) by (vm_compute; reflexivity).
  assert (H2 : pc_signaling (svc_pc demo_connected) = Stable) by (vm_compute; reflexivity).
  assert (H3 : sdp_kind d = SdpAnswer) by (revert Ha; vm_compute; intros [= <-]; reflexivity).
  split_and!; [exact H1|exact H2|exact H3|].
  assert (Q : quiet (svc_pc demo_connected)) by (split; vm_compute; reflexivity).
  exact (duplicate_answer_ignored demo_connected (svc_pc demo_connected) d Q H1 H2 H3).
Defined.

Lemma recall_stops_sent_tracks_witness :
  cl_devices demo_connected = true
  ∧ cl_service demo_connected = mkPeerService (Some (svc_pc demo_connected))
  ∧ (pc_signaling (svc_pc demo_connected) = Stable ∨ pc_signaling (svc_pc demo_connected) = HaveLocalOffer)
  ∧ cl_mystream demo_connected = Some (next_stream demo_caller)
  ∧ next_stream demo_caller ≠ next_stream demo_connected
  ∧ (∀ t, t ∈ ms_tracks (next_stream demo_caller) → track_id t ∈ sent_ids (svc_pc demo_connected))
  ∧ ∃ p' c', run handleCallUser demo_connected = (Ok tt, c')
      ∧ ∀ t, t ∈ ms_tracks (next_stream demo_caller) → track_id t ∈ cl_stopped c' ∧ track_id t ∈ sent_ids p'.
Proof.
  assert (H1 : cl_devices demo_connected = true) by (vm_compute; reflexivity).
  assert (H2 : cl_service demo_connected = mkPeerService (Some (svc_pc demo_connected))) by (vm_compute; reflexivity).
  assert (H3 : pc_signaling (svc_pc demo_connected) = Stable ∨ pc_signaling (svc_pc demo_connected) = HaveLocalOffer)
    by (left; vm_compute; reflexivity).
  assert (H4 : cl_mystream demo_connected = Some (next_stream demo_caller)) by (vm_compute; reflexivity).
  assert (H5 : next_stream demo_caller ≠ next_stream demo_connected) by (vm_compute; congruence).
  assert (H6 : ∀ t, t ∈ ms_tracks (next_stream demo_caller) → track_id t ∈ sent_ids (svc_pc demo_connected)).
  { assert (E : sent_ids (svc_pc demo_connected) = [(1, 1); (1, 2)]) by (vm_compute; reflexivity).
    rewrite E. intros t Ht%list_elem_of_In. simpl in Ht.
    destruct Ht as [<-|[<-|[]]]; apply list_elem_of_In; simpl; tauto. }
  split_and!; [exact H1|exact H2|exact H3|exact H4|exact H5|exact H6|].
  assert (Q : quiet (svc_pc demo_connected)) by (split; vm_compute; reflexivity).
  destruct (recall_stops_sent_tracks demo_connected (svc_pc demo_connected) (next_stream demo_caller) Q
              H1 H2 H3 H4 H5 H6) as (o & p' & c' & Hr & _ & _ & Ht).
  exists p', c'. split; [exact Hr|]. intros t Hin. destruct (Ht t Hin) as (Hs & Hp & _). split; assumption.
Defined.

Lemma handleTrack_accumulates_witness :
  cl_remoteStream demo_callee = None
  ∧ cl_remoteStream (foldl (fun c t => handleTrack t [] c) demo_callee
       [mkTrack (1, 1) Audio; mkTrack (1, 2) Video])
    = Some (Composite [mkTrack (1, 1) Audio; mkTrack (1, 2) Video]).
Proof.
  split; [reflexivity|].
  exact (handleTrack_accumulates [mkTrack (1, 1) Audio; mkTrack (1, 2) Video] demo_callee []
           (or_intror (conj eq_refl eq_refl)) ltac:(discriminate)).
Defined.

Lemma negotiation_round_witness :
  cl_service demo_connected = mkPeerService (Some (svc_pc demo_connected))
  ∧ pc_signaling (svc_pc demo_connected) = Stable
  ∧ cl_service demo_answered = mkPeerService (Some (svc_pc demo_answered))
  ∧ pc_signaling (svc_pc demo_answered) ≠ Closed
  ∧ ∃ o a c1 d1 p' q',
    run handleNegotiationNeeded demo_connected = (Ok tt, c1)
    ∧ cl_outbox c1 = cl_outbox demo_connected ++ [NegoNeeded (cl_remoteSocketId demo_connected) (Some o)]
    ∧ run (handleNegotiationIncoming (cl_id demo_connected) (Some o)) demo_answered = (Ok tt, d1)
    ∧ cl_outbox d1 = cl_outbox demo_answered ++ [NegoDone (Some (cl_id demo_connected)) (Some a)]
    ∧ run (handleNegotiationFinal (Some a)) c1 = (Ok tt, set_service (mkPeerService (Some p')) c1)
    ∧ cl_service d1 = mkPeerService (Some q')
    ∧ pc_signaling p' = Stable ∧ pc_signaling q' = Stable
    ∧ (∀ i, i ∈ sent_ids (svc_pc demo_connected) → i ∈ received_ids q')
    ∧ (∀ i, i ∈ sent_ids (svc_pc demo_answered) → i ∈ received_ids p').
Proof.
  assert (H1 : cl_service demo_connected = mkPeerService (Some (svc_pc demo_connected)))
    by (vm_compute; reflexivity).
  assert (H2 : pc_signaling (svc_pc demo_connected) = Stable) by (vm_compute; reflexivity).
  assert (H3 : cl_service demo_answered = mkPeerService (Some (svc_pc demo_answered)))
    by (vm_compute; reflexivity).
  assert (H4 : pc_signaling (svc_pc demo_answered) ≠ Closed) by (vm_compute; discriminate).
  assert (Q1 : quiet (svc_pc demo_connected)) by (split; vm_compute; reflexivity).
  assert (Q2 : quiet (svc_pc demo_answered)) by (split; vm_compute; reflexivity).
  split_and!; [exact H1|exact H2|exact H3|exact H4|].
  exact (negotiation_round demo_connected demo_answered _ _ Q1 Q2 H1 H2 H3 H4).
Defined.

Lemma listener_await_bounds_witness :
  cl_page demo_callee = RoomPage "42"
  ∧ ¬ awaits_le 3 (on_message (IncomingCall 1 (Some (describe SdpOffer (new_pc [] 1)))) demo_callee).
Proof.
  assert (Hp : cl_page demo_callee = RoomPage "42") by reflexivity.
  split; [exact Hp|].
  exact (proj2 (proj2 (proj2 listener_await_bounds)) 1 _ demo_callee "42" Hp).
Defined.

End Room.
