(* ===== verification/Lobby.v ===== *)
(** * Lobby: the lobby page's form ([Lobby.jsx], lines 32-47) and what
    the browser does when it is submitted.

    The form has an [<input type='email'>] bound to [email], an
    [<input type='text'>] bound to [room], and a [<button>] (a submit
    button by default). Clicking it runs the browser's interactive
    constraint validation before any [submit] event: an e-mail input whose
    value is not empty and is not a valid e-mail address (HTML Living
    Standard, 4.10.5.1.5) suffers from a type mismatch and blocks the
    submission; neither input is [required], and a text input has no
    constraint, so empty values are submitted. Only a submission that
    passes reaches [handleSubmitForm]. *)

From stdpp Require Import base list strings.
From Stdlib Require Import Ascii.
From Stdlib Require String.
From S2P Require Import Prelude Async Rtc Peer Room.
Import Room.

Module Lobby.

(** ** What the lobby shows *)

(** The rendered form: the two inputs' values ([value={email}],
    [value={room}]). *)
Record lobby_view := mkLobbyView { lv_email : string; lv_room : string }.

Definition lobby_render (c : client) : lobby_view :=
  mkLobbyView c.(cl_form).(lf_email) c.(cl_form).(lf_room).

(** ** The browser's e-mail check *)

Definition in_range (lo hi : ascii) (a : ascii) : bool :=
  (nat_of_ascii lo <=? nat_of_ascii a) && (nat_of_ascii a <=? nat_of_ascii hi).

Definition is_alnum (a : ascii) : bool :=
  in_range "a" "z" a || in_range "A" "Z" a || in_range "0" "9" a.

(** [atext] of the local part: letters, digits and these symbols. *)
Definition is_atext (a : ascii) : bool :=
  is_alnum a || existsb (Ascii.eqb a) (String.list_ascii_of_string ".!#$%&'*+/=?^_`{|}~-").

(** Split at the first occurrence of [sep]. *)
Fixpoint split_first (sep : ascii) (s : list ascii) : list ascii * option (list ascii) :=
  match s with
  | [] => ([], None)
  | a :: s' =>
      if Ascii.eqb a sep then ([], Some s')
      else let (l, r) := split_first sep s' in (a :: l, r)
  end.

(** Split at every occurrence of [sep]. *)
Fixpoint split_all (sep : ascii) (s : list ascii) : list (list ascii) :=
  match s with
  | [] => [[]]
  | a :: s' =>
      if Ascii.eqb a sep then [] :: split_all sep s'
      else match split_all sep s' with
           | l :: ls => (a :: l) :: ls
           | [] => [[a]]
           end
  end.

(** A domain label: 1 to 63 letters, digits or hyphens, starting and
    ending with a letter or digit. *)
Definition valid_label (l : list ascii) : bool :=
  match l, last l with
  | a :: _, Some z =>
      (length l <=? 63) && is_alnum a && is_alnum z
      && forallb (λ b, is_alnum b || Ascii.eqb b "-") l
  | _, _ => false
  end.

(** The standard's "valid e-mail address": [1*atext "@" label *("." label)]. *)
Definition valid_email (s : string) : bool :=
  match split_first "@" (String.list_ascii_of_string s) with
  | (loc, Some dom) =>
      negb (bool_decide (loc = [])) && forallb is_atext loc && forallb valid_label (split_all "." dom)
  | (_, None) => false
  end.

(** Clicking Join submits the form unless the e-mail input suffers from
    a type mismatch. *)
Definition form_submits (f : lobby_form) : bool :=
  bool_decide (f.(lf_email) = "") || valid_email f.(lf_email).

#[global] Arguments form_submits : simpl never.

(** ** Lemmas *)

Lemma form_submits_spec f :
  form_submits f = true ↔ f.(lf_email) = "" ∨ valid_email f.(lf_email) = true.
Proof. unfold form_submits. by rewrite orb_true_iff, bool_decide_eq_true. Qed.

Lemma split_first_app sep s l r :
  split_first sep s = (l, Some r) → s = l ++ sep :: r ∧ sep ∉ l.
Proof.
  revert l. induction s as [|a s IH]; intros l; simpl; [done|].
  destruct (Ascii.eqb_spec a sep) as [->|Hne].
  - intros [= <- <-]. split; [done|apply not_elem_of_nil].
  - destruct (split_first sep s) as [l' r'] eqn:E. intros [= <- ->].
    destruct (IH l' eq_refl) as [-> Hl]. split; [done|]. rewrite elem_of_cons. naive_solver.
Qed.

(** A valid address has a non-empty local part before its first ['@']. *)
Lemma valid_email_at s :
  valid_email s = true → ∃ loc dom, String.list_ascii_of_string s = loc ++ "@"%char :: dom ∧ loc ≠ [].
Proof.
  unfold valid_email. destruct (split_first _ _) as [loc [dom|]] eqn:E; [|done].
  intros [[Hl _]%andb_prop _]%andb_prop. apply negb_true_iff, bool_decide_eq_false in Hl.
  apply split_first_app in E as [-> _]. eauto.
Qed.

(** The empty address is not valid, so an empty e-mail input submits only
    because it is empty. *)
Lemma valid_email_empty : valid_email "" = false.
Proof. reflexivity. Qed.

End Lobby.
