(* ===== verification/Relay.v ===== *)
(** * Relay: the signaling server (room directory and message relay).

    The server is not under [src/]; it is modelled from the spec
    (sections 4.1, 4.2 and 6) and from the message names and payloads the
    client uses ([Room.c2s], [Room.s2c]):
    - the room directory maps a room id to its occupants in join order
      (at most two), each participant to its room, and keeps the e-mail
      given at join; [join] rejects a third participant with [RoomFull]
      (no eviction), [leave] is idempotent and deletes an emptied room;
      a participant that joins again first leaves its previous room;
    - the relay forwards [user:call], [call:accepted], [peer:nego:needed]
      and [peer:nego:done] to their [to] as [incoming:call],
      [call:accepted], [peer:nego:needed] and [peer:nego:final] with the
      sender as [from], iff [to] is connected; otherwise the message is
      dropped without notice. It checks neither rooms nor peers.
    [handle_c2s] is the server's reaction to one client message: the new
    directory and the messages it delivers, addressed. *)

From stdpp Require Import base list gmap strings.
From S2P Require Import Prelude Async Rtc Peer Room.
Import Rtc Peer Room.

Module Relay.

Inductive relay_error := RoomFull.

Record server := mkServer {
  sv_rooms : gmap string (list sid);    (** room id → occupants, join order *)
  sv_room_of : gmap sid string;         (** participant → its room *)
  sv_email : gmap sid string;           (** participant → e-mail given at join *)
  sv_connected : gset sid }.            (** live socket ids *)

Definition empty_server : server := mkServer ∅ ∅ ∅ ∅.

Definition occupants (room : string) (sv : server) : list sid :=
  default [] (sv.(sv_rooms) !! room).

(** [lookupRoom(participantId)]. *)
Definition lookupRoom (s : sid) (sv : server) : option string := sv.(sv_room_of) !! s.

(** A connection arrives: the relay issues its id. *)
Definition connect (s : sid) (sv : server) : server :=
  mkServer sv.(sv_rooms) sv.(sv_room_of) sv.(sv_email) ({[s]} ∪ sv.(sv_connected)).

(** [leave(participantId)]: idempotent; an emptied room is deleted. *)
Definition leave (s : sid) (sv : server) : server :=
  match sv.(sv_room_of) !! s with
  | None => sv
  | Some r =>
      let occ' := filter (fun x => x ≠ s) (occupants r sv) in
      mkServer
        (if decide (occ' = []) then delete r sv.(sv_rooms) else <[r := occ']> sv.(sv_rooms))
        (delete s sv.(sv_room_of)) sv.(sv_email) sv.(sv_connected)
  end.

(** [join(roomId, participantId)]: the occupants before the newcomer, or
    [RoomFull] with nothing changed. *)
Definition join (s : sid) (email room : string) (sv : server) : (list sid + relay_error) * server :=
  let sv0 := leave s sv in
  let occ := occupants room sv0 in
  if decide (2 ≤ length occ) then (inr RoomFull, sv)
  else (inl occ, mkServer (<[room := occ ++ [s]]> sv0.(sv_rooms)) (<[s := room]> sv0.(sv_room_of))
                   (<[s := email]> sv0.(sv_email)) sv0.(sv_connected)).

(** The connection drops: the participant leaves and is no longer reachable. *)
Definition disconnect (s : sid) (sv : server) : server :=
  let sv0 := leave s sv in
  mkServer sv0.(sv_rooms) sv0.(sv_room_of) sv0.(sv_email) (sv0.(sv_connected) ∖ {[s]}).

(** The relayed form of a client message, addressed. *)
Definition route (from : sid) (m : c2s) : option (sid * s2c) :=
  match m with
  | RoomJoin _ _ => None
  | UserCall to offer => (fun t => (t, IncomingCall from offer)) <$> to
  | CallAccepted to ans => (fun t => (t, CallAcceptedIn from ans)) <$> to
  | NegoNeeded to offer => (fun t => (t, NegoNeededIn from offer)) <$> to
  | NegoDone to ans => (fun t => (t, NegoFinal from ans)) <$> to
  end.

(** Delivery to a connected participant only; otherwise dropped. *)
Definition deliver (sv : server) (d : option (sid * s2c)) : list (sid * s2c) :=
  match d with
  | Some (t, m) => if decide (t ∈ sv.(sv_connected)) then [(t, m)] else []
  | None => []
  end.

(** The server's reaction to one message from [from]. A join acknowledges
    with [room:join] and announces the newcomer with [user:joined] to every
    previous occupant; a refused join delivers nothing the client listens
    to. Every other message is relayed. *)
Definition handle_c2s (from : sid) (m : c2s) (sv : server) : server * list (sid * s2c) :=
  match m with
  | RoomJoin email room =>
      match join from email room sv with
      | (inl peers, sv') =>
          (sv', (from, RoomJoined email room) :: ((fun p => (p, UserJoined email from)) <$> peers))
      | (inr RoomFull, sv') => (sv', [])
      end
  | _ => (sv, deliver sv (route from m))
  end.

(** ** The directory invariant *)

(** Every room is non-empty, holds at most two participants, each once,
    each recorded as being in that room; every recorded participant is in
    the occupants of its room. *)
Definition relay_wf (sv : server) : Prop :=
  (∀ r occ, sv.(sv_rooms) !! r = Some occ →
     occ ≠ [] ∧ length occ ≤ 2 ∧ NoDup occ ∧ ∀ x, x ∈ occ → sv.(sv_room_of) !! x = Some r)
  ∧ (∀ x r, sv.(sv_room_of) !! x = Some r → x ∈ occupants r sv).

Lemma relay_wf_alt sv : relay_wf sv ↔
  map_Forall (λ r occ, occ ≠ [] ∧ length occ ≤ 2 ∧ NoDup occ ∧
                Forall (λ x, sv.(sv_room_of) !! x = Some r) occ) sv.(sv_rooms)
  ∧ map_Forall (λ x r, x ∈ occupants r sv) sv.(sv_room_of).
Proof. unfold relay_wf, map_Forall. by setoid_rewrite Forall_forall. Qed.

(** The invariant is decidable, so it can be checked on a concrete
    directory by evaluation. *)
#[export] Instance relay_wf_dec sv : Decision (relay_wf sv).
Proof.
  refine (cast_if (decide (
    map_Forall (λ r occ, occ ≠ [] ∧ length occ ≤ 2 ∧ NoDup occ ∧
                  Forall (λ x, sv.(sv_room_of) !! x = Some r) occ) sv.(sv_rooms)
    ∧ map_Forall (λ x r, x ∈ occupants r sv) sv.(sv_room_of)))); by rewrite relay_wf_alt.
Defined.

Lemma relay_wf_empty : relay_wf empty_server.
Proof. split; [intros r occ H|intros x r H]; simpl in H; rewrite lookup_empty in H; discriminate. Qed.

Lemma occupants_lookup r sv x : x ∈ occupants r sv → sv.(sv_rooms) !! r = Some (occupants r sv).
Proof. unfold occupants. destruct (sv_rooms sv !! r); simpl; [done|set_solver]. Qed.

Lemma wf_not_in_room sv s r : relay_wf sv → sv.(sv_room_of) !! s = None → s ∉ occupants r sv.
Proof.
  intros [Hr _] Hs Hin. pose proof (occupants_lookup _ _ _ Hin) as Hl.
  destruct (Hr _ _ Hl) as (_ & _ & _ & Hx). rewrite (Hx s Hin) in Hs. done.
Qed.

Lemma leave_room_of s sv : (leave s sv).(sv_room_of) !! s = None.
Proof. unfold leave. destruct (sv_room_of sv !! s) eqn:Hs; simpl; [apply lookup_delete_eq|done]. Qed.

Lemma leave_wf s sv : relay_wf sv → relay_wf (leave s sv).
Proof.
  intros Hwf. pose proof Hwf as [Hr Hx]. unfold leave.
  destruct (sv_room_of sv !! s) as [r|] eqn:Hs; [|done].
  pose proof (Hx s r Hs) as Hsr. pose proof (occupants_lookup _ _ _ Hsr) as Hlr.
  destruct (Hr r _ Hlr) as (_ & Hlen & Hnd & Hin).
  set (occ' := filter (λ x, x ≠ s) (occupants r sv)).
  assert (Hocc' : ∀ x, x ∈ occ' ↔ x ∈ occupants r sv ∧ x ≠ s)
    by (intros x; unfold occ'; rewrite list_elem_of_filter; tauto).
  split; simpl.
  - intros r0 occ0 Hl0.
    destruct (decide (r0 = r)) as [->|Hne].
    + case_decide as Hemp; [by rewrite lookup_delete_eq in Hl0|].
      rewrite lookup_insert_eq in Hl0. injection Hl0 as <-. split_and!.
      * done.
      * etrans; [apply length_filter|done].
      * by apply NoDup_filter.
      * intros x [Hxo Hxs]%Hocc'. rewrite lookup_delete_ne by done. by apply Hin.
    + assert (sv_rooms sv !! r0 = Some occ0) as Hl0'
        by (case_decide; [by rewrite lookup_delete_ne in Hl0|by rewrite lookup_insert_ne in Hl0]).
      destruct (Hr _ _ Hl0') as (? & ? & ? & Hin0). split_and!; try done.
      intros x Hx0. rewrite lookup_delete_ne; [by apply Hin0|].
      intros Hxs. subst x. rewrite (Hin0 s Hx0) in Hs. congruence.
  - intros x r0 Hl. apply lookup_delete_Some in Hl as [Hxs Hl].
    pose proof (Hx x r0 Hl) as Hxo. unfold occupants; simpl.
    destruct (decide (r0 = r)) as [->|Hne].
    + assert (x ∈ occ') as Hx' by (apply Hocc'; split; done).
      case_decide as Hemp; [rewrite Hemp in Hx'; set_solver|].
      by rewrite lookup_insert_eq.
    + case_decide; [rewrite lookup_delete_ne by done|rewrite lookup_insert_ne by done]; done.
Qed.

Lemma wf_occupants sv r : relay_wf sv →
  NoDup (occupants r sv) ∧ length (occupants r sv) ≤ 2 ∧
  ∀ x, x ∈ occupants r sv → sv.(sv_room_of) !! x = Some r.
Proof.
  intros [Hr _]. unfold occupants. destruct (sv_rooms sv !! r) as [occ|] eqn:Hl; simpl.
  - by destruct (Hr _ _ Hl) as (_ & ? & ? & ?).
  - split_and!; [constructor|simpl; lia|set_solver].
Qed.

Lemma join_wf s email room sv : relay_wf sv → relay_wf (join s email room sv).2.
Proof.
  intros Hwf. unfold join. set (sv0 := leave s sv).
  pose proof (leave_wf s sv Hwf) as Hwf0. fold sv0 in Hwf0.
  pose proof (leave_room_of s sv) as Hs0. fold sv0 in Hs0.
  case_decide as Hfull; [done|]. simpl.
  pose proof (wf_occupants _ room Hwf0) as (Hnd & _ & Hin).
  pose proof (wf_not_in_room _ s room Hwf0 Hs0) as Hns.
  destruct Hwf0 as [Hr Hx]. split; simpl.
  - intros r0 occ0 Hl0. destruct (decide (r0 = room)) as [->|Hne].
    + rewrite lookup_insert_eq in Hl0. injection Hl0 as <-. split_and!.
      * by destruct (occupants room sv0).
      * rewrite length_app; simpl; lia.
      * apply NoDup_app; split_and!; [done| |apply NoDup_singleton]. set_solver.
      * intros x [Hxo| ->%list_elem_of_singleton]%elem_of_app;
          [|apply lookup_insert_eq].
        rewrite lookup_insert_ne by (intros ->; done). by apply Hin.
    + rewrite lookup_insert_ne in Hl0 by done.
      destruct (Hr _ _ Hl0) as (? & ? & ? & Hin0). split_and!; try done.
      intros x Hx0. rewrite lookup_insert_ne; [by apply Hin0|].
      intros Hxs. subst x. rewrite (Hin0 s Hx0) in Hs0. done.
  - intros x r0 Hl. unfold occupants; simpl.
    destruct (decide (x = s)) as [->|Hxs].
    + rewrite lookup_insert_eq in Hl. injection Hl as <-.
      rewrite lookup_insert_eq; simpl. set_solver.
    + rewrite lookup_insert_ne in Hl by done. pose proof (Hx _ _ Hl) as Hxo.
      destruct (decide (r0 = room)) as [->|Hne].
      * rewrite lookup_insert_eq; simpl. set_solver.
      * by rewrite lookup_insert_ne.
Qed.

Lemma connect_wf s sv : relay_wf sv → relay_wf (connect s sv).
Proof. done. Qed.

Lemma disconnect_wf s sv : relay_wf sv → relay_wf (disconnect s sv).
Proof. apply leave_wf. Qed.

Lemma leave_occupants_other s room sv :
  lookupRoom s sv ≠ Some room → occupants room (leave s sv) = occupants room sv.
Proof.
  unfold lookupRoom, leave, occupants. intros Hs.
  destruct (sv_room_of sv !! s) as [r|]; [|done]. simpl.
  assert (r ≠ room) by congruence.
  case_decide; [by rewrite lookup_delete_ne|by rewrite lookup_insert_ne].
Qed.

(** [leave] is idempotent (spec 4.1). *)
Lemma leave_again s sv : leave s (leave s sv) = leave s sv.
Proof. unfold leave at 1. by rewrite leave_room_of. Qed.

(** The relay contract of spec 4.2: which client message is forwarded to
    whom, and as which server message. *)
Inductive relayed (from : sid) : c2s → sid → s2c → Prop :=
| relayed_call to o : relayed from (UserCall (Some to) o) to (IncomingCall from o)
| relayed_accepted to a : relayed from (CallAccepted (Some to) a) to (CallAcceptedIn from a)
| relayed_nego to o : relayed from (NegoNeeded (Some to) o) to (NegoNeededIn from o)
| relayed_done to a : relayed from (NegoDone (Some to) a) to (NegoFinal from a).

Lemma route_relayed from m t m' : route from m = Some (t, m') ↔ relayed from m t m'.
Proof.
  split.
  - destruct m as [|[]|[]|[]|[]]; simpl; intros; simplify_eq; constructor.
  - by intros [].
Qed.

(** Every message the relay handles keeps the directory well formed. *)
Lemma handle_c2s_wf from m sv : relay_wf sv → relay_wf (handle_c2s from m sv).1.
Proof.
  intros Hwf. destruct m as [email room| | | |]; simpl; try done.
  pose proof (join_wf from email room sv Hwf) as Hj.
  destruct (join from email room sv) as [[peers|[]] sv']; done.
Qed.

(** The outcome of a join that succeeds. *)
Lemma handle_join_spec s email room sv :
  lookupRoom s sv ≠ Some room → length (occupants room sv) < 2 →
  let r := handle_c2s s (RoomJoin email room) sv in
  r.2 = (s, RoomJoined email room) :: ((λ p, (p, UserJoined email s)) <$> occupants room sv)
  ∧ occupants room r.1 = occupants room sv ++ [s] ∧ lookupRoom s r.1 = Some room.
Proof.
  intros Hs Hlen. simpl. unfold join. rewrite leave_occupants_other by done.
  case_decide; [lia|]. split_and!; [done| |];
    unfold occupants at 1, lookupRoom; simpl; by rewrite lookup_insert_eq.
Qed.

(** In a well-formed directory, a participant is an occupant of exactly
    the room it is recorded in. *)
Lemma wf_not_occupant s room sv :
  relay_wf sv → lookupRoom s sv ≠ Some room → s ∉ occupants room sv.
Proof.
  intros Hwf Hs Hin. destruct (wf_occupants sv room Hwf) as (_ & _ & Hx). by apply Hs, Hx.
Qed.

(** ** Claims *)


(** C16: a join to a room that already holds two other participants is
    refused: the directory is left as it was (no eviction, the joiner does
    not even leave its previous room) and nothing is delivered. *)
Theorem join_full_rejected s email room sv :
  lookupRoom s sv ≠ Some room → length (occupants room sv) = 2 →
  handle_c2s s (RoomJoin email room) sv = (sv, []).
Proof.
  intros Hs Hlen. simpl. unfold join. rewrite leave_occupants_other by done.
  case_decide; [done|lia].
Qed.

(** C17: a successful join of [s] to a room with fewer than two other
    participants acknowledges to [s], announces [s] with its e-mail to each
    previous occupant, in join order, and appends [s] to the room. *)
Theorem join_announces s email room sv :
  lookupRoom s sv ≠ Some room → length (occupants room sv) < 2 →
  let r := handle_c2s s (RoomJoin email room) sv in
  r.2 = (s, RoomJoined email room) :: ((λ p, (p, UserJoined email s)) <$> occupants room sv)
  ∧ occupants room r.1 = occupants room sv ++ [s] ∧ lookupRoom s r.1 = Some room.
Proof. apply handle_join_spec. Qed.

(** C18: every message other than a join is forwarded by the contract of
    spec 4.2: the directory is unchanged, at most one message is delivered,
    and a message reaches [t] exactly when [t] is connected and is the
    addressee, with the sender as [from] and the payload unchanged. *)
Theorem relay_forwards from m sv :
  (∀ email room, m ≠ RoomJoin email room) →
  (handle_c2s from m sv).1 = sv ∧ length (handle_c2s from m sv).2 ≤ 1 ∧
  ∀ t m', (t, m') ∈ (handle_c2s from m sv).2 ↔ t ∈ sv.(sv_connected) ∧ relayed from m t m'.
Proof.
  intros Hm. assert ((handle_c2s from m sv) = (sv, deliver sv (route from m))) as ->
    by (destruct m; [exfalso; by eapply Hm| ..]; done).
  simpl. split_and!; [done| |].
  - destruct (route from m) as [[t m']|]; simpl; [case_decide|]; simpl; lia.
  - intros t m'. rewrite <- route_relayed. destruct (route from m) as [[t0 m0]|]; simpl.
    + case_decide; rewrite ?list_elem_of_singleton, ?elem_of_nil; naive_solver.
    + rewrite elem_of_nil. naive_solver.
Qed.

(** ** The scenario of spec 8, on the relay: A (1) and B (2) join room
    ["42"]; A's [user:call], as its room page emits it, reaches B. *)

Definition demo_sv0 : server := connect 2 (connect 1 empty_server).
Definition demo_sv1 : server := (handle_c2s 1 (RoomJoin "a@x" "42") demo_sv0).1.
Definition demo_sv2 : server := (handle_c2s 2 (RoomJoin "b@x" "42") demo_sv1).1.
Definition demo_sv3 : server := connect 3 demo_sv2.
Definition demo_call : c2s :=
  match cl_outbox demo_called with [m] => m | _ => RoomJoin "" "" end.


Lemma join_full_rejected_witness :
  lookupRoom 3 demo_sv3 ≠ Some "42" ∧ length (occupants "42" demo_sv3) = 2 ∧
  handle_c2s 3 (RoomJoin "c@x" "42") demo_sv3 = (demo_sv3, []).
Proof.
  assert (H1 : lookupRoom 3 demo_sv3 ≠ Some "42") by (vm_compute; discriminate).
  assert (H2 : length (occupants "42" demo_sv3) = 2) by (vm_compute; reflexivity).
  split_and!; [exact H1|exact H2|exact (join_full_rejected 3 "c@x" "42" demo_sv3 H1 H2)].
Defined.

Lemma join_announces_witness :
  lookupRoom 2 demo_sv1 ≠ Some "42" ∧ length (occupants "42" demo_sv1) < 2 ∧
  (handle_c2s 2 (RoomJoin "b@x" "42") demo_sv1).2 =
    [(2, RoomJoined "b@x" "42"); (1, UserJoined "b@x" 2)].
Proof.
  assert (H1 : lookupRoom 2 demo_sv1 ≠ Some "42") by (vm_compute; discriminate).
  assert (H2 : length (occupants "42" demo_sv1) < 2) by (vm_compute; lia).
  split_and!; [exact H1|exact H2|].
  destruct (join_announces 2 "b@x" "42" demo_sv1 H1 H2) as [-> _].
  vm_compute; reflexivity.
Defined.

Lemma relay_forwards_witness :
  (∀ email room, demo_call ≠ RoomJoin email room) ∧
  (1, IncomingCall 2 demo_offer) ∉ (handle_c2s 1 demo_call demo_sv2).2 ∧
  (2, IncomingCall 1 demo_offer) ∈ (handle_c2s 1 demo_call demo_sv2).2.
Proof.
  assert (Hm : ∀ email room, demo_call ≠ RoomJoin email room)
    by (intros ??; vm_compute; discriminate).
  destruct (relay_forwards 1 demo_call demo_sv2 Hm) as (_ & _ & Hd).
  split_and!; [exact Hm| rewrite Hd; intros [_ Hr]; inversion Hr |].
  apply Hd. split; [vm_compute; set_solver|].
  assert (E : demo_call = UserCall (Some 2) demo_offer) by (vm_compute; reflexivity).
  rewrite E. constructor.
Defined.

End Relay.
