(* ===== verification/Negotiation.v ===== *)
(** * Negotiation: the call state machine of the spec (section 4.4) read
    off the connection the code drives.

    The spec describes each endpoint of a call by an abstract state
    ([Idle], [Offering], [Answering], [Connected], [Negotiating],
    [Terminated]) and a table of transitions ([spec_edge]). The code keeps
    no such state: it is a function of the connection's signaling state
    and of whether a remote description has ever been applied
    ([call_state_of]). This file gives that abstraction, the transitions
    the engine operations can make ([code_edge]: the spec's table without
    termination, plus one edge the table does not have, a local offer
    replaced by a remote one), and proves that every step of every
    listener of the pages moves the abstract state along [code_edge] only,
    keeping the connection well formed ([good_body]). *)

From stdpp Require Import base list relations.
From S2P Require Import Prelude Async Rtc Peer Room.
Import Rtc Peer Room.

Module Negotiation.

Inductive call_state := Idle | Offering | Answering | Connected | Negotiating | Terminated.

#[export] Instance call_state_eq_dec : EqDecision call_state.
Proof. solve_decision. Defined.

(** The abstraction: a connection with no current remote description has
    not completed a first exchange. [have-remote-offer] after a first
    exchange is the answering half of a renegotiation, which the spec
    keeps in [Connected]. *)
Definition call_state_of (p : pc) : call_state :=
  match p.(pc_signaling), p.(pc_current_remote) with
  | Closed, _ => Terminated
  | Stable, None => Idle
  | Stable, Some _ => Connected
  | HaveLocalOffer, None => Offering
  | HaveLocalOffer, Some _ => Negotiating
  | HaveRemoteOffer, None => Answering
  | HaveRemoteOffer, Some _ => Connected
  end.

Definition service_state (s : PeerService) : call_state :=
  match s.(peer) with Some p => call_state_of p | None => Idle end.

Definition client_state (c : client) : call_state := service_state c.(cl_service).

(** The transitions of the spec's table, triggers left out. *)
Inductive spec_edge : call_state → call_state → Prop :=
  | spec_call : spec_edge Idle Offering
  | spec_offer_in : spec_edge Idle Answering
  | spec_answer_sent : spec_edge Answering Connected
  | spec_answer_in : spec_edge Offering Connected
  | spec_nego : spec_edge Connected Negotiating
  | spec_nego_in : spec_edge Connected Connected
  | spec_nego_answer : spec_edge Negotiating Connected
  | spec_end s : s ≠ Terminated → spec_edge s Terminated.

(** The transitions the engine operations make. *)
Inductive code_edge : call_state → call_state → Prop :=
  | code_call : code_edge Idle Offering
  | code_offer_in : code_edge Idle Answering
  | code_answer_sent : code_edge Answering Connected
  | code_answer_in : code_edge Offering Connected
  | code_nego : code_edge Connected Negotiating
  | code_nego_answer : code_edge Negotiating Connected
  | code_offer_replaced : code_edge Offering Answering.

#[export] Hint Constructors code_edge : rtc.

(** At most one transition. *)
Definition state_step (s t : call_state) : Prop := s = t ∨ code_edge s t.

(** What an engine operation must do to the abstraction: keep the
    connection well formed and make at most one transition. *)
Definition op_ok {X} (f : pc → res X * pc) : Prop :=
  ∀ p, wf p → wf (f p).2 ∧ state_step (call_state_of p) (call_state_of (f p).2).

(** The invariant of a service, relative to a starting abstract state. *)
Definition svc_inv (a : call_state) (s : PeerService) : Prop :=
  ps_wf s ∧ rtc code_edge a (service_state s).

Definition cl_inv (a : call_state) (c : client) : Prop := svc_inv a c.(cl_service).

(** A body every step of which keeps [cl_inv a], for every [a]. *)
Definition good_body {A} (m : async client A) : Prop := ∀ a, preserves (cl_inv a) m.

Ltac state_step := first [left; reflexivity | right; constructor].

(** ** The engine operations *)

Lemma state_of_core p q : same_core p q → call_state_of q = call_state_of p.
Proof. intros (Hs & _ & _ & _ & Hcr & _). unfold call_state_of. by rewrite Hs, Hcr. Qed.

Lemma update_nego_state p : call_state_of (update_nego p) = call_state_of p.
Proof. apply state_of_core, update_nego_core. Qed.

Lemma receive_tracks_state d p : call_state_of (receive_tracks d p) = call_state_of p.
Proof. reflexivity. Qed.

#[export] Hint Rewrite update_nego_state receive_tracks_state : rtc_run.

Lemma op_ok_same {X} (f : pc → res X * pc) :
  (∀ p, wf p → wf (f p).2) → (∀ p, call_state_of (f p).2 = call_state_of p) → op_ok f.
Proof. intros Hw Hs p Hp. split; [auto|left; by rewrite Hs]. Qed.

Lemma createOffer_op : op_ok createOffer.
Proof.
  apply op_ok_same; [apply createOffer_wf|].
  intros p. unfold createOffer. case_decide; [apply state_of_core, with_created_core|done].
Qed.

Lemma createAnswer_op : op_ok createAnswer.
Proof.
  apply op_ok_same; [apply createAnswer_wf|].
  intros p. unfold createAnswer. case_decide; [apply state_of_core, with_created_core|done].
Qed.

Lemma addTrack_state t ss p : call_state_of (addTrack t ss p).2 = call_state_of p.
Proof. unfold addTrack. rtc_cases. by rewrite update_nego_state. Qed.

Lemma addTrack_op t ss : op_ok (addTrack t ss).
Proof. apply op_ok_same; [apply addTrack_wf|apply addTrack_state]. Qed.

Lemma setLocalDescription_op d : op_ok (Rtc.setLocalDescription d).
Proof.
  intros p Hp. split; [by apply Rtc.setLocalDescription_wf|].
  destruct Hp as (_ & _ & Hsig). unfold Rtc.setLocalDescription, wf_signaling in *.
  destruct p as [cfg ses [] pl pr cl [cr|] lo la v ss rs nn evs], d as [[] ds dv dm];
    simpl in *; rtc_cases; rewrite ?update_nego_state; unfold call_state_of; simpl;
    try state_step; destruct Hsig as (_ & o & -> & _); state_step.
Qed.

Lemma setRemoteDescription_op d : op_ok (Rtc.setRemoteDescription d).
Proof.
  intros p Hp. split; [by apply Rtc.setRemoteDescription_wf|].
  unfold Rtc.setRemoteDescription.
  destruct p as [cfg ses [] pl pr cl [cr|] lo la v ss rs nn evs], d as [[] ds dv dm];
    simpl; rewrite ?update_nego_state, ?receive_tracks_state; unfold call_state_of;
    simpl; state_step.
Qed.

Lemma take_event_state p ev p' :
  take_event p = Some (ev, p') → call_state_of p' = call_state_of p.
Proof. unfold take_event. intros H. repeat case_match; simplify_eq; try case_decide; simplify_eq; done. Qed.

#[export] Hint Resolve createOffer_op createAnswer_op addTrack_op setLocalDescription_op
  setRemoteDescription_op : rtc.

(** ** The service's methods *)

Lemma rtc_state_step a s t : rtc code_edge a s → state_step s t → rtc code_edge a t.
Proof. intros Ha [<-|Hst]; [done|by eapply rtc_r]. Qed.

Lemma call_peer_inv {X} (f : pc → res X * pc) a s :
  op_ok f → svc_inv a s → svc_inv a (call_peer f s).2.
Proof.
  intros Hf [Hw Hr]. destruct s as [[p|]]; unfold call_peer, svc_inv, ps_wf, service_state in *;
    simpl in *; [|done].
  destruct (Hf p Hw) as [Hw' Hst]. destruct (f p); simpl in *.
  split; [done|]. by eapply rtc_state_step.
Qed.

#[export] Hint Resolve call_peer_inv : rtc.

(** Chaining an operation and taking it off the chain do not move the
    abstract state; the operation in between makes its own transition. *)
Lemma begin_op_op : op_ok (λ p, (Ok tt, begin_op p)).
Proof. apply op_ok_same; [intros; by apply begin_op_wf|intros p; apply state_of_core, with_chain_core]. Qed.

Lemma chained_op_ok {X} (op : pc → res X * pc) : op_ok op → op_ok (chained op).
Proof.
  intros Hop p Hp. destruct (Hop p Hp) as [Hw Hst]. unfold chained.
  destruct (op p) as [r q]; simpl in *. split.
  - by eapply wf_same_core; [apply end_op_core|].
  - by rewrite (state_of_core _ _ (end_op_core q)).
Qed.

Lemma chain_op_inv {X} a (op : pc → res X * pc) : op_ok op → preserves (svc_inv a) (chain_op op).
Proof.
  intros Hop. unfold chain_op. apply preserves_bind; [apply preserves_sync|intros _].
  - intros s. apply call_peer_inv, begin_op_op.
  - apply preserves_await. intros s. by apply call_peer_inv, chained_op_ok.
Qed.

#[export] Hint Resolve chain_op_inv : rtc.

Lemma getOffer_inv a : preserves (svc_inv a) getOffer.
Proof. unfold getOffer. solve_preserves; eauto with rtc. Qed.

Lemma getAnswer_inv a d : preserves (svc_inv a) (getAnswer d).
Proof. unfold getAnswer. solve_preserves; eauto with rtc. Qed.

Lemma setRemoteDescription_inv a d : preserves (svc_inv a) (Peer.setRemoteDescription d).
Proof. unfold Peer.setRemoteDescription. solve_preserves; eauto with rtc. Qed.

Lemma setLocalDescription_inv a d : preserves (svc_inv a) (Peer.setLocalDescription d).
Proof. unfold Peer.setLocalDescription. solve_preserves; eauto with rtc. Qed.

#[export] Hint Resolve getOffer_inv getAnswer_inv setRemoteDescription_inv
  setLocalDescription_inv : rtc.

(** ** The pages' bodies *)

Lemma svc_inv_preserves {A} a (m : async PeerService A) :
  preserves (svc_inv a) m → preserves (cl_inv a) (svc m).
Proof. apply (preserves_zoom cl_service set_service get_set_service). Qed.

Lemma room_tracks_loop_state st ts p :
  call_state_of (room_tracks_loop st ts p) = call_state_of p.
Proof.
  revert p. induction ts as [|t ts IH]; intros p; simpl; [done|].
  by rewrite IH, addTrack_state.
Qed.

Lemma room_add_tracks_inv a st s : svc_inv a s → svc_inv a (room_add_tracks st s).
Proof.
  intros [Hw Hr]. split; [by apply room_add_tracks_wf|].
  destruct s as [[p|]]; unfold service_state in *; simpl in *; [|done].
  by rewrite room_tracks_loop_state.
Qed.

#[export] Hint Resolve svc_inv_preserves room_add_tracks_inv : rtc.

Ltac good_body_steps :=
  intros a; solve_preserves; eauto with rtc;
  unfold cl_inv, getUserMedia, setRemoteStream in *; rtc_cases; eauto with rtc.

Lemma handleCallUser_good : good_body handleCallUser.
Proof. unfold handleCallUser, modify. good_body_steps. Qed.

Lemma on_message_good m c : good_body (on_message m c).
Proof.
  destruct (cl_page c), m; unfold on_message, room_on_message, lobby_on_message,
    handleUserJoined, handleIncomingCall, handleCallAccepted, handleNegotiationIncoming,
    handleNegotiationFinal, handleJoinRoom, modify; good_body_steps.
Qed.

Lemma room_on_event_good ev : good_body (room_on_event ev).
Proof.
  destruct ev; unfold room_on_event, handleNegotiationNeeded, handleTrack, modify;
    good_body_steps.
Qed.

Lemma handleSubmitForm_good : good_body handleSubmitForm.
Proof. unfold handleSubmitForm, modify. good_body_steps. Qed.

#[export] Hint Resolve handleCallUser_good on_message_good room_on_event_good
  handleSubmitForm_good : rtc.

(** ** The code's transitions against the spec's table *)

(** The spec's table, with the one transition the code adds. *)
Definition spec_or_replaced (s t : call_state) : Prop :=
  spec_edge s t ∨ (s = Offering ∧ t = Answering).

Lemma code_edge_spec s t : code_edge s t → spec_or_replaced s t.
Proof. destruct 1; first [by left; constructor | by right]. Qed.

Lemma rtc_code_edge_spec s t : rtc code_edge s t → rtc spec_or_replaced s t.
Proof. induction 1; [constructor|eapply rtc_l; eauto using code_edge_spec]. Qed.

Lemma rtc_code_edge_live s t : rtc code_edge s t → s ≠ Terminated → t ≠ Terminated.
Proof. induction 1 as [|x y z Hxy _ IH]; [done|]. intros _. apply IH. by destruct Hxy. Qed.

End Negotiation.
