(* ===== verification/System.v ===== *)
(** * System: the two pages and the relay running together.

    The state of the whole system ([sys]) is every endpoint's client world
    ([Room.client], indexed by its socket id), the tasks suspended at an
    [await] (each with the endpoint it runs on), how many of each
    endpoint's emitted messages the relay has taken, the messages the relay
    has sent to each endpoint and the endpoint has not yet dispatched
    (socket.io keeps both directions of one connection in order), and the
    relay's state ([Relay.server]).

    One step ([exec]) is one of:
    - [RelayNext i]: the relay handles the oldest message of [i] it has not
      handled ([Relay.handle_c2s]) and queues what it delivers;
    - [Dispatch i]: [i]'s socket dispatches its oldest received message to
      the listeners of the page mounted ([Room.on_message]);
    - [FireEvent i]: [i]'s connection dispatches its oldest queued event to
      the room page's listeners ([Room.room_on_event]), or drops it;
    - [Resume n]: the [n]-th suspended task resumes ([Async.resume]);
    - [TypeEmail i v], [TypeRoom i v]: the user edits a lobby input
      ([Room.setEmail], [Room.setRoom]); [Submit i]: the user clicks
      Join: the form is submitted ([Room.handleSubmitForm]) when the
      browser's check of the e-mail input passes ([Lobby.form_submits]),
      and nothing happens otherwise;
    - [ClickCall i]: the Call button, rendered when [remoteSocketId] is
      set ([Room.render], line 171 of [Room.jsx]), is clicked;
    - [Disconnect i]: [i]'s page goes away (tab closed, network lost): the
      relay forgets it ([Relay.disconnect]) and its tasks and queued
      messages are gone.
    A listener or a click starts a task that runs synchronously up to its
    first [await] ([Async.settle]); any enabled step may come next, so every
    interleaving of the endpoints, the relay and the tasks is a path of
    [step]. *)

From stdpp Require Import base list gmap strings relations.
From S2P Require Import Prelude Async Rtc Peer Room Lobby Relay Negotiation.
Import Rtc Peer Room Lobby Relay Negotiation.

Module System.

Record sys := mkSys {
  sy_clients : gmap sid client;
  sy_tasks : list (sid * async client unit);   (** suspended, oldest first *)
  sy_sent : gmap sid nat;                      (** messages of each endpoint relayed *)
  sy_down : gmap sid (list s2c);               (** received, not yet dispatched *)
  sy_server : server }.

Inductive action :=
  | RelayNext (i : sid)
  | Dispatch (i : sid)
  | FireEvent (i : sid)
  | Resume (n : nat)
  | TypeEmail (i : sid) (v : string)
  | TypeRoom (i : sid) (v : string)
  | Submit (i : sid)
  | ClickCall (i : sid)
  | Disconnect (i : sid).

Definition with_client (i : sid) (c : client) (s : sys) : sys :=
  mkSys (<[i := c]> s.(sy_clients)) s.(sy_tasks) s.(sy_sent) s.(sy_down) s.(sy_server).

Definition with_down (down : gmap sid (list s2c)) (s : sys) : sys :=
  mkSys s.(sy_clients) s.(sy_tasks) s.(sy_sent) down s.(sy_server).

(** A task of [i] that has run up to an [await] joins the suspended ones;
    a finished one is dropped (a rejection nobody catches is only
    reported by the browser). *)
Definition park (i : sid) (m : async client unit) (c : client)
    (tasks : list (sid * async client unit)) (s : sys) : sys :=
  mkSys (<[i := c]> s.(sy_clients)) (if suspended m then tasks ++ [(i, m)] else tasks)
    s.(sy_sent) s.(sy_down) s.(sy_server).

(** A listener or handler invoked on [i]. *)
Definition spawn (i : sid) (m : async client unit) (c : client) (s : sys) : sys :=
  let (m', c') := settle m c in park i m' c' s.(sy_tasks) s.

(** The relay's deliveries, appended to each addressee's queue. *)
Definition post (ds : list (sid * s2c)) (down : gmap sid (list s2c)) : gmap sid (list s2c) :=
  foldl (fun d tm => <[tm.1 := default [] (d !! tm.1) ++ [tm.2]]> d) down ds.

Definition exec (a : action) (s : sys) : option sys :=
  match a with
  | RelayNext i =>
      c ← s.(sy_clients) !! i;
      let n := default 0 (s.(sy_sent) !! i) in
      m ← c.(cl_outbox) !! n;
      let (sv', ds) := handle_c2s i m s.(sy_server) in
      Some (mkSys s.(sy_clients) s.(sy_tasks) (<[i := S n]> s.(sy_sent))
              (post ds s.(sy_down)) sv')
  | Dispatch i =>
      c ← s.(sy_clients) !! i;
      match s.(sy_down) !! i with
      | Some (m :: rest) => Some (spawn i (on_message m c) c (with_down (<[i := rest]> s.(sy_down)) s))
      | _ => None
      end
  | FireEvent i =>
      c ← s.(sy_clients) !! i;
      p ← c.(cl_service).(peer);
      match take_event p with
      | Some (oev, p') =>
          let c1 := set_service (mkPeerService (Some p')) c in
          match oev, c.(cl_page) with
          | Some ev, RoomPage _ => Some (spawn i (room_on_event ev) c1 s)
          | _, _ => Some (with_client i c1 s)
          end
      | None => None
      end
  | Resume n =>
      tm ← s.(sy_tasks) !! n;
      c ← s.(sy_clients) !! tm.1;
      let (m', c') := resume tm.2 c in
      Some (park tm.1 m' c' (delete n s.(sy_tasks)) s)
  | TypeEmail i v =>
      c ← s.(sy_clients) !! i;
      match c.(cl_page) with
      | LobbyPage => Some (with_client i (setEmail v c) s)
      | RoomPage _ => None
      end
  | TypeRoom i v =>
      c ← s.(sy_clients) !! i;
      match c.(cl_page) with
      | LobbyPage => Some (with_client i (setRoom v c) s)
      | RoomPage _ => None
      end
  | Submit i =>
      c ← s.(sy_clients) !! i;
      match c.(cl_page) with
      | LobbyPage => if form_submits c.(cl_form) then Some (spawn i handleSubmitForm c s) else Some s
      | RoomPage _ => None
      end
  | ClickCall i =>
      c ← s.(sy_clients) !! i;
      match c.(cl_page) with
      | RoomPage _ => if (render c).(v_call_button) then Some (spawn i handleCallUser c s) else None
      | LobbyPage => None
      end
  | Disconnect i =>
      _ ← s.(sy_clients) !! i;
      Some (mkSys (delete i s.(sy_clients)) (filter (fun tm => tm.1 ≠ i) s.(sy_tasks))
              (delete i s.(sy_sent)) (delete i s.(sy_down)) (disconnect i s.(sy_server)))
  end.

Definition step (s s' : sys) : Prop := ∃ a, exec a s = Some s'.

(** Endpoints connect with their page on the lobby; [true] when the
    endpoint grants its camera and microphone. *)
Definition init_sys (eps : list (sid * bool)) : sys :=
  mkSys (list_to_map ((fun e => (e.1, init_client e.1 e.2)) <$> eps)) [] ∅ ∅
    (foldr (fun e sv => connect e.1 sv) empty_server eps).

Definition reachable (eps : list (sid * bool)) (s : sys) : Prop := rtc step (init_sys eps) s.

(** A schedule: the steps in order. *)
Fixpoint exec_all (acts : list action) (s : sys) : option sys :=
  match acts with
  | [] => Some s
  | a :: acts => s' ← exec a s; exec_all acts s'
  end.

Lemma exec_all_steps acts s s' : exec_all acts s = Some s' → rtc step s s'.
Proof.
  revert s. induction acts as [|a acts IH]; intros s; simpl; [by intros [= ->]|].
  destruct (exec a s) as [s1|] eqn:Ha; simpl; [|done].
  intros Hs. eapply rtc_l; [by exists a|]. by apply IH.
Qed.

(** ** The invariant of the system *)

(** A task the system may hold: the rest of a body that keeps every
    connection well formed and moves its call state along [code_edge] only,
    with at most four [await]s left. *)
Definition good_task (m : async client unit) : Prop := good_body m ∧ awaits_le 4 m.

(** Every connection is well formed, every suspended task is a good task,
    suspended at an [await], and runs on an endpoint that is there, and the
    relay's directory is well formed. *)
Definition sys_inv (s : sys) : Prop :=
  (∀ i c, s.(sy_clients) !! i = Some c → client_wf c)
  ∧ (∀ tm, tm ∈ s.(sy_tasks) →
       good_task tm.2 ∧ suspended tm.2 = true ∧ is_Some (s.(sy_clients) !! tm.1))
  ∧ relay_wf s.(sy_server).

(** From [s] to [s'], every endpoint's call state moved along [code_edge]. *)
Definition sys_moves (s s' : sys) : Prop :=
  ∀ i c', s'.(sy_clients) !! i = Some c' →
    ∃ c, s.(sy_clients) !! i = Some c ∧ rtc code_edge (client_state c) (client_state c').

Lemma sys_moves_same s s' : s'.(sy_clients) = s.(sy_clients) → sys_moves s s'.
Proof. intros Heq i c Hc. rewrite Heq in Hc. eexists; split; [done|constructor]. Qed.

Lemma cl_inv_here c : client_wf c → cl_inv (client_state c) c.
Proof. intros Hw. split; [done|constructor]. Qed.

Lemma settle_ok (m : async client unit) c :
  good_body m → client_wf c →
  good_body (settle m c).1 ∧ client_wf (settle m c).2
  ∧ rtc code_edge (client_state c) (client_state (settle m c).2).
Proof.
  intros Hm Hw. split; [intros a; by apply preserves_settle_body|].
  apply (preserves_settle (cl_inv (client_state c))); [apply Hm|by apply cl_inv_here].
Qed.

Lemma resume_ok (m : async client unit) c :
  good_body m → client_wf c →
  good_body (resume m c).1 ∧ client_wf (resume m c).2
  ∧ rtc code_edge (client_state c) (client_state (resume m c).2).
Proof.
  intros Hm Hw. split; [intros a; by apply preserves_resume_body|].
  apply (preserves_resume (cl_inv (client_state c))); [apply Hm|by apply cl_inv_here].
Qed.

Lemma park_ok i m c c' tasks s :
  sys_inv s → s.(sy_clients) !! i = Some c →
  (∀ tm, tm ∈ tasks → tm ∈ s.(sy_tasks)) → good_task m → client_wf c' →
  rtc code_edge (client_state c) (client_state c') →
  sys_inv (park i m c' tasks s) ∧ sys_moves s (park i m c' tasks s).
Proof.
  intros (Hc & Ht & Hr) Hi Hsub Hm Hw Hmv. unfold park, sys_inv, sys_moves; simpl. split_and!; [| |done|].
  - intros j cj. rewrite lookup_insert_Some. intros [[<- <-]|[_ Hj]]; eauto.
  - intros tm Htm. rewrite lookup_insert_is_Some'.
    assert (tm ∈ tasks ∨ tm = (i, m) ∧ suspended m = true) as [Hin|[-> Hsus]]
      by (destruct (suspended m); set_solver).
    + destruct (Ht tm (Hsub tm Hin)) as (? & ? & ?); auto.
    + auto.
  - intros j cj. rewrite lookup_insert_Some. intros [[<- <-]|[_ Hj]]; [by eauto|].
    exists cj. split; [done|constructor].
Qed.

Lemma spawn_ok i m c c1 s :
  sys_inv s → s.(sy_clients) !! i = Some c → good_task m → client_wf c1 →
  client_state c1 = client_state c →
  sys_inv (spawn i m c1 s) ∧ sys_moves s (spawn i m c1 s).
Proof.
  intros Hs Hi [Hm Hb] Hw Hst. unfold spawn.
  destruct (settle_ok m c1 Hm Hw) as (Hm' & Hw' & Hmv).
  pose proof (awaits_le_settle 4 m c1 Hb) as Hb'.
  destruct (settle m c1) as [m' c']; simpl in *.
  apply (park_ok i m' c c'); auto; [split; done|by rewrite <- Hst].
Qed.

Lemma with_client_park i c s : with_client i c s = park i (Done (Ok tt)) c s.(sy_tasks) s.
Proof. reflexivity. Qed.

Lemma good_task_done r : good_task (Done r).
Proof. split; [intros a; constructor|done]. Qed.

Lemma good_task_of m n : good_body m → awaits_le n m → n ≤ 4 → good_task m.
Proof. intros Hm Hb Hn. split; [done|by eapply awaits_le_mono]. Qed.

Lemma on_message_task m c : good_task (on_message m c).
Proof. eapply good_task_of; eauto using on_message_awaits with rtc. Qed.

Lemma room_on_event_task ev : good_task (room_on_event ev).
Proof. eapply good_task_of; eauto using room_on_event_awaits with rtc; lia. Qed.

Lemma handleCallUser_task : good_task handleCallUser.
Proof. eapply good_task_of; eauto using handleCallUser_awaits with rtc; lia. Qed.

Lemma handleSubmitForm_task : good_task handleSubmitForm.
Proof. eapply good_task_of; eauto using handleSubmitForm_awaits with rtc; lia. Qed.

#[export] Hint Resolve good_task_done on_message_task room_on_event_task handleCallUser_task
  handleSubmitForm_task : rtc.

(** Dispatching an engine event leaves the connection well formed and its
    call state as it was. *)
Lemma take_event_client c p oev p' :
  c.(cl_service).(peer) = Some p → take_event p = Some (oev, p') → client_wf c →
  client_wf (set_service (mkPeerService (Some p')) c)
  ∧ client_state (set_service (mkPeerService (Some p')) c) = client_state c.
Proof.
  intros Hp Ht Hw. unfold client_wf, client_state, ps_wf, service_state in *; simpl.
  rewrite Hp in Hw |- *. split; [by eapply take_event_wf|by eapply take_event_state].
Qed.

Lemma exec_ok a s s' : sys_inv s → exec a s = Some s' → sys_inv s' ∧ sys_moves s s'.
Proof.
  intros Hs. pose proof Hs as (Hc & Ht & Hr).
  destruct a as [i|i|i|n|i v|i v|i|i|i]; simpl.
  - destruct (sy_clients s !! i) as [c|]; simpl; [|done].
    destruct (cl_outbox c !! _) as [m|]; simpl; [|done].
    pose proof (handle_c2s_wf i m _ Hr) as Hr'.
    destruct (handle_c2s i m (sy_server s)) as [sv' ds]. intros [= <-].
    split; [unfold sys_inv; simpl; split_and!; eauto|by apply sys_moves_same].
  - destruct (sy_clients s !! i) as [c|] eqn:Hi; simpl; [|done].
    destruct (sy_down s !! i) as [[|m rest]|]; [done| |done]. intros [= <-].
    by apply (spawn_ok i _ c c (with_down _ s)); eauto with rtc.
  - destruct (sy_clients s !! i) as [c|] eqn:Hi; simpl; [|done].
    destruct (peer (cl_service c)) as [p|] eqn:Hp; simpl; [|done].
    destruct (take_event p) as [[oev p']|] eqn:He; [|done].
    destruct (take_event_client c p oev p' Hp He (Hc _ _ Hi)) as [Hw1 Hst1].
    destruct oev as [ev|], (cl_page c); intros [= <-]; try rewrite with_client_park;
      first [apply (spawn_ok i _ c) | apply (park_ok i _ c)]; eauto with rtc;
      rewrite Hst1; constructor.
  - destruct (sy_tasks s !! n) as [[i m]|] eqn:Hn; simpl; [|done].
    destruct (sy_clients s !! i) as [c|] eqn:Hi; simpl; [|done].
    pose proof (Ht _ (list_elem_of_lookup_2 _ _ _ Hn)) as ([Hm Hb] & Hsus & _).
    destruct (resume_ok m c Hm (Hc _ _ Hi)) as (Hm' & Hw' & Hmv).
    assert (Hb' : awaits_le 4 (resume m c).1)
      by (apply (awaits_le_mono _ 3); [lia|apply awaits_le_resume; [done|]];
          by apply (awaits_le_mono _ 4)).
    destruct (resume m c) as [m' c']. intros [= <-].
    apply (park_ok i m' c c'); eauto using list_elem_of_delete_inv. by split.
  - destruct (sy_clients s !! i) as [c|] eqn:Hi; simpl; [|done].
    destruct (cl_page c); [intros [= <-]|done]. rewrite with_client_park.
    apply (park_ok i _ c); eauto with rtc; first [exact (Hc _ _ Hi)|constructor].
  - destruct (sy_clients s !! i) as [c|] eqn:Hi; simpl; [|done].
    destruct (cl_page c); [intros [= <-]|done]. rewrite with_client_park.
    apply (park_ok i _ c); eauto with rtc; first [exact (Hc _ _ Hi)|constructor].
  - destruct (sy_clients s !! i) as [c|] eqn:Hi; simpl; [|done].
    destruct (cl_page c); [|done]. destruct (form_submits _); intros [= <-];
      [apply (spawn_ok i _ c c); eauto with rtc|split; [done|by apply sys_moves_same]].
  - destruct (sy_clients s !! i) as [c|] eqn:Hi; simpl; [|done].
    destruct (cl_page c); [done|]. destruct (cl_remoteSocketId c); [|done].
    intros [= <-]. apply (spawn_ok i _ c c); eauto with rtc.
  - destruct (sy_clients s !! i) as [c|]; simpl; [intros [= <-]|done].
    split; [unfold sys_inv; simpl; split_and!|].
    + intros j cj [_ Hj]%lookup_delete_Some. eauto.
    + intros tm [Hne Htm]%list_elem_of_filter. destruct (Ht tm Htm) as (? & ? & ?).
      split_and!; [done|done|]. by rewrite lookup_delete_ne.
    + by apply disconnect_wf.
    + intros j cj Hj. simpl in Hj. apply lookup_delete_Some in Hj as [_ Hj].
      exists cj. split; [done|constructor].
Qed.

Lemma init_server_wf eps : relay_wf (init_sys eps).(sy_server).
Proof. induction eps as [|e eps IH]; simpl; [apply relay_wf_empty|apply connect_wf, IH]. Qed.

Lemma init_sys_ok eps :
  sys_inv (init_sys eps)
  ∧ ∀ i c, (init_sys eps).(sy_clients) !! i = Some c → client_state c = Idle.
Proof.
  assert (∀ i c, (init_sys eps).(sy_clients) !! i = Some c → ∃ b, c = init_client i b) as Hinit.
  { intros i c Hl%elem_of_list_to_map_2. apply list_elem_of_fmap in Hl as ([j b] & [= -> ->] & _).
    by exists b. }
  unfold sys_inv. split_and!.
  - intros i c (b & ->)%Hinit. apply new_pc_wf.
  - intros tm Htm. by apply elem_of_nil in Htm.
  - apply init_server_wf.
  - by intros i c (b & ->)%Hinit.
Qed.

(** Every reachable system satisfies the invariant, and every endpoint's
    call state was reached from [Idle] along [code_edge]. *)
Lemma reachable_ok eps s :
  reachable eps s →
  sys_inv s ∧ ∀ i c, s.(sy_clients) !! i = Some c → rtc code_edge Idle (client_state c).
Proof.
  revert s. apply rtc_ind_r.
  - destruct (init_sys_ok eps) as [Hinv Hidle]. split; [done|].
    intros i c Hc. rewrite (Hidle i c Hc). constructor.
  - intros s2 s3 _ [a Ha] [Hinv Hst]. destruct (exec_ok a s2 s3 Hinv Ha) as [Hinv' Hmv].
    split; [done|]. intros i c' Hc'. destruct (Hmv i c' Hc') as (c & Hc & Hcc).
    eapply rtc_trans; [by eapply Hst|exact Hcc].
Qed.

(** ** A task nothing interrupts *)

(** ** The relay's deliveries *)

Lemma post_other ds d j : Forall (fun tm => tm.1 ≠ j) ds → post ds d !! j = d !! j.
Proof.
  revert d. induction ds as [|[t m] ds IH]; intros d Hds; [done|].
  apply Forall_cons in Hds as [Ht Hds]. simpl in *. rewrite IH by done.
  by rewrite lookup_insert_ne.
Qed.

Lemma post_default ds d j :
  default [] (post ds d !! j) = default [] (d !! j) ++ (snd <$> filter (fun tm => tm.1 = j) ds).
Proof.
  revert d. induction ds as [|[t m] ds IH]; intros d; simpl; [by rewrite app_nil_r|].
  rewrite IH, filter_cons. simpl. destruct (decide (t = j)) as [->|Hne].
  - rewrite lookup_insert_eq. simpl. by rewrite <- app_assoc.
  - by rewrite lookup_insert_ne.
Qed.

(** ** Joining a room *)

(** C26: what clicking Join does (Lobby.jsx lines 35-43 with the
    browser's constraint validation): when the e-mail input is empty or
    holds a valid address, the form's [room:join] with the inputs' current
    values, empty ones included, is appended to the endpoint's outbox and
    nothing is left suspended; when it holds anything else, the input's
    type mismatch blocks the submission and nothing changes. *)
Theorem lobby_submit s i c :
  s.(sy_clients) !! i = Some c → cl_page c = LobbyPage →
  let f := c.(cl_form) in
  ((f.(lf_email) = "" ∨ valid_email f.(lf_email) = true) →
     ∃ s', exec (Submit i) s = Some s'
       ∧ (cl_outbox <$> s'.(sy_clients) !! i) = Some (cl_outbox c ++ [RoomJoin f.(lf_email) f.(lf_room)])
       ∧ s'.(sy_tasks) = s.(sy_tasks))
  ∧ (f.(lf_email) ≠ "" → valid_email f.(lf_email) = false → exec (Submit i) s = Some s).
Proof.
  intros Hc Hp. simpl. rewrite Hc. simpl. rewrite Hp. unfold form_submits. split.
  - intros [He|Hv]; [rewrite bool_decide_eq_true_2 by done|rewrite Hv, orb_true_r];
      (eexists; split; [reflexivity|]); unfold spawn, park; simpl; by rewrite lookup_insert_eq.
  - intros He Hv. by rewrite bool_decide_eq_false_2, Hv.
Qed.

(** C24: the lobby's join round trip (spec sections 4.1 and 5): from any
    reachable system where endpoint [i] shows the lobby, its earlier
    messages have all been relayed and nothing waits for it, typing an
    email [e] the browser accepts (empty or a valid address) and a room
    [r] that is not full and clicking Join relays one
    [room:join] that adds [i] to [r]; the relay's echo [room:join] brings
    [i] to the room page of [r], and every earlier occupant of [r] is sent
    [user:joined] with [e] and [i]'s id. *)
Theorem lobby_join_roundtrip eps s i c e r :
  reachable eps s → s.(sy_clients) !! i = Some c → cl_page c = LobbyPage →
  default 0 (s.(sy_sent) !! i) = length (cl_outbox c) →
  default [] (s.(sy_down) !! i) = [] →
  lookupRoom i s.(sy_server) ≠ Some r → length (occupants r s.(sy_server)) < 2 →
  e = "" ∨ valid_email e = true →
  ∃ s', exec_all [TypeEmail i e; TypeRoom i r; Submit i; RelayNext i; Dispatch i] s = Some s'
    ∧ (cl_page <$> s'.(sy_clients) !! i) = Some (RoomPage r)
    ∧ occupants r s'.(sy_server) = occupants r s.(sy_server) ++ [i]
    ∧ ∀ p, p ∈ occupants r s.(sy_server) → UserJoined e i ∈ default [] (s'.(sy_down) !! p).
Proof.
  intros Hr Hc Hp Hsent Hdown Hl Hlen Hv%(form_submits_spec (mkForm e r)).
  destruct (reachable_ok eps s Hr) as [(_ & _ & Hwf) _].
  pose proof (wf_not_occupant i r _ Hwf Hl) as Hni.
  destruct (handle_join_spec i e r (sy_server s) Hl Hlen) as (Hds & Hocc & _).
  simpl. rewrite Hc. simpl. rewrite Hp. simpl.
  rewrite lookup_insert_eq. simpl. rewrite Hp. simpl.
  rewrite lookup_insert_eq. simpl. rewrite Hp, Hv. simpl.
  unfold spawn, park. simpl. rewrite lookup_insert_eq. simpl.
  rewrite Hsent, list_lookup_middle by done. cbn -[handle_c2s].
  destruct (handle_c2s i (RoomJoin e r) (sy_server s)) as [sv' ds]. simpl in Hds, Hocc. subst ds.
  simpl. rewrite lookup_insert_eq. simpl.
  rewrite post_other, lookup_insert_eq, Hdown
    by (apply Forall_fmap, Forall_forall; intros p Hp'; simpl; intros ->; done).
  unfold on_message. simpl. rewrite Hp. simpl.
  eexists; split; [reflexivity|]. simpl. rewrite lookup_insert_eq. split_and!; [done|done|].
  intros p Hpo. rewrite lookup_insert_ne by (intros ->; done).
  rewrite post_default. apply elem_of_app; right.
  apply list_elem_of_fmap. exists (p, UserJoined e i). split; [done|].
  apply list_elem_of_filter. split; [done|]. apply list_elem_of_fmap. by exists p.
Qed.

(** ** Schedules of spec section 8's first scenario

    Endpoints 1 (A) and 2 (B) grant their devices. Both join room ["42"]
    from the lobby (A first); A, told that B joined, clicks Call; every
    task runs to its next [await] before the next message is relayed. *)

Definition demo_eps : list (sid * bool) := [(1, true); (2, true)].

Definition joins : list action :=
  [TypeEmail 1 "a@x"; TypeRoom 1 "42"; Submit 1; RelayNext 1; Dispatch 1;
   TypeEmail 2 "b@x"; TypeRoom 2 "42"; Submit 2; RelayNext 2;
   Dispatch 2; Dispatch 1].

(** A calls: [getUserMedia], [createOffer], [setLocalDescription]; the
    queued [negotiationneeded] is dropped ([have-local-offer]). *)
Definition a_calls : list action := [ClickCall 1; Resume 0; Resume 0; Resume 0; FireEvent 1].

(** B answers: the offer is relayed, B captures its media and answers. *)
Definition b_answers : list action :=
  [RelayNext 1; Dispatch 2; Resume 0; Resume 0; Resume 0; Resume 0].

(** The answer is relayed and applied by A. *)
Definition a_applies : list action := [RelayNext 2; Dispatch 1; Resume 0].

Definition call_schedule : list action := joins ++ a_calls ++ b_answers ++ a_applies.

(** A second schedule: after A's offer reaches B, B clicks Call (its
    button appears once [remoteSocketId] is set) before answering, and B's
    offer reaches A while A is still waiting for an answer; A's
    [handleIncomingCall] captures media again and is about to apply B's
    offer. *)
Definition glare_schedule : list action :=
  joins ++ [ClickCall 1; Resume 0; Resume 0; Resume 0; RelayNext 1; Dispatch 2; ClickCall 2;
            Resume 1; Resume 1; Resume 1; RelayNext 2; Dispatch 1; Resume 1].

Definition after (acts : list action) : sys :=
  default (init_sys demo_eps) (exec_all acts (init_sys demo_eps)).

Definition state_at (s : sys) (i : sid) : option call_state := client_state <$> s.(sy_clients) !! i.

Definition client_at (s : sys) (i : sid) : client := default (init_client i true) (s.(sy_clients) !! i).

Lemma after_reachable acts : exec_all acts (init_sys demo_eps) = Some (after acts) →
  reachable demo_eps (after acts).
Proof. apply exec_all_steps. Qed.

(** ** Claims *)

(** C19: in every reachable system the relay's directory is well formed
    (every room has one or two distinct occupants: spec section 8) and
    every endpoint's connection is well formed. *)
Theorem reachable_invariant eps s :
  reachable eps s →
  relay_wf s.(sy_server) ∧ ∀ i c, s.(sy_clients) !! i = Some c → client_wf c.
Proof. intros Hr. destruct (reachable_ok eps s Hr) as [(Hc & _ & Hrl) _]. done. Qed.

(** C20: the transition the spec's table does not have is reachable: an
    endpoint waiting for the answer to its call ([Offering]) receives the
    peer's own call and, by the engine's implicit rollback, answers it
    ([Answering]). *)
Theorem offer_replaced_reachable :
  ∃ s s', reachable demo_eps s ∧ step s s'
    ∧ state_at s 1 = Some Offering ∧ state_at s' 1 = Some Answering.
Proof.
  exists (after glare_schedule), (after (glare_schedule ++ [Resume 1])).
  split_and!.
  - apply after_reachable. vm_compute. reflexivity.
  - exists (Resume 1). vm_compute. reflexivity.
  - vm_compute. reflexivity.
  - vm_compute. reflexivity.
Qed.

(** ** Witnesses *)

Lemma reachable_invariant_witness :
  reachable demo_eps (after call_schedule) ∧ relay_wf (after call_schedule).(sy_server).
Proof.
  assert (Hr : reachable demo_eps (after call_schedule))
    by (apply after_reachable; vm_compute; reflexivity).
  split; [exact Hr|exact (proj1 (reachable_invariant demo_eps _ Hr))].
Defined.

(** A has joined room ["42"]; B, still in the lobby, joins it. *)
Definition a_joined : sys := after (take 5 joins).

Lemma lobby_join_roundtrip_witness :
  ∃ s', exec_all [TypeEmail 2 "b@x"; TypeRoom 2 "42"; Submit 2; RelayNext 2; Dispatch 2] a_joined
          = Some s'
    ∧ (cl_page <$> s'.(sy_clients) !! 2) = Some (RoomPage "42")
    ∧ occupants "42" s'.(sy_server) = occupants "42" a_joined.(sy_server) ++ [2]
    ∧ ∀ p, p ∈ occupants "42" a_joined.(sy_server) →
        UserJoined "b@x" 2 ∈ default [] (s'.(sy_down) !! p).
Proof.
  assert (Hr : reachable demo_eps a_joined) by (apply after_reachable; vm_compute; reflexivity).
  assert (Hc : a_joined.(sy_clients) !! 2 = Some (client_at a_joined 2))
    by (vm_compute; reflexivity).
  assert (Hp : cl_page (client_at a_joined 2) = LobbyPage) by (vm_compute; reflexivity).
  assert (Hs : default 0 (a_joined.(sy_sent) !! 2) = length (cl_outbox (client_at a_joined 2)))
    by (vm_compute; reflexivity).
  assert (Hd : default [] (a_joined.(sy_down) !! 2) = []) by (vm_compute; reflexivity).
  assert (Hl : lookupRoom 2 a_joined.(sy_server) ≠ Some "42") by (vm_compute; discriminate).
  assert (Hn : length (occupants "42" a_joined.(sy_server)) < 2)
    by (apply Nat.ltb_lt; vm_compute; reflexivity).
  assert (Hv : "b@x" = "" ∨ valid_email "b@x" = true) by (right; vm_compute; reflexivity).
  exact (lobby_join_roundtrip demo_eps a_joined 2 _ "b@x" "42" Hr Hc Hp Hs Hd Hl Hn Hv).
Defined.

Lemma lobby_submit_witness :
  (∃ s', exec (Submit 1) (init_sys demo_eps) = Some s'
     ∧ (cl_outbox <$> s'.(sy_clients) !! 1) = Some [RoomJoin "" ""]
     ∧ s'.(sy_tasks) = [])
  ∧ exec (Submit 1) (after [TypeEmail 1 "ab"]) = Some (after [TypeEmail 1 "ab"]).
Proof.
  assert (H1 : (init_sys demo_eps).(sy_clients) !! 1 = Some (init_client 1 true))
    by (vm_compute; reflexivity).
  assert (H2 : (after [TypeEmail 1 "ab"]).(sy_clients) !! 1 = Some (client_at (after [TypeEmail 1 "ab"]) 1))
    by (vm_compute; reflexivity).
  assert (He : (client_at (after [TypeEmail 1 "ab"]) 1).(cl_form).(lf_email) ≠ "")
    by (vm_compute; discriminate).
  assert (Hv : valid_email (client_at (after [TypeEmail 1 "ab"]) 1).(cl_form).(lf_email) = false)
    by (vm_compute; reflexivity).
  split.
  - exact (proj1 (lobby_submit _ 1 _ H1 eq_refl) (or_introl eq_refl)).
  - exact (proj2 (lobby_submit _ 1 _ H2 eq_refl) He Hv).
Defined.

End System.
