(* ===== verification/Wire.v ===== *)
(** * Wire: the session descriptions the pages put on the wire have the
    type their event names.

    The relay forwards whatever a page emits ([Relay.route]), and each
    listener hands the description it receives straight to the engine
    ([Peer.getAnswer], [Peer.setRemoteDescription]). Nothing in the code
    checks a description's [type]: the protocol works because [user:call]
    and [peer:nego:needed] only ever carry what [getOffer] returned (an
    offer) and [call:accepted] and [peer:nego:done] what [getAnswer]
    returned (an answer), and because the service's connection, created
    once in [peer.js] line 4, is never dropped (a service without one
    returns [undefined] from both). This file states the typing of the
    messages ([c2s_typed], [s2c_typed]), proves the service's methods
    and the pages' listeners [safe] for it (the result of [getOffer] is
    an offer, of [getAnswer] an answer), and that every reachable system
    keeps every queue of both directions typed ([wire_inv]). *)

From stdpp Require Import base list gmap strings relations.
From S2P Require Import Prelude Async Rtc Peer Room Lobby Relay Negotiation System.
Import Rtc Peer Room Lobby Relay Negotiation System.

Module Wire.

(** ** Typed messages *)

Definition desc_is (k : sdp_type) (d : option sdp) : bool :=
  match d with Some d => bool_decide (d.(sdp_kind) = k) | None => false end.

Definition c2s_typed (m : c2s) : bool :=
  match m with
  | RoomJoin _ _ => true
  | UserCall _ o | NegoNeeded _ o => desc_is SdpOffer o
  | CallAccepted _ a | NegoDone _ a => desc_is SdpAnswer a
  end.

Definition s2c_typed (m : s2c) : bool :=
  match m with
  | RoomJoined _ _ | UserJoined _ _ => true
  | IncomingCall _ o | NegoNeededIn _ o => desc_is SdpOffer o
  | CallAcceptedIn _ a | NegoFinal _ a => desc_is SdpAnswer a
  end.

(** The service holds its connection. *)
Definition svc_live (s : PeerService) : Prop := is_Some s.(peer).

(** A page whose service is live and whose emitted messages are typed. *)
Definition client_typed (c : client) : Prop :=
  svc_live c.(cl_service) ∧ Forall (λ m, c2s_typed m = true) c.(cl_outbox).

(** ** The service *)

Lemma call_peer_live {X} (f : pc → res X * pc) s : svc_live s → svc_live (call_peer f s).2.
Proof. intros [p Hp]. unfold call_peer. rewrite Hp. destruct (f p). by eexists. Qed.

Lemma createOffer_kind p d : (createOffer p).1 = Ok d → d.(sdp_kind) = SdpOffer.
Proof. unfold createOffer. case_decide; simpl; by intros [= <-]. Qed.

Lemma createAnswer_kind p d : (createAnswer p).1 = Ok d → d.(sdp_kind) = SdpAnswer.
Proof. unfold createAnswer. case_decide; simpl; by intros [= <-]. Qed.

(** [await this.peer.m(...)] returns what the operation returns. *)
Lemma safe_chain_op {X} (Q : X → Prop) (op : pc → res X * pc) :
  (∀ p x, (op p).1 = Ok x → Q x) → safe svc_live Q (chain_op op).
Proof.
  intros HQ. unfold chain_op. apply (safe_bind _ (λ _, True)).
  - apply safe_sync; [apply call_peer_live|done].
  - intros _ _. apply safe_await; [apply call_peer_live|].
    intros w x _. unfold call_peer, chained. destruct (peer w) as [p|]; [|done].
    destruct (op p) as [r q] eqn:E. simpl. intros ->. apply (HQ p). by rewrite E.
Qed.

Lemma safe_chain_op_inv {X} (op : pc → res X * pc) : safe svc_live (λ _, True) (chain_op op).
Proof. by apply safe_chain_op. Qed.

#[export] Hint Resolve call_peer_live safe_chain_op_inv : wire.

(** A method that first reads the service ([gets id]) and branches on
    the connection only takes the branch with one. *)
Ltac svc_method :=
  apply sf_sync; [done|]; intros ? s [p Hp] [= ->]; rewrite Hp; cbn -[chain_op].

Lemma getOffer_typed : safe svc_live (λ o, desc_is SdpOffer o = true) getOffer.
Proof.
  unfold getOffer. svc_method.
  apply (safe_bind _ (λ d, d.(sdp_kind) = SdpOffer)); [apply safe_chain_op, createOffer_kind|].
  intros d Hd. apply (safe_bind _ (λ _, True)); [auto with wire|]. intros _ _.
  apply safe_ret. simpl. by rewrite Hd, bool_decide_eq_true.
Qed.

Lemma getAnswer_typed d : safe svc_live (λ o, desc_is SdpAnswer o = true) (getAnswer d).
Proof.
  unfold getAnswer. svc_method. apply sf_sync; [done|]. intros w r _ _.
  apply (safe_bind _ (λ _, True)); [auto with wire|]. intros _ _.
  apply (safe_bind _ (λ a, a.(sdp_kind) = SdpAnswer)); [apply safe_chain_op, createAnswer_kind|].
  intros a Ha. apply (safe_bind _ (λ _, True)); [auto with wire|]. intros _ _.
  apply safe_ret. simpl. by rewrite Ha, bool_decide_eq_true.
Qed.

Lemma setRemoteDescription_typed d : safe svc_live (λ _, True) (Peer.setRemoteDescription d).
Proof.
  unfold Peer.setRemoteDescription. svc_method. apply sf_sync; [done|]. intros. auto with wire.
Qed.

(** ** The pages *)

Lemma client_typed_same c c' :
  cl_service c' = cl_service c → cl_outbox c' = cl_outbox c → client_typed c → client_typed c'.
Proof. unfold client_typed. by intros -> ->. Qed.

Lemma emit_typed m c : c2s_typed m = true → client_typed c → client_typed (emit m c).
Proof. intros Hm [Hl Ho]. split; [done|]. simpl. apply Forall_app. by split; [|constructor]. Qed.

Lemma set_service_typed v c : svc_live v → client_typed c → client_typed (set_service v c).
Proof. by intros Hv [_ Ho]. Qed.

Lemma room_add_tracks_live st s : svc_live s → svc_live (room_add_tracks st s).
Proof. intros [p Hp]. unfold room_add_tracks. rewrite Hp. by eexists. Qed.

(** The steps of the pages that touch neither the service nor the outbox. *)
Ltac same_typed :=
  intros; match goal with H : client_typed ?c |- _ => apply (client_typed_same c); [..|exact H] end;
  unfold handleTrack; repeat case_match; reflexivity.

Lemma setMystream_typed st c : client_typed c → client_typed (setMystream st c).
Proof. same_typed. Qed.
Lemma setRemoteSocketId_typed r c : client_typed c → client_typed (setRemoteSocketId r c).
Proof. same_typed. Qed.
Lemma handleTrack_typed t ss c : client_typed c → client_typed (handleTrack t ss c).
Proof. same_typed. Qed.
Lemma navigate_typed pg c : client_typed c → client_typed (navigate pg c).
Proof. same_typed. Qed.
Lemma setEmail_typed v c : client_typed c → client_typed (setEmail v c).
Proof. same_typed. Qed.
Lemma setRoom_typed v c : client_typed c → client_typed (setRoom v c).
Proof. same_typed. Qed.
Lemma getUserMedia_typed c : client_typed c → client_typed (getUserMedia c).2.
Proof. unfold getUserMedia. same_typed. Qed.

Lemma add_tracks_typed st c :
  client_typed c → client_typed (set_service (room_add_tracks st c.(cl_service)) c).
Proof. intros Hc. apply set_service_typed; [apply room_add_tracks_live, Hc|done]. Qed.

Lemma safe_svc {A} (Q : A → Prop) (m : async PeerService A) :
  safe svc_live Q m → safe client_typed Q (svc m).
Proof. apply safe_zoom; [by intros ? []|intros; by apply set_service_typed]. Qed.

Lemma safe_modify_inv {W} (P : W → Prop) g : (∀ w, P w → P (g w)) → safe P (λ _, True) (modify g).
Proof. intros Hg. by apply safe_sync. Qed.

Lemma safe_gets_inv {W X} (P : W → Prop) (g : W → X) : safe P (λ _, True) (gets g).
Proof. by apply safe_sync. Qed.

Lemma safe_await_inv {W X} (P : W → Prop) (f : W → res X * W) :
  (∀ w, P w → P (f w).2) → safe P (λ _, True) (await f).
Proof. intros Hf. by apply safe_await. Qed.

Lemma svc_getOffer_typed : safe client_typed (λ o, desc_is SdpOffer o = true) (svc getOffer).
Proof. apply safe_svc, getOffer_typed. Qed.

Lemma svc_getAnswer_typed d : safe client_typed (λ o, desc_is SdpAnswer o = true) (svc (getAnswer d)).
Proof. apply safe_svc, getAnswer_typed. Qed.

Lemma svc_setRemoteDescription_typed d :
  safe client_typed (λ _, True) (svc (Peer.setRemoteDescription d)).
Proof. apply safe_svc, setRemoteDescription_typed. Qed.

#[export] Hint Resolve emit_typed setMystream_typed setRemoteSocketId_typed handleTrack_typed
  navigate_typed setEmail_typed setRoom_typed getUserMedia_typed add_tracks_typed
  svc_getOffer_typed svc_getAnswer_typed svc_setRemoteDescription_typed
  safe_modify_inv safe_gets_inv safe_await_inv : wire.

(** Walk a page's body: each step by the [wire] hints, which fix what a
    step returns for the steps after it. *)
Ltac wire_steps :=
  repeat match goal with
         | |- safe _ _ (_ ≫= _) => eapply safe_bind; [solve [eauto with wire]|intros ??]
         | |- safe _ _ (catch _ _) => apply safe_catch; [|intros ?]
         | |- safe _ _ (mret _) => by apply safe_ret
         | |- safe _ _ (match ?x with _ => _ end) => destruct x
         | |- safe _ _ _ => solve [eauto with wire]
         end.

Lemma handleCallUser_typed : safe client_typed (λ _, True) handleCallUser.
Proof. unfold handleCallUser. wire_steps. Qed.

Lemma on_message_typed m c : safe client_typed (λ _, True) (on_message m c).
Proof.
  unfold on_message, room_on_message, lobby_on_message, handleUserJoined, handleIncomingCall,
    handleCallAccepted, handleNegotiationIncoming, handleNegotiationFinal, handleJoinRoom;
    wire_steps.
Qed.

Lemma room_on_event_typed ev : safe client_typed (λ _, True) (room_on_event ev).
Proof. destruct ev; unfold room_on_event, handleNegotiationNeeded; wire_steps. Qed.

Lemma handleSubmitForm_typed : safe client_typed (λ _, True) handleSubmitForm.
Proof. unfold handleSubmitForm. wire_steps. Qed.

#[export] Hint Resolve handleCallUser_typed on_message_typed room_on_event_typed
  handleSubmitForm_typed : wire.

(** ** The relay forwards typed messages typed *)

Lemma handle_c2s_typed i m sv :
  c2s_typed m = true → Forall (λ d, s2c_typed d.2 = true) (handle_c2s i m sv).2.
Proof.
  intros Hm. destruct m; simpl.
  1: unfold join; case_decide; simpl; [constructor|];
     constructor; [done|]; by apply Forall_fmap, Forall_true.
  all: unfold deliver, route; simpl; destruct to; simpl; [case_decide|]; by repeat constructor.
Qed.

Definition queues_typed (down : gmap sid (list s2c)) : Prop :=
  ∀ i ms, down !! i = Some ms → Forall (λ m, s2c_typed m = true) ms.

Lemma post_typed ds down :
  Forall (λ d, s2c_typed d.2 = true) ds → queues_typed down → queues_typed (post ds down).
Proof.
  revert down. induction ds as [|[t m] ds IH]; intros down Hds Hd; [done|].
  apply Forall_cons in Hds as [Hm Hds]. simpl. apply IH; [done|].
  intros j ms. rewrite lookup_insert_Some. intros [[<- <-]|[_ Hj]]; [|by eapply Hd].
  apply Forall_app. split; [|by constructor].
  destruct (down !! t) as [ms0|] eqn:E; simpl; [by eapply Hd|constructor].
Qed.

Lemma queues_typed_insert down i ms :
  queues_typed down → Forall (λ m, s2c_typed m = true) ms → queues_typed (<[i := ms]> down).
Proof. intros Hd Hms j ms'. rewrite lookup_insert_Some. intros [[<- <-]|[_ Hj]]; eauto. Qed.

(** ** The system *)

(** Every page is typed, every suspended task is the rest of a body safe
    for it, and every queue of received messages is typed. *)
Definition wire_inv (s : sys) : Prop :=
  (∀ i c, s.(sy_clients) !! i = Some c → client_typed c)
  ∧ (∀ tm, tm ∈ s.(sy_tasks) → safe client_typed (λ _, True) tm.2)
  ∧ queues_typed s.(sy_down).

Lemma park_wire i m c tasks s :
  wire_inv s → client_typed c → safe client_typed (λ _, True) m →
  (∀ tm, tm ∈ tasks → tm ∈ s.(sy_tasks)) → wire_inv (park i m c tasks s).
Proof.
  intros (Hc & Ht & Hd) Hc' Hm Hsub. unfold park, wire_inv; simpl. split_and!; [| |done].
  - intros j cj. rewrite lookup_insert_Some. intros [[<- <-]|[_ Hj]]; eauto.
  - intros tm Htm. assert (tm ∈ tasks ∨ tm = (i, m)) as [Hin|Heq]
      by (destruct (suspended m); set_solver); [auto|by subst tm].
Qed.

Lemma spawn_wire i m c s :
  wire_inv s → client_typed c → safe client_typed (λ _, True) m → wire_inv (spawn i m c s).
Proof.
  intros Hs Hc Hm. unfold spawn. destruct (safe_settle _ _ m c Hm Hc) as [Hc' Hm'].
  destruct (settle m c). by apply park_wire.
Qed.

Lemma set_live_typed c p' :
  client_typed c → client_typed (set_service (mkPeerService (Some p')) c).
Proof. intros Hc. apply set_service_typed; [by eexists|done]. Qed.

Lemma exec_wire a s s' : wire_inv s → exec a s = Some s' → wire_inv s'.
Proof.
  intros Hs. pose proof Hs as (Hc & Ht & Hd).
  destruct a as [i|i|i|n|i v|i v|i|i|i]; simpl.
  - destruct (sy_clients s !! i) as [c|] eqn:Hi; simpl; [|done].
    destruct (cl_outbox c !! _) as [m|] eqn:Hm; simpl; [|done].
    pose proof (handle_c2s_typed i m (sy_server s)) as Hds.
    destruct (handle_c2s i m (sy_server s)) as [sv' ds]. intros [= <-].
    split_and!; [done|done|]. apply post_typed; [|done]. apply Hds.
    destruct (Hc i c Hi) as [_ Ho]. exact (Forall_lookup_1 (λ m, c2s_typed m = true) _ _ _ Ho Hm).
  - destruct (sy_clients s !! i) as [c|] eqn:Hi; simpl; [|done].
    destruct (sy_down s !! i) as [[|m rest]|] eqn:Hq; [done| |done]. intros [= <-].
    pose proof (Hd i _ Hq) as [Hm Hrest]%Forall_cons.
    apply spawn_wire; eauto with wire. split_and!; [done|done|]. by apply queues_typed_insert.
  - destruct (sy_clients s !! i) as [c|] eqn:Hi; simpl; [|done].
    destruct (peer (cl_service c)) as [p|]; simpl; [|done].
    destruct (take_event p) as [[oev p']|]; [|done].
    pose proof (set_live_typed c p' (Hc i c Hi)).
    destruct oev, (cl_page c); intros [= <-]; try rewrite with_client_park;
      first [apply spawn_wire | apply park_wire]; eauto with wire; by constructor.
  - destruct (sy_tasks s !! n) as [[i m]|] eqn:Hn; simpl; [|done].
    destruct (sy_clients s !! i) as [c|] eqn:Hi; simpl; [|done].
    pose proof (Ht _ (list_elem_of_lookup_2 _ _ _ Hn)) as Hm.
    destruct (safe_resume _ _ m c Hm (Hc i c Hi)) as [Hc' Hm'].
    destruct (resume m c) as [m' c']. intros [= <-].
    apply park_wire; eauto using list_elem_of_delete_inv.
  - destruct (sy_clients s !! i) as [c|] eqn:Hi; simpl; [|done].
    destruct (cl_page c); [intros [= <-]|done]. rewrite with_client_park.
    apply park_wire; eauto with wire; by constructor.
  - destruct (sy_clients s !! i) as [c|] eqn:Hi; simpl; [|done].
    destruct (cl_page c); [intros [= <-]|done]. rewrite with_client_park.
    apply park_wire; eauto with wire; by constructor.
  - destruct (sy_clients s !! i) as [c|] eqn:Hi; simpl; [|done].
    destruct (cl_page c); [|done].
    destruct (form_submits _); intros [= <-]; [apply spawn_wire; eauto with wire|done].
  - destruct (sy_clients s !! i) as [c|] eqn:Hi; simpl; [|done].
    destruct (cl_page c); [done|]. case_match; [|done].
    intros [= <-]. apply spawn_wire; eauto with wire.
  - destruct (sy_clients s !! i) as [c|]; simpl; [intros [= <-]|done].
    split_and!; simpl.
    + intros j cj [_ Hj]%lookup_delete_Some. eauto.
    + intros tm [_ Htm]%list_elem_of_filter. auto.
    + intros j ms [_ Hj]%lookup_delete_Some. eauto.
Qed.

Lemma init_wire eps : wire_inv (init_sys eps).
Proof.
  split_and!; simpl.
  - intros i c Hl%elem_of_list_to_map_2. apply list_elem_of_fmap in Hl as ([j b] & [= -> ->] & _).
    split; [by eexists|constructor].
  - intros tm Htm. by apply elem_of_nil in Htm.
  - intros i ms Hi. by rewrite lookup_empty in Hi.
Qed.

Lemma reachable_wire eps s : reachable eps s → wire_inv s.
Proof.
  revert s. apply rtc_ind_r; [apply init_wire|].
  intros s2 s3 _ [a Ha] Hs. by eapply exec_wire.
Qed.

(** ** Claims *)

(** C25: the typing of the protocol (spec section 5): in every reachable
    system every page keeps its connection, every message a page has
    emitted carries a description of the type its event names (an offer
    for [user:call] and [peer:nego:needed], an answer for [call:accepted]
    and [peer:nego:done]), and so does every message the relay has
    delivered and the page not yet dispatched. *)
Theorem reachable_wire_typed eps s :
  reachable eps s →
  (∀ i c, s.(sy_clients) !! i = Some c → is_Some c.(cl_service).(peer))
  ∧ (∀ i c m, s.(sy_clients) !! i = Some c → m ∈ c.(cl_outbox) → c2s_typed m = true)
  ∧ (∀ i ms m, s.(sy_down) !! i = Some ms → m ∈ ms → s2c_typed m = true).
Proof.
  intros Hr. destruct (reachable_wire eps s Hr) as (Hc & _ & Hd). split_and!.
  - intros i c Hi. apply (Hc i c Hi).
  - intros i c m Hi. revert m. apply Forall_forall, (Hc i c Hi).
  - intros i ms m Hi. revert m. apply Forall_forall, (Hd i ms Hi).
Qed.

(** ** Witnesses *)

Lemma reachable_wire_typed_witness :
  reachable demo_eps (after call_schedule)
  ∧ (∀ i c m, (after call_schedule).(sy_clients) !! i = Some c → m ∈ c.(cl_outbox) →
       c2s_typed m = true).
Proof.
  assert (Hr : reachable demo_eps (after call_schedule))
    by (apply after_reachable; vm_compute; reflexivity).
  split; [exact Hr|exact (proj1 (proj2 (reachable_wire_typed demo_eps _ Hr)))].
Defined.

End Wire.
