(* ===== verification/Chain.v ===== *)
(** * Chain: the engine's operations chain against the pages' tasks.

    Every description operation the service starts ([Peer.chain_op]) joins
    the connection's chain at call time ([Rtc.begin_op]) and leaves it
    when its caller resumes ([Rtc.chained]). The pages never touch the
    chain otherwise. This file counts, for a body, how many operations it
    holds on the chain ([holds]: zero, or one between the call and the
    resumption), proves every listener and handler of the pages holds none
    when it starts, and proves in every reachable system that each
    endpoint's chain is exactly the operations its suspended tasks hold.
    So an endpoint with no suspended task has an empty chain and no
    deferred negotiation-needed update ([Rtc.quiet]): the hypothesis under
    which [Peer] and [Room] state the handlers' results holds whenever an
    endpoint is idle. *)

From stdpp Require Import base list gmap strings relations.
From S2P Require Import Prelude Async Rtc Peer Room Lobby Relay Negotiation System.
Import Rtc Peer Room Lobby Relay Negotiation System.

Module Chain.

(** ** Bodies that hold a counted resource *)

Section holds.
Context {W : Type} (P : W → Prop) (cnt : W → nat).

(** [holds n m]: [m] is the rest of a body that holds [n] of the units
    [cnt] counts. Each step, from a world satisfying [P] where the [n]
    units are there, keeps [P]; returning [x] it continues holding
    [nk x] (at most one), the world's count moving by [nk x - n]; a
    rejection releases what the body held. A finished body holds nothing. *)
Inductive holds {A} : nat → async W A → Prop :=
  | hd_done r : holds 0 (Done r)
  | hd_sync {X} n (nk : X → nat) (f : W → res X * W) k :
      (∀ w, P w → n ≤ cnt w → P (f w).2) →
      (∀ w x, P w → n ≤ cnt w → (f w).1 = Ok x → cnt (f w).2 + n = cnt w + nk x) →
      (∀ w e, P w → n ≤ cnt w → (f w).1 = Thrown e → cnt (f w).2 + n = cnt w) →
      (∀ x, nk x ≤ 1) → (∀ x, holds (nk x) (k x)) →
      holds n (Sync f k)
  | hd_await {X} n (nk : X → nat) (f : W → res X * W) k :
      (∀ w, P w → n ≤ cnt w → P (f w).2) →
      (∀ w x, P w → n ≤ cnt w → (f w).1 = Ok x → cnt (f w).2 + n = cnt w + nk x) →
      (∀ w e, P w → n ≤ cnt w → (f w).1 = Thrown e → cnt (f w).2 + n = cnt w) →
      (∀ x, nk x ≤ 1) → (∀ x, holds (nk x) (k x)) →
      holds n (Await f k).

(** A step that keeps [P] and the count. *)
Definition keeps {X} (f : W → res X * W) : Prop := ∀ w, P w → P (f w).2 ∧ cnt (f w).2 = cnt w.

Lemma holds_sync {X} (f : W → res X * W) : keeps f → holds 0 (sync f).
Proof.
  intros Hf. apply (hd_sync 0 (λ _, 0)); [intros w Hw _; apply Hf, Hw|..|intros; lia|constructor];
    intros w ? Hw _ _; rewrite (proj2 (Hf w Hw)); lia.
Qed.

Lemma holds_await {X} (f : W → res X * W) : keeps f → holds 0 (await f).
Proof.
  intros Hf. apply (hd_await 0 (λ _, 0)); [intros w Hw _; apply Hf, Hw|..|intros; lia|constructor];
    intros w ? Hw _ _; rewrite (proj2 (Hf w Hw)); lia.
Qed.

Lemma holds_ret {A} (a : A) : holds 0 (mret a).
Proof. constructor. Qed.

Lemma holds_bind {A B} n (m : async W A) (g : A → async W B) :
  holds n m → (∀ a, holds 0 (g a)) → holds n (m ≫= g).
Proof.
  intros Hm Hg. induction Hm as [[a|e]|X n nk f k Hf Hok Herr Hb Hk IH|X n nk f k Hf Hok Herr Hb Hk IH];
    simpl; [done|constructor|econstructor..]; eauto.
Qed.

Lemma holds_catch {A} n (m : async W A) h :
  holds n m → (∀ e, holds 0 (h e)) → holds n (catch m h).
Proof.
  intros Hm Hh. induction Hm as [[a|e]|X n nk f k Hf Hok Herr Hb Hk IH|X n nk f k Hf Hok Herr Hb Hk IH];
    simpl; [constructor|done|..].
  all: let nk' := constr:(λ s : exn + X, match s with inl _ => 0 | inr x => nk x end) in
       first [apply (hd_sync n nk')|apply (hd_await n nk')]; [..|intros []; [lia|apply Hb]|intros []; [apply Hh|apply IH]].
  all: unfold trap; intros w; pose proof (Hf w); pose proof (Hok w); pose proof (Herr w).
  all: destruct (f w) as [[x|e] w'] eqn:E; simpl in *; intros; simplify_eq; simpl;
       rewrite ?Nat.add_0_r; naive_solver.
Qed.

(** A task run up to its next [await] or its end, from a world where
    [B] units are held by others and [n] by the task: the others' [B]
    stay, and the task is finished or suspended holding [n']. *)
Definition parked {A} (B : nat) (mw : async W A * W) : Prop :=
  P mw.2 ∧ ((suspended mw.1 = false ∧ cnt mw.2 = B)
            ∨ ∃ n, n ≤ 1 ∧ suspended mw.1 = true ∧ holds n mw.1 ∧ cnt mw.2 = B + n).

Lemma holds_settle {A} n (m : async W A) w B :
  holds n m → n ≤ 1 → P w → cnt w = B + n → parked B (settle m w).
Proof.
  intros Hm. revert w. induction Hm as [r|X n nk f k Hf Hok Herr Hb Hk IH|X n nk f k Hf Hok Herr Hb Hk IH];
    intros w Hn Hw Hc; unfold parked; simpl.
  - split; [done|left; split; [by destruct r|lia]].
  - assert (n ≤ cnt w) as Hle by lia. pose proof (Hf w Hw Hle) as Hw'.
    pose proof (Hok w) as Hok'. pose proof (Herr w) as Herr'.
    destruct (f w) as [[x|e] w'] eqn:E; simpl in *.
    + apply IH; [done|done|]. specialize (Hok' x Hw Hle eq_refl). lia.
    + specialize (Herr' e Hw Hle eq_refl). simpl. split; [done|left; split; [done|lia]].
  - split; [done|right]. exists n. split_and!; [done|done| |done]. by econstructor.
Qed.

Lemma holds_resume {A} n (m : async W A) w B :
  holds n m → n ≤ 1 → P w → cnt w = B + n → parked B (resume m w).
Proof.
  intros Hm Hn Hw Hc. destruct Hm as [r|X n nk f k Hf Hok Herr Hb Hk|X n nk f k Hf Hok Herr Hb Hk];
    unfold resume; [by eapply holds_settle; [constructor|..]|
                    by eapply holds_settle; [econstructor|..]|].
  assert (n ≤ cnt w) as Hle by lia. pose proof (Hf w Hw Hle) as Hw'.
  pose proof (Hok w) as Hok'. pose proof (Herr w) as Herr'.
  destruct (f w) as [[x|e] w'] eqn:E; simpl in *.
  - eapply holds_settle; [done|done|done|]. specialize (Hok' x Hw Hle eq_refl). lia.
  - specialize (Herr' e Hw Hle eq_refl). unfold parked; simpl. split; [done|left; split; [done|lia]].
Qed.
End holds.

Section zoom_holds.
Context {V W : Type} (get : W → V) (put : V → W → W).
Context (Pv : V → Prop) (cv : V → nat) (Pw : W → Prop) (cw : W → nat).
Hypothesis get_P : ∀ w, Pw w → Pv (get w).
Hypothesis put_P : ∀ v w, Pw w → Pv v → Pw (put v w).
Hypothesis cnt_get : ∀ w, cw w = cv (get w).
Hypothesis cnt_put : ∀ v w, cw (put v w) = cv v.

Lemma holds_zoom {A} n (m : async V A) : holds Pv cv n m → holds Pw cw n (zoom get put m).
Proof.
  induction 1 as [r|X n nk f k Hf Hok Herr Hb Hk IH|X n nk f k Hf Hok Herr Hb Hk IH];
    simpl; [constructor|apply (hd_sync Pw cw n nk)|apply (hd_await Pw cw n nk)]; try done.
  all: unfold lift_step; intros w; rewrite cnt_get; pose proof (Hf (get w)) as Hf';
       pose proof (Hok (get w)) as Hok'; pose proof (Herr (get w)) as Herr';
       destruct (f (get w)) as [r v']; simpl in *; rewrite ?cnt_put; eauto.
Qed.
End zoom_holds.

(** ** The chain of a service and of a page *)

(** The length of the service's chain, and its invariant. *)
Definition sops (s : PeerService) : nat :=
  match s.(peer) with Some p => pc_ops p | None => 0 end.

Definition s_chain_wf (s : PeerService) : Prop :=
  match s.(peer) with Some p => chain_wf p | None => True end.

Definition ops_of (c : client) : nat := sops c.(cl_service).

Definition cl_chain_wf (c : client) : Prop := s_chain_wf c.(cl_service).

Abbreviation sholds := (holds s_chain_wf sops).
Abbreviation cholds := (holds cl_chain_wf ops_of).

Lemma holds_gets {W X} (P : W → Prop) cnt (g : W → X) : holds P cnt 0 (gets g).
Proof. by apply holds_sync. Qed.

Lemma call_peer_some {X} (f : pc → res X * pc) s p :
  s.(peer) = Some p → call_peer f s = ((f p).1, mkPeerService (Some (f p).2)).
Proof. unfold call_peer. intros ->. by destruct (f p). Qed.

(** [await this.peer.m(...)] holds one operation on the chain while it
    is awaited and none once its caller resumes. *)
Lemma chain_op_holds {X} (op : pc → res X * pc) :
  (∀ p, pc_ops (op p).2 = pc_ops p) → sholds 0 (chain_op op).
Proof.
  intros Hop. unfold chain_op; cbn.
  apply (hd_sync _ _ 0 (λ _, 1)); [..|intros; lia|intros _].
  1-3: intros s; destruct (peer s) as [p|] eqn:E;
       [rewrite (call_peer_some _ _ p E); unfold s_chain_wf, sops; rewrite E; cbn;
        intros; simplify_eq; auto using begin_op_chain_wf; lia|].
  1-3: unfold call_peer; rewrite E; cbn; intros; simplify_eq; auto.
  apply (hd_await _ _ 1 (λ _, 0)); [..|intros; lia|intros; constructor].
  all: intros s; destruct (peer s) as [p|] eqn:E; unfold sops; rewrite ?E; [|intros; lia].
  all: rewrite (call_peer_some _ _ p E); unfold s_chain_wf; cbn.
  all: rewrite ?chained_ops, ?Hop; intros; auto using chained_chain_wf; lia.
Qed.

(** The service's methods hold nothing when they return. *)
Create HintDb chain.

Ltac chain_walk :=
  repeat match goal with
         | |- holds _ _ _ (_ ≫= _) => eapply holds_bind; [solve [eauto with chain]|intros ?]
         | |- holds _ _ _ (catch _ _) => apply holds_catch; [|intros ?]
         | |- holds _ _ 0 (mret _) => apply holds_ret
         | |- holds _ _ _ (match ?x with _ => _ end) => destruct x
         | |- holds _ _ _ _ => solve [eauto with chain]
         end.

Lemma holds_to_description {W} (P : W → Prop) cnt d :
  holds P cnt 0 (sync (λ w, (to_description d, w))).
Proof. by apply holds_sync. Qed.

#[export] Hint Resolve holds_gets holds_to_description createOffer_ops createAnswer_ops
  setLocalDescription_ops setRemoteDescription_ops : chain.
#[export] Hint Extern 1 (sholds 0 (chain_op _)) => apply chain_op_holds; intros : chain.

Lemma getOffer_holds : sholds 0 getOffer.
Proof. unfold getOffer. chain_walk. Qed.

Lemma getAnswer_holds d : sholds 0 (getAnswer d).
Proof. unfold getAnswer. chain_walk. Qed.

Lemma setRemoteDescription_holds d : sholds 0 (Peer.setRemoteDescription d).
Proof. unfold Peer.setRemoteDescription. chain_walk. Qed.

(** The pages' own steps leave the service alone, except the inline
    [addTrack] loop, which keeps the chain's length and invariant. *)
Lemma cholds_modify (g : client → client) :
  (∀ c, cl_service (g c) = cl_service c) → cholds 0 (modify g).
Proof. intros Hg. apply holds_sync. intros c. unfold cl_chain_wf, ops_of. cbn. by rewrite Hg. Qed.

Lemma cholds_await (f : client → res media_stream * client) :
  (∀ c, cl_service (f c).2 = cl_service c) → cholds 0 (await f).
Proof. intros Hf. apply holds_await. intros c. unfold cl_chain_wf, ops_of. by rewrite Hf. Qed.

Lemma room_tracks_loop_chain st ts p :
  pc_ops (room_tracks_loop st ts p) = pc_ops p ∧ (chain_wf p → chain_wf (room_tracks_loop st ts p)).
Proof.
  revert p. induction ts as [|t ts IH]; intros p; [by split|]. cbn.
  destruct (IH (addTrack t [ms_id st] p).2) as [-> Hw].
  rewrite addTrack_ops. auto using addTrack_chain_wf.
Qed.

Lemma cholds_add_tracks st :
  cholds 0 (modify (λ c, set_service (room_add_tracks st c.(cl_service)) c)).
Proof.
  apply holds_sync. intros c. unfold cl_chain_wf, ops_of, s_chain_wf, sops, room_add_tracks; cbn.
  destruct (peer (cl_service c)) as [p|] eqn:E; cbn; rewrite ?E; [|intros; by split].
  destruct (room_tracks_loop_chain st (ms_tracks st) p). auto.
Qed.

Lemma cholds_svc {A} n (m : async PeerService A) : sholds n m → cholds n (svc m).
Proof. apply holds_zoom; unfold cl_chain_wf, ops_of; cbn; auto. Qed.

#[export] Hint Resolve cholds_modify cholds_await cholds_add_tracks getOffer_holds
  getAnswer_holds setRemoteDescription_holds : chain.
#[export] Hint Extern 1 (cholds _ (svc _)) => apply cholds_svc : chain.
#[export] Hint Extern 1 (∀ c, cl_service _ = cl_service c) =>
  intros; unfold getUserMedia, handleTrack; repeat case_match; reflexivity : chain.

(** Every listener and handler of the pages starts holding nothing. *)
Lemma on_message_holds m c : cholds 0 (on_message m c).
Proof.
  unfold on_message, room_on_message, lobby_on_message, handleUserJoined, handleIncomingCall,
    handleCallAccepted, handleNegotiationIncoming, handleNegotiationFinal, handleJoinRoom;
    chain_walk.
Qed.

Lemma room_on_event_holds ev : cholds 0 (room_on_event ev).
Proof. destruct ev; unfold room_on_event, handleNegotiationNeeded; chain_walk. Qed.

Lemma handleCallUser_holds : cholds 0 handleCallUser.
Proof. unfold handleCallUser. chain_walk. Qed.

Lemma handleSubmitForm_holds : cholds 0 handleSubmitForm.
Proof. unfold handleSubmitForm. chain_walk. Qed.

#[export] Hint Resolve on_message_holds room_on_event_holds handleCallUser_holds
  handleSubmitForm_holds : chain.

(** ** The chain in the running system *)

(** A suspended task annotated with the operations it holds. *)
Abbreviation held_task := (nat * (sid * async client unit))%type.

(** The operations the suspended tasks of endpoint [i] hold. *)
Definition held_of (ats : list held_task) (i : sid) : nat :=
  sum_list_with (λ a, if decide (a.2.1 = i) then a.1 else 0) ats.

(** Each endpoint's chain is exactly what its suspended tasks hold, and
    each task holds at most one operation. *)
Definition chain_inv (s : sys) : Prop :=
  ∃ ats : list held_task, ats.*2 = s.(sy_tasks)
    ∧ Forall (λ a, a.1 ≤ 1 ∧ cholds a.1 a.2.2) ats
    ∧ ∀ i c, s.(sy_clients) !! i = Some c → cl_chain_wf c ∧ ops_of c = held_of ats i.

Lemma held_of_app ats ats' i : held_of (ats ++ ats') i = held_of ats i + held_of ats' i.
Proof. apply sum_list_with_app. Qed.

Lemma held_of_delete ats n a i :
  ats !! n = Some a →
  held_of ats i = held_of (delete n ats) i + (if decide (a.2.1 = i) then a.1 else 0).
Proof.
  intros Ha. rewrite <- (take_drop_middle ats n a Ha) at 1. rewrite delete_take_drop.
  unfold held_of. rewrite !sum_list_with_app. cbn. lia.
Qed.

Lemma held_of_filter ats i j :
  j ≠ i → held_of (filter (λ a : held_task, a.2.1 ≠ i) ats) j = held_of ats j.
Proof.
  intros Hj. induction ats as [|a ats IH]; [done|]. rewrite filter_cons.
  unfold held_of in *. case_decide; cbn; rewrite IH; [done|]. case_decide; [congruence|done].
Qed.

Lemma filter_snd ats i :
  (filter (λ a : held_task, a.2.1 ≠ i) ats).*2 = filter (λ tm : sid * async client unit, tm.1 ≠ i) ats.*2.
Proof.
  induction ats as [|a ats IH]; [done|].
  change ((a :: ats).*2) with (a.2 :: ats.*2). rewrite !filter_cons.
  case_decide; cbn; by rewrite IH.
Qed.

(** Parking a task run on [i] from the others' [B] operations. *)
Lemma park_chain i m c ats s :
  Forall (λ a, a.1 ≤ 1 ∧ cholds a.1 a.2.2) ats →
  (∀ j c', j ≠ i → s.(sy_clients) !! j = Some c' → cl_chain_wf c' ∧ ops_of c' = held_of ats j) →
  parked cl_chain_wf ops_of (held_of ats i) (m, c) →
  chain_inv (park i m c ats.*2 s).
Proof.
  intros Hf Ho (Hw & [[Hs Hc]|(n & Hn & Hs & Hm & Hc)]); cbn in *; unfold park; rewrite Hs.
  - exists ats. split_and!; [done..|]. cbn. intros j c'. rewrite lookup_insert_Some.
    intros [[<- <-]|[Hj Hl]]; [done|auto].
  - exists (ats ++ [(n, (i, m))]). rewrite fmap_app. split_and!; [done|by apply Forall_app; auto|].
    cbn. intros j c'. rewrite held_of_app. unfold held_of at 2; cbn.
    rewrite lookup_insert_Some. intros [[<- <-]|[Hj Hl]]; [rewrite decide_True by done; split; [done|lia]|].
    rewrite decide_False by done. rewrite Nat.add_0_r. auto.
Qed.

Lemma spawn_chain i m c c1 s :
  chain_inv s → s.(sy_clients) !! i = Some c → cholds 0 m →
  cl_chain_wf c1 → ops_of c1 = ops_of c → chain_inv (spawn i m c1 s).
Proof.
  intros (ats & Hts & Hf & Ho) Hi Hm Hw Hc. unfold spawn.
  assert (ops_of c1 = held_of ats i + 0) as Hc1 by (rewrite Hc, (proj2 (Ho i c Hi)); lia).
  pose proof (holds_settle _ _ 0 m c1 (held_of ats i) Hm ltac:(lia) Hw Hc1) as Hp.
  destruct (settle m c1) as [m' c']. rewrite <- Hts. apply park_chain; eauto.
Qed.

Lemma with_client_chain i c c1 s :
  chain_inv s → s.(sy_clients) !! i = Some c →
  cl_chain_wf c1 → ops_of c1 = ops_of c → chain_inv (with_client i c1 s).
Proof.
  intros (ats & Hts & Hf & Ho) Hi Hw Hc. rewrite with_client_park, <- Hts.
  apply park_chain; [done|eauto|]. split; [done|left; split; [done|cbn]].
  rewrite Hc. apply Ho, Hi.
Qed.

Lemma chain_inv_same s s' :
  s'.(sy_clients) = s.(sy_clients) → s'.(sy_tasks) = s.(sy_tasks) → chain_inv s → chain_inv s'.
Proof. intros Hc Ht (ats & ? & ? & ?). exists ats. rewrite Hc, Ht. done. Qed.

(** A connection the engine fires an event from keeps its chain. *)
Lemma fire_chain c p oev p' :
  cl_chain_wf c → c.(cl_service).(peer) = Some p → take_event p = Some (oev, p') →
  cl_chain_wf (set_service (mkPeerService (Some p')) c)
  ∧ ops_of (set_service (mkPeerService (Some p')) c) = ops_of c.
Proof.
  unfold cl_chain_wf, ops_of, s_chain_wf, sops. intros Hw Hp Ht. rewrite Hp in *.
  destruct (take_event_chain p oev p' Ht). cbn. auto.
Qed.

Lemma resume_chain s n i m c :
  chain_inv s → s.(sy_tasks) !! n = Some (i, m) → s.(sy_clients) !! i = Some c →
  chain_inv (park i (resume m c).1 (resume m c).2 (delete n s.(sy_tasks)) s).
Proof.
  intros (ats & Hts & Hf & Ho) Hn Hi. rewrite <- Hts, list_lookup_fmap in Hn.
  destruct (ats !! n) as [[k tm]|] eqn:Ha; simplify_eq/=.
  destruct (proj1 (Forall_lookup _ _) Hf n _ Ha) as [Hk Hm]; cbn in Hk, Hm.
  pose proof (held_of_delete ats n _ i Ha) as Hd. rewrite decide_True in Hd by done. cbn in Hd.
  rewrite <- Hts, <- list_fmap_delete. apply park_chain.
  - by apply Forall_delete.
  - intros j c' Hj Hl. destruct (Ho j c' Hl) as [? ->].
    rewrite (held_of_delete ats n _ j Ha), decide_False by done. split; [done|lia].
  - destruct (Ho i c Hi) as [Hw Hc]. rewrite <- surjective_pairing.
    apply (holds_resume _ _ k); [done|done|done|lia].
Qed.

Lemma disconnect_chain s i :
  chain_inv s →
  chain_inv (mkSys (delete i s.(sy_clients)) (filter (λ tm, tm.1 ≠ i) s.(sy_tasks))
               (delete i s.(sy_sent)) (delete i s.(sy_down)) (disconnect i s.(sy_server))).
Proof.
  intros (ats & Hts & Hf & Ho). exists (filter (λ a : held_task, a.2.1 ≠ i) ats).
  cbn. rewrite filter_snd, Hts. split_and!; [done| |].
  { apply Forall_forall. intros x [_ Hx]%list_elem_of_filter. by eapply Forall_forall in Hf. }
  intros j c. rewrite lookup_delete_Some. intros [Hj Hl]. rewrite held_of_filter; auto.
Qed.

(** Every step of the system keeps [chain_inv]. *)
Lemma exec_chain a s s' : chain_inv s → exec a s = Some s' → chain_inv s'.
Proof.
  intros Hs Hx.
  assert (Hcw : ∀ i c, sy_clients s !! i = Some c → cl_chain_wf c)
    by (destruct Hs as (?&?&?&Ho); intros i c Hi; by apply (Ho i)).
  destruct a as [i|i|i|n|i v|i v|i|i|i]; cbn -[spawn with_client] in Hx.
  - destruct (sy_clients s !! i) as [c|]; [|done]; cbn -[spawn with_client] in Hx.
    destruct (cl_outbox c !! _); [|done]; cbn -[spawn with_client] in Hx.
    destruct (handle_c2s _ _ _). simplify_eq. by eapply chain_inv_same.
  - destruct (sy_clients s !! i) as [c|] eqn:Hi; [|done]; cbn -[spawn with_client] in Hx.
    destruct (sy_down s !! i) as [[|m rest]|]; simplify_eq.
    eapply spawn_chain; [by eapply chain_inv_same|done|auto with chain|eauto|done].
  - destruct (sy_clients s !! i) as [c|] eqn:Hi; [|done]; cbn -[spawn with_client] in Hx.
    destruct (peer (cl_service c)) as [p|] eqn:Hp; [|done]; cbn -[spawn with_client] in Hx.
    destruct (take_event p) as [[oev p']|] eqn:Ht; [|done].
    destruct (fire_chain c p oev p' (Hcw i c Hi) Hp Ht) as [Hw1 Hc1].
    destruct oev, (cl_page c); simplify_eq;
      eauto using spawn_chain, with_client_chain with chain.
  - destruct (sy_tasks s !! n) as [[i m]|] eqn:Hn; [|done]; cbn -[spawn with_client] in Hx.
    destruct (sy_clients s !! i) as [c|] eqn:Hi; [|done]; cbn -[spawn with_client] in Hx.
    rewrite (surjective_pairing (resume m c)) in Hx. simplify_eq. by eapply resume_chain.
  - destruct (sy_clients s !! i) as [c|] eqn:Hi; [|done]; cbn -[spawn with_client] in Hx;
    destruct (cl_page c); simplify_eq; eapply with_client_chain; [done|exact Hi|exact (Hcw i c Hi)|done].
  - destruct (sy_clients s !! i) as [c|] eqn:Hi; [|done]; cbn -[spawn with_client] in Hx;
    destruct (cl_page c); simplify_eq; eapply with_client_chain; [done|exact Hi|exact (Hcw i c Hi)|done].
  - destruct (sy_clients s !! i) as [c|] eqn:Hi; [|done]; cbn -[spawn with_client] in Hx;
    destruct (cl_page c); repeat case_match; simplify_eq; try done;
    eapply spawn_chain; eauto with chain.
  - destruct (sy_clients s !! i) as [c|] eqn:Hi; [|done]; cbn -[spawn with_client] in Hx;
    destruct (cl_page c); repeat case_match; simplify_eq; try done;
    eapply spawn_chain; eauto with chain.
  - destruct (sy_clients s !! i); cbn in Hx; simplify_eq. by apply disconnect_chain.
Qed.

Lemma init_chain eps : chain_inv (init_sys eps).
Proof.
  exists []. split_and!; [done|done|]. intros i c Hl%elem_of_list_to_map_2.
  apply list_elem_of_fmap in Hl as ([j b] & [= -> ->] & _). done.
Qed.

Lemma reachable_chain eps s : reachable eps s → chain_inv s.
Proof.
  unfold reachable. intros Hr. remember (init_sys eps) as s0 eqn:E.
  assert (chain_inv s0) as H0 by (subst; apply init_chain). clear E.
  induction Hr as [|x y z [a Ha] _ IH]; [done|]. eauto using exec_chain.
Qed.

Lemma held_of_le ats i :
  Forall (λ a : held_task, a.1 ≤ 1 ∧ cholds a.1 a.2.2) ats →
  held_of ats i ≤ length (filter (λ tm : sid * async client unit, tm.1 = i) ats.*2).
Proof.
  induction 1 as [|a ats [Ha _] _ IH]; [done|].
  change ((a :: ats).*2) with (a.2 :: ats.*2). rewrite filter_cons. unfold held_of in *; cbn.
  case_decide; cbn; lia.
Qed.

Lemma held_of_idle ats i :
  Forall (λ tm : sid * async client unit, tm.1 ≠ i) ats.*2 → held_of ats i = 0.
Proof.
  induction ats as [|a ats IH]; [done|]. change ((a :: ats).*2) with (a.2 :: ats.*2).
  intros [Ha Hr]%Forall_cons. unfold held_of in *; cbn. rewrite decide_False by done. auto.
Qed.

(** ** Idle endpoints *)

(** In every reachable system, the chain of an endpoint's connection is
    no longer than the list of the endpoint's suspended tasks, and an
    endpoint with no suspended task has an empty chain and no deferred
    negotiation-needed update: the handlers' results stated under
    [quiet] in [Peer] and [Room] apply to every idle endpoint. *)
Lemma reachable_chain_held eps s i c p :
  reachable eps s → s.(sy_clients) !! i = Some c → c.(cl_service).(peer) = Some p →
  pc_ops p ≤ length (filter (λ tm : sid * async client unit, tm.1 = i) s.(sy_tasks))
  ∧ (Forall (λ tm : sid * async client unit, tm.1 ≠ i) s.(sy_tasks) → quiet p).
Proof.
  intros Hr Hi Hp. destruct (reachable_chain eps s Hr) as (ats & Hts & Hf & Ho).
  destruct (Ho i c Hi) as [Hw Hc]. unfold cl_chain_wf, s_chain_wf, ops_of, sops in Hw, Hc.
  rewrite Hp in Hw, Hc. rewrite <- Hts. split; [rewrite Hc; by apply held_of_le|].
  intros Hidle. assert (pc_ops p = 0) by (rewrite Hc; by apply held_of_idle). split; auto.
Qed.

End Chain.
